(** * Optiland surface geometries and paraxial rays

    A shallow embedding of

    - [optiland/geometries/standard.py]      ([StandardGeometry]),
    - [optiland/geometries/even_asphere.py]  ([EvenAsphere]),
    - [optiland/geometries/chebyshev.py]     ([ChebyshevPolynomialGeometry]),
    - [optiland/rays/paraxial_rays.py]       ([ParaxialRays]).

    ** Numbers

    The Python code computes on NumPy [float64] arrays.  The model keeps
    the special values of IEEE 754 that the code relies on ([inf], [nan],
    division by zero, square root of a negative number, [inf * 0]) and
    idealises the finite part: a finite value is a real number, finite
    operations are exact (no rounding, no overflow, no underflow).  The two
    zeros of IEEE 754 are one value here; where IEEE 754 picks the sign of
    an infinity from the sign of a zero divisor, the model takes the zero
    as positive.  Every statement below that reaches such a division
    concludes in [NaN] or is protected by a hypothesis that excludes it.

    ** Arrays

    A one-dimensional NumPy array is a [list fval].  Elementwise NumPy
    operations are [map] / [zipWith]; boolean-mask indexing and assignment
    are written out ([np.select], [np.mask_set], [np.mask_assign]).  The
    arrays of one batch have one common length (NumPy raises on other
    shapes, or broadcasts an array of one entry; only the in-place sum of
    [ParaxialRays.propagate] models that, see [np.iadd]).

    ** Objects

    The fields of a [ParaxialRays] object are references into a store of
    arrays, and [propagate] updates the store in place.  The geometries are
    records of numbers: their methods do not write.

    ** Layout

    The embedding comes first: values, arrays, the three geometries, the
    store and the paraxial rays, each method next to a version for one ray
    or one point.  The facts follow: the array methods act entry by entry,
    the conic slope at a regular point, and the properties C1 to C10 of the
    specification, each under its number. *)

From Stdlib Require Import Reals Lra Lia List Bool Arith.
Import ListNotations.

Local Open Scope R_scope.

(* ================================================================= *)
(** * Values: idealised [float64] *)

Inductive fval : Type :=
| Fin (r : R)
| PInf
| NInf
| NaN.

Definition Rltb (a b : R) : bool := if Rlt_dec a b then true else false.
Definition Rleb (a b : R) : bool := if Rle_dec a b then true else false.
Definition Reqb (a b : R) : bool := if Req_dec_T a b then true else false.

(** Sign of a value as the infinity it scales: [Some false] positive,
    [Some true] negative, [None] for zero and [NaN]. *)
Definition fsign (v : fval) : option bool :=
  match v with
  | Fin r => if Rltb 0 r then Some false
             else if Rltb r 0 then Some true else None
  | PInf => Some false
  | NInf => Some true
  | NaN => None
  end.

Definition finf (neg : bool) : fval := if neg then NInf else PInf.

Definition fneg (v : fval) : fval :=
  match v with
  | Fin r => Fin (- r)
  | PInf => NInf
  | NInf => PInf
  | NaN => NaN
  end.

Definition fabs (v : fval) : fval :=
  match v with
  | Fin r => Fin (Rabs r)
  | PInf | NInf => PInf
  | NaN => NaN
  end.

Definition fadd (a b : fval) : fval :=
  match a, b with
  | NaN, _ | _, NaN => NaN
  | Fin x, Fin y => Fin (x + y)
  | PInf, NInf | NInf, PInf => NaN
  | PInf, _ | _, PInf => PInf
  | NInf, _ | _, NInf => NInf
  end.

Definition fsub (a b : fval) : fval := fadd a (fneg b).

Definition fmul (a b : fval) : fval :=
  match a, b with
  | NaN, _ | _, NaN => NaN
  | Fin x, Fin y => Fin (x * y)
  | _, _ =>
      match fsign a, fsign b with
      | Some s, Some s' => finf (xorb s s')
      | _, _ => NaN                       (* inf * 0 *)
      end
  end.

Definition fdiv (a b : fval) : fval :=
  match a, b with
  | NaN, _ | _, NaN => NaN
  | Fin x, Fin y =>
      if Reqb y 0
      then match fsign a with
           | Some s => finf s             (* x / 0, x <> 0 *)
           | None => NaN                  (* 0 / 0 *)
           end
      else Fin (x / y)
  | Fin _, _ => Fin 0                     (* x / inf *)
  | _, Fin y =>                           (* inf / y *)
      match fsign a, fsign b with
      | Some s, Some s' => finf (xorb s s')
      | Some s, None => finf s
      | None, _ => NaN
      end
  | _, _ => NaN                           (* inf / inf *)
  end.

Definition fsqrt (v : fval) : fval :=
  match v with
  | Fin r => if Rltb r 0 then NaN else Fin (sqrt r)
  | PInf => PInf
  | NInf | NaN => NaN
  end.

(** [x ** n] for a non-negative integer exponent ([pow(nan, 0)] is 1). *)
Fixpoint fpow (v : fval) (n : nat) : fval :=
  match n with
  | O => Fin 1
  | S m => fmul v (fpow v m)
  end.

Definition fcos (v : fval) : fval :=
  match v with Fin r => Fin (cos r) | _ => NaN end.

Definition fsin (v : fval) : fval :=
  match v with Fin r => Fin (sin r) | _ => NaN end.

(** [np.arccos]: [nan] outside of [-1, 1]. *)
Definition farccos (v : fval) : fval :=
  match v with
  | Fin r => if Rleb (-1) r && Rleb r 1 then Fin (acos r) else NaN
  | _ => NaN
  end.

(** Comparisons: every comparison with [NaN] is false, except [!=]. *)
Definition fltb (a b : fval) : bool :=
  match a, b with
  | NaN, _ | _, NaN => false
  | Fin x, Fin y => Rltb x y
  | NInf, NInf => false
  | NInf, _ => true
  | _, NInf => false
  | PInf, _ => false
  | _, PInf => true
  end.

Definition feqb (a b : fval) : bool :=
  match a, b with
  | Fin x, Fin y => Reqb x y
  | PInf, PInf | NInf, NInf => true
  | _, _ => false
  end.

Definition fleb (a b : fval) : bool := fltb a b || feqb a b.
Definition fgtb (a b : fval) : bool := fltb b a.
Definition fneb (a b : fval) : bool := negb (feqb a b).

Definition is_finite (v : fval) : bool :=
  match v with Fin _ => true | _ => false end.

Definition of_nat (n : nat) : fval := Fin (INR n).

Declare Scope fval_scope.
Delimit Scope fval_scope with fv.
Bind Scope fval_scope with fval.
Infix "+" := fadd : fval_scope.
Infix "-" := fsub : fval_scope.
Infix "*" := fmul : fval_scope.
Infix "/" := fdiv : fval_scope.
Notation "- x" := (fneg x) : fval_scope.
Notation "0" := (Fin 0) : fval_scope.
Notation "1" := (Fin 1) : fval_scope.
Notation "2" := (Fin 2) : fval_scope.
Notation "4" := (Fin 4) : fval_scope.

(** [v ** 2] on floats is the product [v * v]. *)
Definition fsq (v : fval) : fval := fmul v v.

(* ================================================================= *)
(** * Python exceptions *)

Inductive exception : Type :=
| ValueError.

Inductive result (A : Type) : Type :=
| Return (a : A)
| Raise (e : exception).
Arguments Return {A} a.
Arguments Raise {A} e.

(* ================================================================= *)
(** * NumPy arrays *)

Module np.

Definition ndarray : Type := list fval.
Definition mask : Type := list bool.

Section Lift.
Context {A B C D : Type}.

Fixpoint zipWith (f : A -> B -> C) (l1 : list A) (l2 : list B) : list C :=
  match l1, l2 with
  | a :: l1', b :: l2' => f a b :: zipWith f l1' l2'
  | _, _ => []
  end.

Fixpoint zipWith3 (f : A -> B -> C -> D)
         (l1 : list A) (l2 : list B) (l3 : list C) : list D :=
  match l1, l2, l3 with
  | a :: l1', b :: l2', c :: l3' => f a b c :: zipWith3 f l1' l2' l3'
  | _, _, _ => []
  end.
End Lift.

(** Array with array. *)
Definition add : ndarray -> ndarray -> ndarray := zipWith fadd.
Definition sub : ndarray -> ndarray -> ndarray := zipWith fsub.
Definition mul : ndarray -> ndarray -> ndarray := zipWith fmul.
Definition div : ndarray -> ndarray -> ndarray := zipWith fdiv.
Definition le : ndarray -> ndarray -> mask := zipWith fleb.

(** Scalar with array ([s op a]) and array with scalar ([a op s]). *)
Definition sadd (s : fval) (a : ndarray) : ndarray := map (fadd s) a.
Definition ssub (s : fval) (a : ndarray) : ndarray := map (fsub s) a.
Definition smul (s : fval) (a : ndarray) : ndarray := map (fmul s) a.
Definition sdiv (s : fval) (a : ndarray) : ndarray := map (fdiv s) a.
Definition adds (a : ndarray) (s : fval) : ndarray := map (fun v => fadd v s) a.
Definition subs (a : ndarray) (s : fval) : ndarray := map (fun v => fsub v s) a.
Definition muls (a : ndarray) (s : fval) : ndarray := map (fun v => fmul v s) a.
Definition divs (a : ndarray) (s : fval) : ndarray := map (fun v => fdiv v s) a.
Definition lts (a : ndarray) (s : fval) : mask := map (fun v => fltb v s) a.
Definition gts (a : ndarray) (s : fval) : mask := map (fun v => fgtb v s) a.
Definition eqs (a : ndarray) (s : fval) : mask := map (fun v => feqb v s) a.

(** Unary. *)
Definition neg : ndarray -> ndarray := map fneg.
Definition abs : ndarray -> ndarray := map fabs.
Definition sqrt : ndarray -> ndarray := map fsqrt.
Definition cos : ndarray -> ndarray := map fcos.
Definition sin : ndarray -> ndarray := map fsin.
Definition arccos : ndarray -> ndarray := map farccos.
Definition square : ndarray -> ndarray := map fsq.
Definition power (a : ndarray) (n : nat) : ndarray := map (fun v => fpow v n) a.

Definition zeros_like (a : ndarray) : ndarray := map (fun _ => Fin 0) a.
Definition ones_like (a : ndarray) : ndarray := map (fun _ => Fin 1) a.

Definition any (m : mask) : bool := existsb (fun b => b) m.

(** [np.where(m, a, b)] *)
Definition where_ (m : mask) (a b : ndarray) : ndarray :=
  zipWith3 (fun c u v => if c : bool then u else v) m a b.

(** [a[m]]: the entries of [a] where the mask holds, in order. *)
Fixpoint select {A : Type} (m : mask) (a : list A) : list A :=
  match m, a with
  | c :: m', v :: a' => if c then v :: select m' a' else select m' a'
  | _, _ => []
  end.

(** [t[m] = s] for a scalar [s]. *)
Definition mask_set (m : mask) (s : fval) (t : ndarray) : ndarray :=
  zipWith (fun c v => if c : bool then s else v) m t.

(** [t[m] = vals]: the entries of [vals] go, in order, to the places of
    [t] where the mask holds ([vals] has as many entries as the mask has
    true places; NumPy raises otherwise, the model then leaves the
    remaining places as they are). *)
Fixpoint mask_assign (m : mask) (vals t : ndarray) : ndarray :=
  match m, t with
  | c :: m', v :: t' =>
      if c
      then match vals with
           | w :: vals' => w :: mask_assign m' vals' t'
           | [] => v :: mask_assign m' [] t'
           end
      else v :: mask_assign m' vals t'
  | _, _ => []
  end.

(** [a += b] on an array [a]: [b] has the length of [a], or one entry
    that is used at every place; otherwise NumPy raises [ValueError]
    (operands could not be broadcast together). *)
Definition iadd (a b : ndarray) : result ndarray :=
  if Nat.eqb (length b) (length a) then Return (add a b)
  else match b with
       | [s] => Return (adds a s)
       | _ => Raise ValueError
       end.

End np.

Declare Scope arr_scope.
Delimit Scope arr_scope with A.
Infix "+" := np.add : arr_scope.
Infix "-" := np.sub : arr_scope.
Infix "*" := np.mul : arr_scope.
Infix "/" := np.div : arr_scope.
Notation "- a" := (np.neg a) : arr_scope.
Notation "s *: a" := (np.smul s a) (at level 40, left associativity) : arr_scope.
Notation "a :* s" := (np.muls a s) (at level 40, left associativity) : arr_scope.
Notation "s /: a" := (np.sdiv s a) (at level 40, left associativity) : arr_scope.
Notation "a :/ s" := (np.divs a s) (at level 40, left associativity) : arr_scope.
Notation "s +: a" := (np.sadd s a) (at level 50, left associativity) : arr_scope.
Notation "a :+ s" := (np.adds a s) (at level 50, left associativity) : arr_scope.
Notation "s -: a" := (np.ssub s a) (at level 50, left associativity) : arr_scope.
Notation "a :- s" := (np.subs a s) (at level 50, left associativity) : arr_scope.
Notation "a ^2" := (np.square a) (at level 1, format "a ^2") : arr_scope.

(** The vector a triple of arrays holds at index [i]. *)
Definition vec_at (v : np.ndarray * np.ndarray * np.ndarray) (i : nat)
  : fval * fval * fval :=
  let '(vx, vy, vz) := v in (nth i vx NaN, nth i vy NaN, nth i vz NaN).

(** [nx**2 + ny**2 + nz**2] *)
Definition norm2 (v : fval * fval * fval) : fval :=
  let '(vx, vy, vz) := v in (fsq vx + fsq vy + fsq vz)%fv.

(** The opposite vector. *)
Definition vneg (v : fval * fval * fval) : fval * fval * fval :=
  let '(vx, vy, vz) := v in (fneg vx, fneg vy, fneg vz).

(** The denominator [radius * sqrt(1 - (1 + k) * r2 / radius**2)] of the
    slope of the conic. *)
Definition conic_denom (radius k x y : fval) : fval :=
  (radius * fsqrt (1 - (1 + k) * (fsq x + fsq y) / fsq radius))%fv.

(** A point at which the slope of the conic is defined: the coordinates
    are finite, the square root is real and the denominator is not zero
    (it is infinite for a flat surface, [radius = inf]). *)
Definition regular (radius k x y : fval) : bool :=
  is_finite x && is_finite y &&
  match conic_denom radius k x y with
  | Fin d => negb (Reqb d 0)
  | PInf | NInf => true
  | NaN => false
  end.

(** [sqrt(a**2 + b**2 + 1)] on real numbers. *)
Definition mag_of (a b : R) : R := sqrt (a * a + b * b + 1).

(* ================================================================= *)
(** * Rays ([rays.x], [rays.y], [rays.z], [rays.L], [rays.M], [rays.N])

    The ray container handed to [StandardGeometry]: six parallel arrays,
    positions and direction cosines. *)

Module RealRays.

Record t : Type := mk {
  x : np.ndarray;
  y : np.ndarray;
  z : np.ndarray;
  L : np.ndarray;
  M : np.ndarray;
  N : np.ndarray
}.

(** The arrays of a batch have one common length. *)
Definition wf (n : nat) (rays : t) : Prop :=
  length (x rays) = n /\ length (y rays) = n /\ length (z rays) = n /\
  length (L rays) = n /\ length (M rays) = n /\ length (N rays) = n.

End RealRays.

(** One ray of a batch. *)
Module Ray.

Record t : Type := mk {
  x : fval; y : fval; z : fval;
  L : fval; M : fval; N : fval
}.

Definition at_ (rays : RealRays.t) (i : nat) : t :=
  {| x := nth i (RealRays.x rays) NaN;
     y := nth i (RealRays.y rays) NaN;
     z := nth i (RealRays.z rays) NaN;
     L := nth i (RealRays.L rays) NaN;
     M := nth i (RealRays.M rays) NaN;
     N := nth i (RealRays.N rays) NaN |}.

(** A batch as the list of its rays, and back. *)
Definition rows (rays : RealRays.t) : list t :=
  map (at_ rays) (seq 0 (length (RealRays.x rays))).

Definition cols (rs : list t) : RealRays.t :=
  {| RealRays.x := map x rs; RealRays.y := map y rs; RealRays.z := map z rs;
     RealRays.L := map L rs; RealRays.M := map M rs; RealRays.N := map N rs |}.

End Ray.

(* ================================================================= *)
(** * [StandardGeometry] (standard.py) *)

Module StandardGeometry.

Record t : Type := mk {
  radius : fval;
  k : fval
}.

Section Methods.
Variable self : t.
Local Open Scope arr_scope.

(** [sag(x, y)] *)
Definition sag (x y : np.ndarray) : np.ndarray :=
  let r2 := x^2 + y^2 in
  r2 / (radius self *:
          (1%fv +: np.sqrt (1%fv -: (1 + k self)%fv *: r2 :/ fsq (radius self)))).

(** [distance(rays)] *)
Definition distance (rays : RealRays.t) : np.ndarray :=
  let x := RealRays.x rays in
  let y := RealRays.y rays in
  let z := RealRays.z rays in
  let L := RealRays.L rays in
  let M := RealRays.M rays in
  let N := RealRays.N rays in
  let a := k self *: N^2 + L^2 + M^2 + N^2 in
  let b := (2 * k self)%fv *: N * z
           + 2%fv *: L * x
           + 2%fv *: M * y
           - 2%fv *: N :* radius self
           + 2%fv *: N * z in
  let c := k self *: z^2 - (2 * radius self)%fv *: z
           + x^2 + y^2 + z^2 in
  (* discriminant *)
  let d := b^2 - 4%fv *: a * c in
  (* two solutions for distance to conic *)
  let t1 := (- b + np.sqrt d) / (2%fv *: a) in
  let t2 := (- b - np.sqrt d) / (2%fv *: a) in
  (* intersections "behind" ray, set to inf to ignore *)
  let t1 := np.mask_set (np.lts t1 0%fv) PInf t1 in
  let t2 := np.mask_set (np.lts t2 0%fv) PInf t2 in
  (* find intersection points in z *)
  let z1 := z + t1 * N in
  let z2 := z + t2 * N in
  (* take intersection closest to z = 0 (i.e., vertex of geometry) *)
  let t := np.where_ (np.le (np.abs z1) (np.abs z2)) t1 t2 in
  (* handle case when a = 0 *)
  let a0 := np.eqs a 0%fv in
  np.mask_assign a0 (- np.select a0 c / np.select a0 b) t.

(** [surface_normal(rays)] *)
Definition surface_normal (rays : RealRays.t)
  : np.ndarray * np.ndarray * np.ndarray :=
  let x := RealRays.x rays in
  let y := RealRays.y rays in
  let r2 := x^2 + y^2 in
  let denom :=
    (- radius self)%fv *:
      np.sqrt (1%fv -: (1 + k self)%fv *: r2 :/ fsq (radius self)) in
  let dfdx := x / denom in
  let dfdy := y / denom in
  let dfdz := 1%fv in
  let mag := np.sqrt (dfdx^2 + dfdy^2 :+ fsq dfdz) in
  let nx := dfdx / mag in
  let ny := dfdy / mag in
  let nz := dfdz /: mag in
  (nx, ny, nz).

(** The same computations on one ray; [distance_rows] and its
    siblings below show that the array functions act ray by ray. *)
Definition sag1 (x y : fval) : fval :=
  let r2 := (fsq x + fsq y)%fv in
  (r2 / (radius self *
           (1 + fsqrt (1 - (1 + k self) * r2 / fsq (radius self)))))%fv.

Definition coef_a (r : Ray.t) : fval :=
  (k self * fsq (Ray.N r) + fsq (Ray.L r) + fsq (Ray.M r) + fsq (Ray.N r))%fv.

Definition coef_b (r : Ray.t) : fval :=
  (2 * k self * Ray.N r * Ray.z r
   + 2 * Ray.L r * Ray.x r
   + 2 * Ray.M r * Ray.y r
   - 2 * Ray.N r * radius self
   + 2 * Ray.N r * Ray.z r)%fv.

Definition coef_c (r : Ray.t) : fval :=
  (k self * fsq (Ray.z r) - 2 * radius self * Ray.z r
   + fsq (Ray.x r) + fsq (Ray.y r) + fsq (Ray.z r))%fv.

Definition discriminant (r : Ray.t) : fval :=
  (fsq (coef_b r) - 4 * coef_a r * coef_c r)%fv.

(** A root with the ones behind the ray replaced by [+inf]. *)
Definition forward (t : fval) : fval := if fltb t 0%fv then PInf else t.

Definition root1 (r : Ray.t) : fval :=
  forward ((- coef_b r + fsqrt (discriminant r)) / (2 * coef_a r))%fv.

Definition root2 (r : Ray.t) : fval :=
  forward ((- coef_b r - fsqrt (discriminant r)) / (2 * coef_a r))%fv.

(** [z + t * N]: the z coordinate reached after the distance [t]. *)
Definition z_after (r : Ray.t) (t : fval) : fval :=
  (Ray.z r + t * Ray.N r)%fv.

Definition distance1 (r : Ray.t) : fval :=
  let t := if fleb (fabs (z_after r (root1 r))) (fabs (z_after r (root2 r)))
           then root1 r else root2 r in
  if feqb (coef_a r) 0%fv then (- coef_c r / coef_b r)%fv else t.

Definition surface_normal1 (x y : fval) : fval * fval * fval :=
  let r2 := (fsq x + fsq y)%fv in
  let denom :=
    (- radius self * fsqrt (1 - (1 + k self) * r2 / fsq (radius self)))%fv in
  let dfdx := (x / denom)%fv in
  let dfdy := (y / denom)%fv in
  let dfdz := 1%fv in
  let mag := fsqrt (fsq dfdx + fsq dfdy + fsq dfdz)%fv in
  ((dfdx / mag)%fv, (dfdy / mag)%fv, (dfdz / mag)%fv).

End Methods.

End StandardGeometry.

(** [enumerate(l)] *)
Definition enumerate {A : Type} (l : list A) : list (nat * A) :=
  combine (seq 0 (length l)) l.

(* ================================================================= *)
(** * [EvenAsphere] (even_asphere.py) *)

Module EvenAsphere.

Record t : Type := mk {
  radius : fval;
  k : fval;
  tol : fval;
  max_iter : nat;
  c : list fval
}.

Section Methods.
Variable self : t.
Local Open Scope arr_scope.

(** [sag(x, y)] *)
Definition sag (x y : np.ndarray) : np.ndarray :=
  let r2 := x^2 + y^2 in
  let z :=
    r2 / (radius self *:
            (1%fv +: np.sqrt (1%fv -: (1 + k self)%fv *: r2 :/ fsq (radius self)))) in
  fold_left (fun z '(i, Ci) => z + Ci *: np.power r2 (i + 1))
            (enumerate (c self)) z.

(** [_surface_normal(x, y)] *)
Definition _surface_normal (x y : np.ndarray)
  : np.ndarray * np.ndarray * np.ndarray :=
  let r2 := x^2 + y^2 in
  let denom :=
    radius self *:
      np.sqrt (1%fv -: (1 + k self)%fv *: r2 :/ fsq (radius self)) in
  let dfdx := x / denom in
  let dfdy := y / denom in
  let '(dfdx, dfdy) :=
    fold_left
      (fun '(dfdx, dfdy) '(i, Ci) =>
         (dfdx + of_nat (2 * (i + 1)) *: x :* Ci * np.power r2 i,
          dfdy + of_nat (2 * (i + 1)) *: y :* Ci * np.power r2 i))
      (enumerate (c self)) (dfdx, dfdy) in
  let mag := np.sqrt (dfdx^2 + dfdy^2 :+ 1%fv) in
  let nx := dfdx / mag in
  let ny := dfdy / mag in
  let nz := Fin (-1) /: mag in
  (nx, ny, nz).

(** The same computations at one point. *)
Definition conic1 (x y : fval) : fval :=
  let r2 := (fsq x + fsq y)%fv in
  (r2 / (radius self *
           (1 + fsqrt (1 - (1 + k self) * r2 / fsq (radius self)))))%fv.

Definition sag1 (x y : fval) : fval :=
  let r2 := (fsq x + fsq y)%fv in
  fold_left (fun z '(i, Ci) => (z + Ci * fpow r2 (i + 1))%fv)
            (enumerate (c self)) (conic1 x y).

Definition gradient1 (x y : fval) : fval * fval :=
  let r2 := (fsq x + fsq y)%fv in
  let denom :=
    (radius self * fsqrt (1 - (1 + k self) * r2 / fsq (radius self)))%fv in
  fold_left
    (fun '(dfdx, dfdy) '(i, Ci) =>
       ((dfdx + of_nat (2 * (i + 1)) * x * Ci * fpow r2 i)%fv,
        (dfdy + of_nat (2 * (i + 1)) * y * Ci * fpow r2 i)%fv))
    (enumerate (c self)) ((x / denom)%fv, (y / denom)%fv).

Definition _surface_normal1 (x y : fval) : fval * fval * fval :=
  let '(dfdx, dfdy) := gradient1 x y in
  let mag := fsqrt (fsq dfdx + fsq dfdy + 1)%fv in
  ((dfdx / mag)%fv, (dfdy / mag)%fv, (Fin (-1) / mag)%fv).

End Methods.

End EvenAsphere.

(* ================================================================= *)
(** * [ChebyshevPolynomialGeometry] (chebyshev.py) *)

Module ChebyshevPolynomialGeometry.

(** What the constructor accepts as [coefficients]: a number, a list or
    a list of lists. *)
Inductive coefficients : Type :=
| Coef0 (v : fval)
| Coef1 (l : list fval)
| Coef2 (m : list (list fval)).

(** [np.atleast_2d] *)
Definition atleast_2d (cs : coefficients) : list (list fval) :=
  match cs with
  | Coef0 v => [[v]]
  | Coef1 l => [l]
  | Coef2 m => m
  end.

Record t : Type := mk {
  radius : fval;
  k : fval;
  tol : fval;
  max_iter : nat;
  c : list (list fval);
  norm_x : fval;
  norm_y : fval
}.

(** [__init__] *)
Definition init (radius conic tol : fval) (max_iter : nat)
           (cs : coefficients) (norm_x norm_y : fval) : t :=
  {| radius := radius; k := conic; tol := tol; max_iter := max_iter;
     c := atleast_2d cs; norm_x := norm_x; norm_y := norm_y |}.

(** [c[i, j]] *)
Definition entry (c : list (list fval)) (i j : nat) : fval :=
  nth j (nth i c []) 0%fv.

(** [np.argwhere(c != 0)]: the index pairs of the entries that differ
    from zero, row by row. *)
Definition nonzero_cols (row : list fval) : list nat :=
  map fst (filter (fun '(_, v) => fneb v 0%fv) (enumerate row)).

Definition argwhere_ne0 (c : list (list fval)) : list (nat * nat) :=
  flat_map (fun '(i, row) => map (fun j => (i, j)) (nonzero_cols row))
           (enumerate c).

(** Two coefficient arrays with the same entries different from zero: at
    every index where one of them has such an entry, the other has the
    same entry (an index outside of an array counts as zero, so the
    arrays may differ by rows and columns of zeros). *)
Definition same_nonzero (c1 c2 : list (list fval)) : Prop :=
  forall i j,
    fneb (entry c1 i j) 0%fv = true \/ fneb (entry c2 i j) 0%fv = true ->
    entry c1 i j = entry c2 i j.

(** The surface with another coefficient array. *)
Definition with_c (g : t) (c' : list (list fval)) : t :=
  {| radius := radius g; k := k g; tol := tol g; max_iter := max_iter g;
     c := c'; norm_x := norm_x g; norm_y := norm_y g |}.

Section Methods.
Variable self : t.
Local Open Scope arr_scope.

(** [_chebyshev(n, x)] *)
Definition _chebyshev (n : nat) (x : np.ndarray) : np.ndarray :=
  np.cos (of_nat n *: np.arccos x).

(** [_chebyshev_derivative(n, x)] *)
Definition _chebyshev_derivative (n : nat) (x : np.ndarray) : np.ndarray :=
  of_nat n *: np.sin (of_nat n *: np.arccos x) / np.sqrt (1%fv -: x^2).

(** [np.any(np.abs(x_norm) > 1) or np.any(np.abs(y_norm) > 1)] *)
Definition out_of_domain (x_norm y_norm : np.ndarray) : bool :=
  np.any (np.gts (np.abs x_norm) 1%fv)
  || np.any (np.gts (np.abs y_norm) 1%fv).

(** [sag(x, y)] *)
Definition sag (x y : np.ndarray) : result np.ndarray :=
  let x_norm := x :/ norm_x self in
  let y_norm := y :/ norm_y self in
  if out_of_domain x_norm y_norm then Raise ValueError
  else
    let r2 := x^2 + y^2 in
    let z :=
      r2 / (radius self *:
              (1%fv +: np.sqrt (1%fv -: (1 + k self)%fv *: r2 :/ fsq (radius self)))) in
    let non_zero_indices := argwhere_ne0 (c self) in
    Return
      (fold_left
         (fun z '(i, j) =>
            z + entry (c self) i j *: _chebyshev i x_norm * _chebyshev j y_norm)
         non_zero_indices z).

(** [_surface_normal(x, y)] *)
Definition _surface_normal (x y : np.ndarray)
  : result (np.ndarray * np.ndarray * np.ndarray) :=
  let x_norm := x :/ norm_x self in
  let y_norm := y :/ norm_y self in
  if out_of_domain x_norm y_norm then Raise ValueError
  else
    let r2 := x^2 + y^2 in
    let denom :=
      radius self *:
        np.sqrt (1%fv -: (1 + k self)%fv *: r2 :/ fsq (radius self)) in
    let dzdx := x / denom in
    let dzdy := y / denom in
    let non_zero_indices := argwhere_ne0 (c self) in
    let '(dzdx, dzdy) :=
      fold_left
        (fun '(dzdx, dzdy) '(i, j) =>
           (dzdx + _chebyshev_derivative i x_norm :* entry (c self) i j
                   * _chebyshev j y_norm,
            dzdy + _chebyshev_derivative j y_norm :* entry (c self) i j
                   * _chebyshev i x_norm))
        non_zero_indices (dzdx, dzdy) in
    let norm := np.sqrt (dzdx^2 + dzdy^2 :+ 1%fv) in
    let nx := - dzdx / norm in
    let ny := - dzdy / norm in
    let nz := 1%fv /: norm in
    Return (nx, ny, nz).

(** The same computations at one point, after the domain check. *)
Definition T (n : nat) (u : fval) : fval :=
  fcos (of_nat n * farccos u)%fv.

Definition T' (n : nat) (u : fval) : fval :=
  (of_nat n * fsin (of_nat n * farccos u) / fsqrt (1 - fsq u))%fv.

Definition conic1 (x y : fval) : fval :=
  let r2 := (fsq x + fsq y)%fv in
  (r2 / (radius self *
           (1 + fsqrt (1 - (1 + k self) * r2 / fsq (radius self)))))%fv.

Definition sag1 (x y : fval) : fval :=
  let x_norm := (x / norm_x self)%fv in
  let y_norm := (y / norm_y self)%fv in
  fold_left
    (fun z '(i, j) =>
       (z + entry (c self) i j * T i x_norm * T j y_norm)%fv)
    (argwhere_ne0 (c self)) (conic1 x y).

Definition gradient1 (x y : fval) : fval * fval :=
  let x_norm := (x / norm_x self)%fv in
  let y_norm := (y / norm_y self)%fv in
  let r2 := (fsq x + fsq y)%fv in
  let denom :=
    (radius self * fsqrt (1 - (1 + k self) * r2 / fsq (radius self)))%fv in
  fold_left
    (fun '(dzdx, dzdy) '(i, j) =>
       ((dzdx + T' i x_norm * entry (c self) i j * T j y_norm)%fv,
        (dzdy + T' j y_norm * entry (c self) i j * T i x_norm)%fv))
    (argwhere_ne0 (c self)) ((x / denom)%fv, (y / denom)%fv).

Definition _surface_normal1 (x y : fval) : fval * fval * fval :=
  let '(dzdx, dzdy) := gradient1 x y in
  let norm := fsqrt (fsq dzdx + fsq dzdy + 1)%fv in
  ((- dzdx / norm)%fv, (- dzdy / norm)%fv, (1 / norm)%fv).

(** The domain test on one pair of coordinates. *)
Definition out_of_domain1 (x y : fval) : bool :=
  fgtb (fabs (x / norm_x self)%fv) 1%fv
  || fgtb (fabs (y / norm_y self)%fv) 1%fv.

(** Normalised coordinates strictly inside of [-1, 1], where the
    derivative [n * sin(n * arccos(u)) / sqrt(1 - u**2)] is defined. *)
Definition strictly_inside (x y : fval) : bool :=
  fltb (fabs (x / norm_x self)%fv) 1%fv
  && fltb (fabs (y / norm_y self)%fv) 1%fv.

End Methods.

End ChebyshevPolynomialGeometry.

(* ================================================================= *)
(** * The object store

    [ParaxialRays.propagate] updates arrays in place, and the fields of a
    ray object are references to arrays.  The store maps a reference to
    the array it holds; a computation threads the store and may raise. *)

Module Store.

Definition loc : Type := nat.
Definition t : Type := list np.ndarray.

Definition lookup (h : t) (l : loc) : np.ndarray := nth l h [].

Fixpoint update (h : t) (l : loc) (a : np.ndarray) : t :=
  match h, l with
  | [], _ => []
  | _ :: h', O => a :: h'
  | v :: h', S l' => v :: update h' l' a
  end.

Definition M (A : Type) : Type := t -> result (A * t).

Definition ret {A : Type} (a : A) : M A := fun h => Return (a, h).

Definition bind {A B : Type} (m : M A) (f : A -> M B) : M B :=
  fun h => match m h with
           | Return (a, h') => f a h'
           | Raise e => Raise e
           end.

Definition lift {A : Type} (r : result A) : M A :=
  fun h => match r with
           | Return a => Return (a, h)
           | Raise e => Raise e
           end.

(** A new array object. *)
Definition alloc (a : np.ndarray) : M loc :=
  fun h => Return (length h, h ++ [a]).

Definition read (l : loc) : M np.ndarray :=
  fun h => Return (lookup h l, h).

Definition write (l : loc) (a : np.ndarray) : M unit :=
  fun h => Return (tt, update h l a).

End Store.

Declare Scope store_scope.
Delimit Scope store_scope with store.
Notation "x <- m ;; f" := (Store.bind m (fun x => f))
  (at level 61, m at next level, right associativity) : store_scope.
Notation "m ;; f" := (Store.bind m (fun _ => f))
  (at level 61, right associativity) : store_scope.

(* ================================================================= *)
(** * [ParaxialRays] (paraxial_rays.py) *)

Module ParaxialRays.

(** The fields of a ray object: references to arrays. *)
Record t : Type := mk {
  y : Store.loc;
  z : Store.loc;
  u : Store.loc;
  x : Store.loc;
  i : Store.loc;
  w : Store.loc
}.

Section Methods.
(** [BaseRays._process_input] is not among the sources: it is a
    parameter here, taken to build a new float array from what the
    caller passes (a number or an array). *)
Variable input : Type.
Variable _process_input : input -> np.ndarray.

Local Open Scope store_scope.
Local Open Scope arr_scope.

(** [__init__(y, u, z, wavelength)] *)
Definition __init__ (y u z wavelength : input) : Store.M t :=
  self_y <- Store.alloc (_process_input y) ;;
  self_z <- Store.alloc (_process_input z) ;;
  self_u <- Store.alloc (_process_input u) ;;
  ay <- Store.read self_y ;;
  self_x <- Store.alloc (np.zeros_like ay) ;;
  ay <- Store.read self_y ;;
  self_i <- Store.alloc (np.ones_like ay) ;;
  self_w <- Store.alloc (_process_input wavelength) ;;
  Store.ret {| y := self_y; z := self_z; u := self_u;
               x := self_x; i := self_i; w := self_w |}.

End Methods.

Local Open Scope store_scope.
Local Open Scope arr_scope.

(** [propagate(t)] *)
Definition propagate (self : t) (t : fval) : Store.M unit :=
  (* self.z += t *)
  az <- Store.read (z self) ;;
  Store.write (z self) (az :+ t) ;;
  (* self.y += t * self.u *)
  ay <- Store.read (y self) ;;
  au <- Store.read (u self) ;;
  ay <- Store.lift (np.iadd ay (t *: au)) ;;
  Store.write (y self) ay.

(** The fields are six different objects of the store. *)
Definition wf (self : t) (h : Store.t) : Prop :=
  NoDup [y self; z self; u self; x self; i self; w self] /\
  Forall (fun l => (l < length h)%nat)
         [y self; z self; u self; x self; i self; w self].

(** [x] is all zeros and [i] is all ones, both as long as [y]. *)
Definition inv (self : t) (h : Store.t) : Prop :=
  Store.lookup h (x self) = repeat (Fin 0) (length (Store.lookup h (y self))) /\
  Store.lookup h (i self) = repeat (Fin 1) (length (Store.lookup h (y self))).

(** The stores a ray object can be in: after its construction, and after
    any number of calls of [propagate] that returned. *)
Inductive reachable (input : Type) (_process_input : input -> np.ndarray)
          (self : t) : Store.t -> Prop :=
| reach_init (y u z wavelength : input) (h0 h : Store.t) :
    __init__ input _process_input y u z wavelength h0 = Return (self, h) ->
    reachable input _process_input self h
| reach_propagate (t : fval) (h h' : Store.t) :
    reachable input _process_input self h ->
    propagate self t h = Return (tt, h') ->
    reachable input _process_input self h'.

End ParaxialRays.

(* ================================================================= *)
(** * Concrete surfaces and rays used in the examples below *)

(** A batch of one ray at [(x, y, z)] with direction [(L, M, N)]. *)
Definition one_ray (x y z L M N : R) : RealRays.t :=
  {| RealRays.x := [Fin x]; RealRays.y := [Fin y]; RealRays.z := [Fin z];
     RealRays.L := [Fin L]; RealRays.M := [Fin M]; RealRays.N := [Fin N] |}.

(** The sphere [radius = 100, conic = 0]. *)
Definition sphere100 : StandardGeometry.t :=
  {| StandardGeometry.radius := Fin 100; StandardGeometry.k := Fin 0 |}.

(** The sphere [radius = 1, conic = 0]. *)
Definition unit_sphere : StandardGeometry.t :=
  {| StandardGeometry.radius := Fin 1; StandardGeometry.k := Fin 0 |}.

(** The paraboloid [radius = 1, conic = -1]. *)
Definition paraboloid : StandardGeometry.t :=
  {| StandardGeometry.radius := Fin 1; StandardGeometry.k := Fin (-1) |}.

(** [EvenAsphere(cs, radius=100)]: no coefficients, defaults elsewhere. *)
Definition asphere100 (cs : list fval) : EvenAsphere.t :=
  {| EvenAsphere.radius := Fin 100; EvenAsphere.k := Fin 0;
     EvenAsphere.tol := Fin (/ 10000000000); EvenAsphere.max_iter := 100;
     EvenAsphere.c := cs |}.

(** [EvenAsphere(radius=50, conic=-1, coefficients=[1e-5])] *)
Definition asphere50 : EvenAsphere.t :=
  {| EvenAsphere.radius := Fin 50; EvenAsphere.k := Fin (-1);
     EvenAsphere.tol := Fin (/ 10000000000); EvenAsphere.max_iter := 100;
     EvenAsphere.c := [Fin (/ 100000)] |}.

(** [ChebyshevPolynomialGeometry(radius=100, coefficients=cs, norm_x=10,
    norm_y=10)] *)
Definition chebyshev100 (cs : ChebyshevPolynomialGeometry.coefficients)
  : ChebyshevPolynomialGeometry.t :=
  ChebyshevPolynomialGeometry.init (Fin 100) (Fin 0) (Fin (/ 10000000000)) 100
    cs (Fin 10) (Fin 10).

(** Two rays along the axis from [z = -50]: the first at [x = 500] passes
    beside the sphere of radius 100, the second is on the axis. *)
Definition two_rays : RealRays.t :=
  Ray.cols [Ray.mk (Fin 500) (Fin 0) (Fin (-50)) (Fin 0) (Fin 0) (Fin 1);
            Ray.mk (Fin 0) (Fin 0) (Fin (-50)) (Fin 0) (Fin 0) (Fin 1)].

(** A paraxial batch of two rays, [y = (1, 2)], [u = (0.1, 0)], [z = (0, 0)],
    built in the empty store: the object and the store after
    [ParaxialRays(y, u, z, 0.55)]. *)
Definition paraxial_obj : ParaxialRays.t :=
  {| ParaxialRays.y := 0%nat; ParaxialRays.z := 1%nat; ParaxialRays.u := 2%nat;
     ParaxialRays.x := 3%nat; ParaxialRays.i := 4%nat; ParaxialRays.w := 5%nat |}.

Definition paraxial_store : Store.t :=
  [[Fin 1; Fin 2]; [Fin 0; Fin 0]; [Fin (/ 10); Fin 0];
   [Fin 0; Fin 0]; [Fin 1; Fin 1]; [Fin (11 / 20)]].

(** The store after [propagate(3)]. *)
Definition paraxial_store_3 : Store.t :=
  [[Fin (1 + 3 * / 10); Fin (2 + 3 * 0)]; [Fin (0 + 3); Fin (0 + 3)];
   [Fin (/ 10); Fin 0]; [Fin 0; Fin 0]; [Fin 1; Fin 1]; [Fin (11 / 20)]].

(* ================================================================= *)
(** * The conic surface *)

(** The conic surface in the coordinates of its vertex:
    [k * z**2 + x**2 + y**2 - 2 * radius * z + z**2 = 0], the equation
    whose intersection with a ray [distance] solves. *)
Definition quadric (K R0 x y z : R) : R :=
  K * (z * z) + x * x + y * y - 2 * R0 * z + z * z.

(* ================================================================= *)
(** * Facts about values *)

Lemma Rltb_true a b : Rltb a b = true <-> a < b.
Proof. unfold Rltb; destruct (Rlt_dec a b); split; intros; auto; discriminate. Qed.

Lemma Rltb_false a b : Rltb a b = false <-> b <= a.
Proof.
  unfold Rltb; destruct (Rlt_dec a b); split; intros; auto; try discriminate; lra.
Qed.

Lemma Rleb_true a b : Rleb a b = true <-> a <= b.
Proof. unfold Rleb; destruct (Rle_dec a b); split; intros; auto; discriminate. Qed.

Lemma Rleb_false a b : Rleb a b = false <-> b < a.
Proof.
  unfold Rleb; destruct (Rle_dec a b); split; intros; auto; try discriminate; lra.
Qed.

Lemma Reqb_true a b : Reqb a b = true <-> a = b.
Proof. unfold Reqb; destruct (Req_dec_T a b); split; intros; auto; discriminate. Qed.

Lemma Reqb_false a b : Reqb a b = false <-> a <> b.
Proof.
  unfold Reqb; destruct (Req_dec_T a b); split; intros; auto;
    try discriminate; contradiction.
Qed.

(** Decide every real comparison in sight and drop the impossible cases. *)
Ltac rcases :=
  unfold Rltb, Rleb, Reqb in *;
  repeat match goal with
    | |- context [Rlt_dec ?a ?b] => destruct (Rlt_dec a b)
    | |- context [Rle_dec ?a ?b] => destruct (Rle_dec a b)
    | |- context [Req_dec_T ?a ?b] => destruct (Req_dec_T a b)
    | H : context [Rlt_dec ?a ?b] |- _ => destruct (Rlt_dec a b)
    | H : context [Rle_dec ?a ?b] |- _ => destruct (Rle_dec a b)
    | H : context [Req_dec_T ?a ?b] |- _ => destruct (Req_dec_T a b)
    end;
  simpl in *; try discriminate; try congruence; try lra.

Lemma fdiv_Fin a b : b <> 0 -> (Fin a / Fin b)%fv = Fin (a / b).
Proof. intros; simpl; rcases. Qed.

Lemma fsqrt_Fin a : 0 <= a -> fsqrt (Fin a) = Fin (sqrt a).
Proof. intros; simpl; rcases. Qed.

Lemma fsqrt_neg v : fltb v 0%fv = true -> fsqrt v = NaN.
Proof. destruct v; simpl; intros; rcases. Qed.

Lemma fdiv_0_0 a b : a = 0 -> b = 0 -> (Fin a / Fin b)%fv = NaN.
Proof. intros -> ->. simpl. rcases. Qed.

Lemma fadd_NaN_r a : (a + NaN)%fv = NaN.
Proof. destruct a; reflexivity. Qed.


Lemma fdiv_NaN_r a : (a / NaN)%fv = NaN.
Proof. destruct a; reflexivity. Qed.



Lemma fltb_0_finite r : fltb (Fin r) 0%fv = false -> 0 <= r.
Proof. simpl; intros H; apply Rltb_false in H; exact H. Qed.

(* ================================================================= *)
(** * Facts about arrays: elementwise operations act entry by entry *)

Section Fusion.
Context {I A B C D : Type}.
Variable l : list I.

Lemma zipWith_map (f : A -> B -> C) (g : I -> A) (h : I -> B) :
  np.zipWith f (map g l) (map h l) = map (fun i => f (g i) (h i)) l.
Proof. induction l; simpl; [reflexivity | now f_equal]. Qed.

Lemma zipWith3_map (f : A -> B -> C -> D) (g : I -> A) (h : I -> B) (e : I -> C) :
  np.zipWith3 f (map g l) (map h l) (map e l)
  = map (fun i => f (g i) (h i) (e i)) l.
Proof. induction l; simpl; [reflexivity | now f_equal]. Qed.

Lemma select_map (p : I -> bool) (g : I -> A) :
  np.select (map p l) (map g l) = map g (filter p l).
Proof.
  induction l as [|i l' IH]; simpl; [reflexivity|].
  destruct (p i); simpl; now rewrite IH.
Qed.

Lemma mask_assign_map (p : I -> bool) (h g : I -> fval) :
  np.mask_assign (map p l) (map h (filter p l)) (map g l)
  = map (fun i => if p i then h i else g i) l.
Proof.
  induction l as [|i l' IH]; simpl; [reflexivity|].
  destruct (p i); simpl; now rewrite IH.
Qed.
End Fusion.

Lemma as_map_seq {A : Type} (l : list A) (d : A) :
  l = map (fun i => nth i l d) (seq 0 (length l)).
Proof.
  induction l as [|a l IH]; simpl; [reflexivity|].
  f_equal. rewrite <- seq_shift, map_map. exact IH.
Qed.

Lemma nth_map_seq {A : Type} (f : nat -> A) (n i : nat) (d : A) :
  (i < n)%nat -> nth i (map f (seq 0 n)) d = f i.
Proof.
  intros Hi.
  rewrite (nth_indep _ d (f 0%nat)) by now rewrite length_map, length_seq.
  rewrite map_nth, seq_nth by assumption. reflexivity.
Qed.

(** Bring a computation on arrays to a single [map]. *)
Ltac fuse :=
  unfold np.add, np.sub, np.mul, np.div, np.le, np.sadd, np.ssub, np.smul,
    np.sdiv, np.adds, np.subs, np.muls, np.divs, np.lts, np.gts, np.eqs,
    np.neg, np.abs, np.sqrt, np.cos, np.sin, np.arccos, np.square, np.power,
    np.where_, np.mask_set;
  repeat first
    [ rewrite map_map
    | rewrite zipWith_map
    | rewrite zipWith3_map
    | rewrite select_map
    | rewrite mask_assign_map ].

Lemma wf_cols_rows n rays : RealRays.wf n rays -> rays = Ray.cols (Ray.rows rays).
Proof.
  destruct rays as [x y z L M N]; unfold RealRays.wf, Ray.cols, Ray.rows; simpl.
  intros (Hx & Hy & Hz & HL & HM & HN).
  rewrite !map_map; simpl.
  f_equal.
  - apply as_map_seq.
  - rewrite Hx, <- Hy; apply as_map_seq.
  - rewrite Hx, <- Hz; apply as_map_seq.
  - rewrite Hx, <- HL; apply as_map_seq.
  - rewrite Hx, <- HM; apply as_map_seq.
  - rewrite Hx, <- HN; apply as_map_seq.
Qed.

Lemma distance_cols g rs :
  StandardGeometry.distance g (Ray.cols rs) = map (StandardGeometry.distance1 g) rs.
Proof.
  unfold StandardGeometry.distance, Ray.cols; cbv zeta;
    cbn [RealRays.x RealRays.y RealRays.z RealRays.L RealRays.M RealRays.N].
  fuse.
  apply map_ext; intros r.
  unfold StandardGeometry.distance1, StandardGeometry.root1,
    StandardGeometry.root2, StandardGeometry.forward, StandardGeometry.z_after,
    StandardGeometry.discriminant, StandardGeometry.coef_a,
    StandardGeometry.coef_b, StandardGeometry.coef_c.
  reflexivity.
Qed.

Lemma distance_rows g n rays :
  RealRays.wf n rays ->
  StandardGeometry.distance g rays
  = map (StandardGeometry.distance1 g) (Ray.rows rays).
Proof.
  intros Hwf. rewrite (wf_cols_rows n rays Hwf) at 1. apply distance_cols.
Qed.

Lemma distance_nth g n rays i :
  RealRays.wf n rays -> (i < n)%nat ->
  nth i (StandardGeometry.distance g rays) NaN
  = StandardGeometry.distance1 g (Ray.at_ rays i).
Proof.
  intros Hwf Hi. rewrite (distance_rows g n rays Hwf). unfold Ray.rows.
  destruct Hwf as (Hx & _). rewrite Hx.
  rewrite map_map.
  exact (nth_map_seq
           (fun j => StandardGeometry.distance1 g (Ray.at_ rays j)) n i NaN Hi).
Qed.

Lemma as_map_seq_len {A : Type} (l : list A) (d : A) (n : nat) :
  length l = n -> l = map (fun i => nth i l d) (seq 0 n).
Proof. intros <-. apply as_map_seq. Qed.

(** Two arrays of one length as maps over their common indices. *)
Ltac by_index x y n Hx Hy :=
  rewrite (as_map_seq_len x NaN n Hx), (as_map_seq_len y NaN n Hy).

Section FoldFusion.
Context {I E : Type}.
Variable l : list I.

Lemma fold_left_map (step : np.ndarray -> E -> np.ndarray)
      (step1 : I -> fval -> E -> fval) (idx : list E) :
  (forall e g, step (map g l) e = map (fun i => step1 i (g i) e) l) ->
  forall g,
    fold_left step idx (map g l)
    = map (fun i => fold_left (step1 i) idx (g i)) l.
Proof.
  intros Hstep. induction idx as [|e idx' IH]; intros g; simpl.
  - reflexivity.
  - rewrite Hstep, IH. reflexivity.
Qed.

Lemma fold_left_map2
      (step : np.ndarray * np.ndarray -> E -> np.ndarray * np.ndarray)
      (step1 : I -> fval * fval -> E -> fval * fval) (idx : list E) :
  (forall e g h,
      step (map g l, map h l) e
      = (map (fun i => fst (step1 i (g i, h i) e)) l,
         map (fun i => snd (step1 i (g i, h i) e)) l)) ->
  forall g h,
    fold_left step idx (map g l, map h l)
    = (map (fun i => fst (fold_left (step1 i) idx (g i, h i))) l,
       map (fun i => snd (fold_left (step1 i) idx (g i, h i))) l).
Proof.
  intros Hstep. induction idx as [|e idx' IH]; intros g h; simpl.
  - reflexivity.
  - rewrite Hstep, IH.
    f_equal; apply map_ext; intros i; now rewrite <- surjective_pairing.
Qed.
End FoldFusion.

(** ** [StandardGeometry.sag] and [surface_normal], entry by entry *)

Lemma Standard_sag_map {I : Type} g (l : list I) (fx fy : I -> fval) :
  StandardGeometry.sag g (map fx l) (map fy l)
  = map (fun i => StandardGeometry.sag1 g (fx i) (fy i)) l.
Proof.
  unfold StandardGeometry.sag; cbv zeta. fuse.
  apply map_ext; intros i. reflexivity.
Qed.

Lemma Standard_sag_nth g x y n i :
  length x = n -> length y = n -> (i < n)%nat ->
  nth i (StandardGeometry.sag g x y) NaN
  = StandardGeometry.sag1 g (nth i x NaN) (nth i y NaN).
Proof.
  intros Hx Hy Hi. by_index x y n Hx Hy.
  rewrite Standard_sag_map, nth_map_seq by assumption.
  now rewrite !nth_map_seq.
Qed.

Lemma vec_at_map (f : nat -> fval * fval * fval) n i :
  (i < n)%nat ->
  vec_at (map (fun j => fst (fst (f j))) (seq 0 n),
          map (fun j => snd (fst (f j))) (seq 0 n),
          map (fun j => snd (f j)) (seq 0 n)) i = f i.
Proof.
  intros Hi. unfold vec_at.
  rewrite (nth_map_seq (fun j => fst (fst (f j)))),
    (nth_map_seq (fun j => snd (fst (f j)))),
    (nth_map_seq (fun j => snd (f j))) by assumption.
  destruct (f i) as [[a b] c]. reflexivity.
Qed.

Lemma Standard_normal_map {I : Type} g (l : list I) (fx fy : I -> fval) rays :
  RealRays.x rays = map fx l -> RealRays.y rays = map fy l ->
  StandardGeometry.surface_normal g rays
  = (map (fun i => fst (fst (StandardGeometry.surface_normal1 g (fx i) (fy i)))) l,
     map (fun i => snd (fst (StandardGeometry.surface_normal1 g (fx i) (fy i)))) l,
     map (fun i => snd (StandardGeometry.surface_normal1 g (fx i) (fy i))) l).
Proof.
  intros Hx Hy.
  unfold StandardGeometry.surface_normal; cbv zeta. rewrite Hx, Hy.
  fuse. reflexivity.
Qed.

Lemma Standard_normal_nth g rays n i :
  length (RealRays.x rays) = n -> length (RealRays.y rays) = n -> (i < n)%nat ->
  vec_at (StandardGeometry.surface_normal g rays) i
  = StandardGeometry.surface_normal1 g
      (nth i (RealRays.x rays) NaN) (nth i (RealRays.y rays) NaN).
Proof.
  intros Hx Hy Hi.
  rewrite (Standard_normal_map g (seq 0 n)
             (fun j => nth j (RealRays.x rays) NaN)
             (fun j => nth j (RealRays.y rays) NaN))
    by (now apply as_map_seq_len).
  exact (vec_at_map
           (fun j => StandardGeometry.surface_normal1 g
                       (nth j (RealRays.x rays) NaN) (nth j (RealRays.y rays) NaN))
           n i Hi).
Qed.

(** ** [EvenAsphere], entry by entry *)

Lemma Even_sag_map {I : Type} g (l : list I) (fx fy : I -> fval) :
  EvenAsphere.sag g (map fx l) (map fy l)
  = map (fun i => EvenAsphere.sag1 g (fx i) (fy i)) l.
Proof.
  unfold EvenAsphere.sag, EvenAsphere.sag1; cbv zeta.
  assert (Hr2 : (np.square (map fx l) + np.square (map fy l))%A
                = map (fun i => (fsq (fx i) + fsq (fy i))%fv) l) by (fuse; reflexivity).
  rewrite Hr2. fuse.
  rewrite (fold_left_map l _
             (fun i z '(j, Ci) => (z + Ci * fpow (fsq (fx i) + fsq (fy i)) (j + 1))%fv)).
  - apply map_ext; intros i. reflexivity.
  - intros [j Ci] g0. fuse. reflexivity.
Qed.

Lemma Even_sag_nth g x y n i :
  length x = n -> length y = n -> (i < n)%nat ->
  nth i (EvenAsphere.sag g x y) NaN
  = EvenAsphere.sag1 g (nth i x NaN) (nth i y NaN).
Proof.
  intros Hx Hy Hi. by_index x y n Hx Hy.
  rewrite Even_sag_map, nth_map_seq by assumption.
  now rewrite !nth_map_seq.
Qed.

Lemma Even_normal_map {I : Type} g (l : list I) (fx fy : I -> fval) :
  EvenAsphere._surface_normal g (map fx l) (map fy l)
  = (map (fun i => fst (fst (EvenAsphere._surface_normal1 g (fx i) (fy i)))) l,
     map (fun i => snd (fst (EvenAsphere._surface_normal1 g (fx i) (fy i)))) l,
     map (fun i => snd (EvenAsphere._surface_normal1 g (fx i) (fy i))) l).
Proof.
  unfold EvenAsphere._surface_normal, EvenAsphere._surface_normal1,
    EvenAsphere.gradient1; cbv zeta.
  assert (Hr2 : (np.square (map fx l) + np.square (map fy l))%A
                = map (fun i => (fsq (fx i) + fsq (fy i))%fv) l) by (fuse; reflexivity).
  rewrite Hr2. fuse.
  rewrite (fold_left_map2 l _
             (fun i '(dfdx, dfdy) '(j, Ci) =>
                ((dfdx + of_nat (2 * (j + 1)) * fx i * Ci
                         * fpow (fsq (fx i) + fsq (fy i)) j)%fv,
                 (dfdy + of_nat (2 * (j + 1)) * fy i * Ci
                         * fpow (fsq (fx i) + fsq (fy i)) j)%fv))).
  - fuse. f_equal; [f_equal|]; apply map_ext; intros i;
      match goal with
      | |- context [fold_left ?f ?idx ?a] => destruct (fold_left f idx a)
      end; reflexivity.
  - intros [j Ci] g0 h0. fuse. reflexivity.
Qed.

Lemma Even_normal_nth g x y n i :
  length x = n -> length y = n -> (i < n)%nat ->
  vec_at (EvenAsphere._surface_normal g x y) i
  = EvenAsphere._surface_normal1 g (nth i x NaN) (nth i y NaN).
Proof.
  intros Hx Hy Hi.
  pose proof (Even_normal_map g (seq 0 n)
                (fun j => nth j x NaN) (fun j => nth j y NaN)) as H.
  rewrite <- (as_map_seq_len x NaN n Hx), <- (as_map_seq_len y NaN n Hy) in H.
  rewrite H.
  exact (vec_at_map
           (fun j => EvenAsphere._surface_normal1 g (nth j x NaN) (nth j y NaN))
           n i Hi).
Qed.

(** ** [ChebyshevPolynomialGeometry], entry by entry *)

Lemma any_map {I : Type} (p : I -> bool) (l : list I) :
  np.any (map p l) = existsb p l.
Proof. unfold np.any. induction l; simpl; [reflexivity | now rewrite IHl]. Qed.

Lemma existsb_orb {I : Type} (p q : I -> bool) (l : list I) :
  existsb p l || existsb q l = existsb (fun i => p i || q i) l.
Proof.
  induction l as [|i l' IH]; simpl; [reflexivity|].
  rewrite <- IH.
  destruct (p i), (q i), (existsb p l'), (existsb q l'); reflexivity.
Qed.

Lemma Cheb_out_of_domain_map {I : Type} g (l : list I) (fx fy : I -> fval) :
  ChebyshevPolynomialGeometry.out_of_domain
    (np.divs (map fx l) (ChebyshevPolynomialGeometry.norm_x g))
    (np.divs (map fy l) (ChebyshevPolynomialGeometry.norm_y g))
  = existsb (fun i => ChebyshevPolynomialGeometry.out_of_domain1 g (fx i) (fy i)) l.
Proof.
  unfold ChebyshevPolynomialGeometry.out_of_domain,
    ChebyshevPolynomialGeometry.out_of_domain1.
  fuse. rewrite !any_map. apply existsb_orb.
Qed.

Lemma Cheb_sag_map {I : Type} g (l : list I) (fx fy : I -> fval) :
  ChebyshevPolynomialGeometry.sag g (map fx l) (map fy l)
  = if existsb (fun i => ChebyshevPolynomialGeometry.out_of_domain1 g (fx i) (fy i)) l
    then Raise ValueError
    else Return (map (fun i => ChebyshevPolynomialGeometry.sag1 g (fx i) (fy i)) l).
Proof.
  unfold ChebyshevPolynomialGeometry.sag; cbv zeta.
  rewrite Cheb_out_of_domain_map.
  destruct (existsb _ l); [reflexivity|]. f_equal.
  unfold ChebyshevPolynomialGeometry.sag1, ChebyshevPolynomialGeometry.conic1,
    ChebyshevPolynomialGeometry._chebyshev, ChebyshevPolynomialGeometry.T;
    cbv zeta.
  fuse.
  rewrite (fold_left_map l _
             (fun i z '(a, b) =>
                (z + ChebyshevPolynomialGeometry.entry
                       (ChebyshevPolynomialGeometry.c g) a b
                     * fcos (of_nat a
                             * farccos (fx i / ChebyshevPolynomialGeometry.norm_x g))
                     * fcos (of_nat b
                             * farccos (fy i / ChebyshevPolynomialGeometry.norm_y g)))%fv)).
  - apply map_ext; intros i. reflexivity.
  - intros [a b] g0. fuse. reflexivity.
Qed.

Lemma Cheb_normal_map {I : Type} g (l : list I) (fx fy : I -> fval) :
  ChebyshevPolynomialGeometry._surface_normal g (map fx l) (map fy l)
  = if existsb (fun i => ChebyshevPolynomialGeometry.out_of_domain1 g (fx i) (fy i)) l
    then Raise ValueError
    else Return
           (map (fun i => fst (fst (ChebyshevPolynomialGeometry._surface_normal1 g (fx i) (fy i)))) l,
            map (fun i => snd (fst (ChebyshevPolynomialGeometry._surface_normal1 g (fx i) (fy i)))) l,
            map (fun i => snd (ChebyshevPolynomialGeometry._surface_normal1 g (fx i) (fy i))) l).
Proof.
  unfold ChebyshevPolynomialGeometry._surface_normal; cbv zeta.
  rewrite Cheb_out_of_domain_map.
  destruct (existsb _ l); [reflexivity|].
  unfold ChebyshevPolynomialGeometry._surface_normal1,
    ChebyshevPolynomialGeometry.gradient1,
    ChebyshevPolynomialGeometry._chebyshev,
    ChebyshevPolynomialGeometry._chebyshev_derivative,
    ChebyshevPolynomialGeometry.T, ChebyshevPolynomialGeometry.T';
    cbv zeta.
  fuse.
  rewrite (fold_left_map2 l _
             (fun i '(dzdx, dzdy) '(a, b) =>
                let xn := (fx i / ChebyshevPolynomialGeometry.norm_x g)%fv in
                let yn := (fy i / ChebyshevPolynomialGeometry.norm_y g)%fv in
                let cab := ChebyshevPolynomialGeometry.entry
                             (ChebyshevPolynomialGeometry.c g) a b in
                ((dzdx + of_nat a * fsin (of_nat a * farccos xn)
                           / fsqrt (1 - fsq xn) * cab
                         * fcos (of_nat b * farccos yn))%fv,
                 (dzdy + of_nat b * fsin (of_nat b * farccos yn)
                           / fsqrt (1 - fsq yn) * cab
                         * fcos (of_nat a * farccos xn))%fv))).
  - fuse. f_equal. f_equal; [f_equal|]; apply map_ext; intros i; cbv zeta;
      match goal with
      | |- context [fold_left ?f ?idx ?a] => destruct (fold_left f idx a)
      end; reflexivity.
  - intros [a b] g0 h0. fuse. reflexivity.
Qed.

(* ================================================================= *)
(** * The conic slope at a regular point *)

Lemma regular_conic (R0 K x y : R) :
  R0 <> 0 -> 0 < 1 - (1 + K) * (x * x + y * y) / (R0 * R0) ->
  regular (Fin R0) (Fin K) (Fin x) (Fin y) = true.
Proof.
  intros HR Harg.
  assert (HRR : R0 * R0 <> 0) by (apply Rmult_integral_contrapositive; tauto).
  unfold regular, conic_denom, fsq, fsub;
    cbn [is_finite andb fadd fmul fneg].
  rewrite fdiv_Fin by assumption. cbn [fadd fneg].
  rewrite fsqrt_Fin by lra. cbn [fmul].
  apply negb_true_iff, Reqb_false.
  apply Rmult_integral_contrapositive; split; [assumption|].
  apply Rgt_not_eq, sqrt_lt_R0. lra.
Qed.

Lemma regular_flat (K x y : R) :
  regular PInf (Fin K) (Fin x) (Fin y) = true.
Proof.
  unfold regular, conic_denom, fsq, fsub;
    cbn [is_finite andb fadd fmul fneg fsign fdiv finf xorb].
  rewrite fsqrt_Fin by lra.
  assert (0 < sqrt (1 + - 0)) by (apply sqrt_lt_R0; lra).
  simpl. rcases.
Qed.

Lemma fneg_fmul_l a b : (fneg a * b)%fv = fneg (a * b)%fv.
Proof.
  destruct a as [a| | |], b as [b| | |]; simpl; try reflexivity;
    try (f_equal; lra); rcases.
Qed.

(** A finite value over a denominator that is neither zero nor [NaN]. *)
Lemma slope_finite (x0 : R) (D : fval) :
  match D with Fin d => d <> 0 | NaN => False | _ => True end ->
  exists a, (Fin x0 / D)%fv = Fin a /\ (Fin x0 / fneg D)%fv = Fin (- a).
Proof.
  destruct D as [d| | |]; intros HD; try contradiction.
  - exists (x0 / d). rewrite fdiv_Fin by assumption. split; [reflexivity|].
    simpl fneg. rewrite fdiv_Fin by lra. f_equal. field. assumption.
  - exists 0. simpl. split; [reflexivity | f_equal; lra].
  - exists 0. simpl. split; [reflexivity | f_equal; lra].
Qed.

Lemma regular_inv radius k x y :
  regular radius k x y = true ->
  exists x0 y0 a b,
    x = Fin x0 /\ y = Fin y0 /\
    (x / conic_denom radius k x y)%fv = Fin a /\
    (y / conic_denom radius k x y)%fv = Fin b /\
    (x / fneg (conic_denom radius k x y))%fv = Fin (- a) /\
    (y / fneg (conic_denom radius k x y))%fv = Fin (- b).
Proof.
  unfold regular. intros H.
  apply andb_prop in H as [H HD]. apply andb_prop in H as [Hx Hy].
  destruct x as [x0| | |]; try discriminate.
  destruct y as [y0| | |]; try discriminate.
  assert (HD' : match conic_denom radius k (Fin x0) (Fin y0) with
                | Fin d => d <> 0 | NaN => False | _ => True end).
  { destruct (conic_denom radius k (Fin x0) (Fin y0)); try exact I;
      try discriminate.
    apply negb_true_iff, Reqb_false in HD. exact HD. }
  destruct (slope_finite x0 _ HD') as (a & Ha & Ha').
  destruct (slope_finite y0 _ HD') as (b & Hb & Hb').
  exists x0, y0, a, b. repeat split; assumption.
Qed.

Lemma mag_of_pos a b : 1 <= mag_of a b.
Proof.
  unfold mag_of. rewrite <- sqrt_1 at 1. apply sqrt_le_1_alt. nra.
Qed.

Lemma mag_of_sqr a b : mag_of a b * mag_of a b = a * a + b * b + 1.
Proof. unfold mag_of. apply sqrt_sqrt. nra. Qed.

Lemma mag_of_opp a b : mag_of (- a) (- b) = mag_of a b.
Proof. unfold mag_of. f_equal. ring. Qed.

(** [sqrt(dfdx**2 + dfdy**2 + 1)] of a finite gradient. *)
Lemma fmag_finite a b :
  fsqrt (fsq (Fin a) + fsq (Fin b) + 1)%fv = Fin (mag_of a b).
Proof.
  unfold fsq; simpl fadd. rewrite fsqrt_Fin by nra. reflexivity.
Qed.

Lemma fdiv_mag p a b : (Fin p / Fin (mag_of a b))%fv = Fin (p / mag_of a b).
Proof. apply fdiv_Fin. pose proof (mag_of_pos a b). lra. Qed.

(** A vector [(p, q, r) / mag] with [p^2 + q^2 = a^2 + b^2] and [r^2 = 1]
    has length one. *)
Lemma norm2_unit p q r a b :
  p * p + q * q = a * a + b * b -> r * r = 1 ->
  norm2 (Fin (p / mag_of a b), Fin (q / mag_of a b), Fin (r / mag_of a b)) = Fin 1.
Proof.
  intros Hpq Hr. unfold norm2, fsq; simpl. f_equal.
  pose proof (mag_of_pos a b) as Hm. pose proof (mag_of_sqr a b) as Hs.
  assert (Hm0 : mag_of a b <> 0) by lra.
  set (m := mag_of a b) in *.
  replace (p / m * (p / m) + q / m * (q / m) + r / m * (r / m))
    with ((p * p + q * q + r * r) / (m * m)) by (field; assumption).
  rewrite Hpq, Hr, Hs. field. rewrite <- Hs.
  apply Rmult_integral_contrapositive; tauto.
Qed.

Lemma fadd_Fin a b : (Fin a + Fin b)%fv = Fin (a + b).
Proof. reflexivity. Qed.

Lemma fmul_Fin a b : (Fin a * Fin b)%fv = Fin (a * b).
Proof. reflexivity. Qed.

Lemma fadd_zero z t : t = 0 -> (z + Fin t)%fv = z.
Proof.
  intros ->. destruct z; simpl; try reflexivity. f_equal. lra.
Qed.

Lemma fsq_1 : fsq 1%fv = 1%fv.
Proof. unfold fsq; simpl. f_equal. lra. Qed.

Lemma fpow_Fin r n : fpow (Fin r) n = Fin (r ^ n).
Proof. induction n as [|n IH]; simpl; [reflexivity | now rewrite IH]. Qed.

(* ================================================================= *)
(** * Opposite denominators *)

Lemma fsq_fneg v : fsq (fneg v) = fsq v.
Proof.
  destruct v; unfold fsq; simpl; try reflexivity.
  f_equal; lra.
Qed.

Lemma fneg_involutive v : fneg (fneg v) = v.
Proof. destruct v; simpl; try reflexivity. f_equal; lra. Qed.

Lemma fdiv_fneg_l a m : (fneg a / m)%fv = fneg (a / m)%fv.
Proof.
  destruct a as [a0| | |], m as [m0| | |]; simpl; try reflexivity;
    try (f_equal; lra).
  - destruct (Req_dec_T m0 0) as [-> | Hm].
    + rewrite (proj2 (Reqb_true 0 0) eq_refl).
      destruct (Rlt_dec 0 a0), (Rlt_dec a0 0); unfold Rltb;
        repeat match goal with
          | |- context [Rlt_dec ?p ?q] => destruct (Rlt_dec p q)
          end; simpl; try reflexivity; lra.
    + rewrite (proj2 (Reqb_false m0 0) Hm). simpl. f_equal. field. assumption.
  - destruct (Rltb 0 m0); [reflexivity|]. destruct (Rltb m0 0); reflexivity.
  - destruct (Rltb 0 m0); [reflexivity|]. destruct (Rltb m0 0); reflexivity.
Qed.

Lemma fdiv_fneg_r x D : D <> Fin 0 -> (x / fneg D)%fv = fneg (x / D)%fv.
Proof.
  intros HD.
  destruct D as [d| | |]; try (destruct x; simpl; try reflexivity; f_equal; lra).
  assert (Hd : d <> 0) by (intros ->; now apply HD).
  destruct x as [x0| | |]; cbn [fneg]; try reflexivity.
  - rewrite !fdiv_Fin by lra. simpl. f_equal. field; auto.
  - cbn [fdiv fsign]. unfold Rltb.
    destruct (Rlt_dec 0 d), (Rlt_dec d 0), (Rlt_dec 0 (- d)), (Rlt_dec (- d) 0);
      simpl; try reflexivity; lra.
  - cbn [fdiv fsign]. unfold Rltb.
    destruct (Rlt_dec 0 d), (Rlt_dec d 0), (Rlt_dec 0 (- d)), (Rlt_dec (- d) 0);
      simpl; try reflexivity; lra.
Qed.

(** What a division by zero can give. *)
Lemma fdiv_zero_cases x : (x / Fin 0)%fv = PInf \/ (x / Fin 0)%fv = NInf \/ (x / Fin 0)%fv = NaN.
Proof.
  destruct x as [x0| | |]; simpl; auto.
  - rewrite (proj2 (Reqb_true 0 0) eq_refl).
    destruct (Rltb 0 x0); auto. destruct (Rltb x0 0); auto.
  - rewrite (proj2 (Rltb_false 0 0)) by lra. auto.
  - rewrite (proj2 (Rltb_false 0 0)) by lra. auto.
Qed.

(** The normal of [StandardGeometry] (slopes over [-D]) is the vector
    that the Chebyshev formula builds from the slopes over [D], whatever
    the values are; the vector of the EvenAsphere formula is its
    opposite. *)
Lemma normal_std_cheb x y D :
  let gx := (x / fneg D)%fv in
  let gy := (y / fneg D)%fv in
  let hx := (x / D)%fv in
  let hy := (y / D)%fv in
  ((gx / fsqrt (fsq gx + fsq gy + fsq 1))%fv,
   (gy / fsqrt (fsq gx + fsq gy + fsq 1))%fv,
   (1 / fsqrt (fsq gx + fsq gy + fsq 1))%fv)
  = ((fneg hx / fsqrt (fsq hx + fsq hy + 1))%fv,
     (fneg hy / fsqrt (fsq hx + fsq hy + 1))%fv,
     (1 / fsqrt (fsq hx + fsq hy + 1))%fv).
Proof.
  cbv zeta. rewrite fsq_1.
  destruct D as [d| | |]; [destruct (Req_dec_T d 0) as [-> | Hd]|..].
  - replace (fneg (Fin 0)) with (Fin 0) by (simpl; f_equal; lra).
    destruct (fdiv_zero_cases x) as [-> | [-> | ->]];
      destruct (fdiv_zero_cases y) as [-> | [-> | ->]]; reflexivity.
  - rewrite !fdiv_fneg_r by congruence. now rewrite !fsq_fneg.
  - rewrite !fdiv_fneg_r by discriminate. now rewrite !fsq_fneg.
  - rewrite !fdiv_fneg_r by discriminate. now rewrite !fsq_fneg.
  - rewrite !fdiv_fneg_r by discriminate. now rewrite !fsq_fneg.
Qed.

Lemma normal_even_std x y D :
  let gx := (x / fneg D)%fv in
  let gy := (y / fneg D)%fv in
  let hx := (x / D)%fv in
  let hy := (y / D)%fv in
  ((hx / fsqrt (fsq hx + fsq hy + 1))%fv,
   (hy / fsqrt (fsq hx + fsq hy + 1))%fv,
   (Fin (-1) / fsqrt (fsq hx + fsq hy + 1))%fv)
  = vneg ((gx / fsqrt (fsq gx + fsq gy + fsq 1))%fv,
          (gy / fsqrt (fsq gx + fsq gy + fsq 1))%fv,
          (1 / fsqrt (fsq gx + fsq gy + fsq 1))%fv).
Proof.
  cbv zeta. rewrite fsq_1.
  assert (Hgen : forall D', D' <> Fin 0 ->
            ((x / D' / fsqrt (fsq (x / D') + fsq (y / D') + 1))%fv,
             (y / D' / fsqrt (fsq (x / D') + fsq (y / D') + 1))%fv,
             (Fin (-1) / fsqrt (fsq (x / D') + fsq (y / D') + 1))%fv)
            = vneg ((x / fneg D' / fsqrt (fsq (x / fneg D') + fsq (y / fneg D') + 1))%fv,
                    (y / fneg D' / fsqrt (fsq (x / fneg D') + fsq (y / fneg D') + 1))%fv,
                    (1 / fsqrt (fsq (x / fneg D') + fsq (y / fneg D') + 1))%fv)).
  { intros D' HD'. rewrite !fdiv_fneg_r by assumption. rewrite !fsq_fneg.
    unfold vneg. rewrite !fdiv_fneg_l, !fneg_involutive.
    replace (Fin (-1)) with (fneg (Fin 1)) by (simpl; f_equal; lra).
    now rewrite fdiv_fneg_l. }
  destruct D as [d| | |]; [destruct (Req_dec_T d 0) as [-> | Hd]|..];
    try (apply Hgen; congruence).
  replace (fneg (Fin 0)) with (Fin 0) by (simpl; f_equal; lra).
  destruct (fdiv_zero_cases x) as [-> | [-> | ->]];
    destruct (fdiv_zero_cases y) as [-> | [-> | ->]];
    simpl; try reflexivity; repeat f_equal; lra.
Qed.

(** ** [StandardGeometry.surface_normal] at a regular point *)

Lemma Standard_normal_regular g x y :
  regular (StandardGeometry.radius g) (StandardGeometry.k g) x y = true ->
  exists a b,
    (x / conic_denom (StandardGeometry.radius g) (StandardGeometry.k g) x y)%fv = Fin a /\
    (y / conic_denom (StandardGeometry.radius g) (StandardGeometry.k g) x y)%fv = Fin b /\
    StandardGeometry.surface_normal1 g x y
    = (Fin (- a / mag_of a b), Fin (- b / mag_of a b), Fin (1 / mag_of a b)).
Proof.
  intros Hreg.
  destruct (regular_inv _ _ _ _ Hreg) as (x0 & y0 & a & b & -> & -> & Ha & Hb & Ha' & Hb').
  exists a, b. split; [assumption|]. split; [assumption|].
  unfold StandardGeometry.surface_normal1; cbv zeta.
  rewrite fneg_fmul_l. fold (conic_denom (StandardGeometry.radius g)
                               (StandardGeometry.k g) (Fin x0) (Fin y0)).
  rewrite Ha', Hb', fsq_1, fmag_finite, mag_of_opp, !fdiv_mag.
  reflexivity.
Qed.

(** ** [EvenAsphere._surface_normal] at a regular point *)

Lemma Forall_enumerate {A : Type} (P : A -> Prop) (l : list A) :
  Forall P l -> Forall (fun p => P (snd p)) (enumerate l).
Proof.
  intros H. apply Forall_forall. intros [i a] Hin.
  apply in_combine_r in Hin. simpl.
  rewrite Forall_forall in H. now apply H.
Qed.

Lemma Even_step_finite x0 y0 r (idx : list (nat * fval)) :
  Forall (fun p => is_finite (snd p) = true) idx ->
  forall a b, exists a' b',
    fold_left
      (fun '(dfdx, dfdy) '(i, Ci) =>
         ((dfdx + of_nat (2 * (i + 1)) * Fin x0 * Ci * fpow (Fin r) i)%fv,
          (dfdy + of_nat (2 * (i + 1)) * Fin y0 * Ci * fpow (Fin r) i)%fv))
      idx (Fin a, Fin b) = (Fin a', Fin b').
Proof.
  induction 1 as [|[i Ci] idx HCi _ IH]; intros a b; cbn [fold_left].
  - now exists a, b.
  - simpl in HCi. destruct Ci as [ci| | |]; try discriminate.
    rewrite fpow_Fin. unfold of_nat.
    rewrite !fmul_Fin, !fadd_Fin. apply IH.
Qed.

Lemma Even_step_zero x0 y0 r (idx : list (nat * fval)) :
  Forall (fun p => snd p = Fin 0) idx ->
  forall a b : fval,
    fold_left
      (fun '(dfdx, dfdy) '(i, Ci) =>
         ((dfdx + of_nat (2 * (i + 1)) * Fin x0 * Ci * fpow (Fin r) i)%fv,
          (dfdy + of_nat (2 * (i + 1)) * Fin y0 * Ci * fpow (Fin r) i)%fv))
      idx (a, b) = (a, b).
Proof.
  induction 1 as [|[i Ci] idx HCi _ IH]; intros a b; cbn [fold_left].
  - reflexivity.
  - simpl in HCi. subst Ci.
    rewrite fpow_Fin. unfold of_nat.
    rewrite !fmul_Fin, !fadd_zero by ring.
    apply IH.
Qed.

Lemma Even_gradient_regular g x y :
  regular (EvenAsphere.radius g) (EvenAsphere.k g) x y = true ->
  Forall (fun v => is_finite v = true) (EvenAsphere.c g) ->
  exists a b, EvenAsphere.gradient1 g x y = (Fin a, Fin b).
Proof.
  intros Hreg Hc.
  destruct (regular_inv _ _ _ _ Hreg) as (x0 & y0 & a & b & -> & -> & Ha & Hb & _).
  unfold EvenAsphere.gradient1; cbv zeta.
  fold (conic_denom (EvenAsphere.radius g) (EvenAsphere.k g) (Fin x0) (Fin y0)).
  rewrite Ha, Hb. unfold fsq at 1 2; simpl fadd.
  apply Even_step_finite.
  now apply (Forall_enumerate (fun v => is_finite v = true)).
Qed.

Lemma Even_gradient_zero g x y :
  is_finite x = true -> is_finite y = true ->
  Forall (fun v => v = Fin 0) (EvenAsphere.c g) ->
  EvenAsphere.gradient1 g x y
  = ((x / conic_denom (EvenAsphere.radius g) (EvenAsphere.k g) x y)%fv,
     (y / conic_denom (EvenAsphere.radius g) (EvenAsphere.k g) x y)%fv).
Proof.
  intros Hx Hy Hc.
  destruct x as [x0| | |]; try discriminate.
  destruct y as [y0| | |]; try discriminate.
  unfold EvenAsphere.gradient1; cbv zeta.
  fold (conic_denom (EvenAsphere.radius g) (EvenAsphere.k g) (Fin x0) (Fin y0)).
  unfold fsq at 1 2. rewrite !fmul_Fin, fadd_Fin.
  apply Even_step_zero.
  now apply (Forall_enumerate (fun v => v = Fin 0)).
Qed.

Lemma Even_normal_of_gradient g x y a b :
  EvenAsphere.gradient1 g x y = (Fin a, Fin b) ->
  EvenAsphere._surface_normal1 g x y
  = (Fin (a / mag_of a b), Fin (b / mag_of a b), Fin (- 1 / mag_of a b)).
Proof.
  intros Hg. unfold EvenAsphere._surface_normal1. rewrite Hg.
  rewrite fmag_finite, !fdiv_mag. reflexivity.
Qed.

(** ** [ChebyshevPolynomialGeometry._surface_normal] at a regular point *)

Lemma fabs_lt_1 v :
  fltb (fabs v) 1%fv = true -> exists u, v = Fin u /\ -1 < u < 1.
Proof.
  destruct v as [u| | |]; simpl; try discriminate.
  intros H. apply Rltb_true in H. exists u. split; [reflexivity|].
  unfold Rabs in H. destruct (Rcase_abs u); lra.
Qed.

Lemma T_finite n u :
  -1 <= u <= 1 ->
  ChebyshevPolynomialGeometry.T n (Fin u) = Fin (cos (INR n * acos u)).
Proof.
  intros [Hl Hu]. unfold ChebyshevPolynomialGeometry.T, of_nat, farccos.
  rewrite (proj2 (Rleb_true _ _) Hl), (proj2 (Rleb_true _ _) Hu).
  reflexivity.
Qed.

Lemma T'_finite n u :
  -1 < u < 1 ->
  ChebyshevPolynomialGeometry.T' n (Fin u)
  = Fin (INR n * sin (INR n * acos u) / sqrt (1 + - (u * u))).
Proof.
  intros [Hl Hu]. unfold ChebyshevPolynomialGeometry.T', of_nat, farccos, fsq, fsub.
  rewrite (proj2 (Rleb_true (-1) u)), (proj2 (Rleb_true u 1)) by lra.
  cbn [andb fmul fsin fneg fadd].
  assert (Hpos : 0 < 1 + - (u * u)) by nra.
  rewrite fsqrt_Fin by lra.
  apply fdiv_Fin. apply Rgt_not_eq, sqrt_lt_R0. assumption.
Qed.

Lemma entry_finite c i j :
  Forall (Forall (fun v => is_finite v = true)) c ->
  is_finite (ChebyshevPolynomialGeometry.entry c i j) = true.
Proof.
  intros Hc. unfold ChebyshevPolynomialGeometry.entry.
  assert (Hrow : Forall (fun v => is_finite v = true) (nth i c [])).
  { destruct (nth_in_or_default i c []) as [Hin | ->]; [|constructor].
    rewrite Forall_forall in Hc. now apply Hc. }
  destruct (nth_in_or_default j (nth i c []) (Fin 0)) as [Hin | ->];
    [|reflexivity].
  rewrite Forall_forall in Hrow. now apply Hrow.
Qed.

Lemma Cheb_step_finite c u v (idx : list (nat * nat)) :
  Forall (Forall (fun w => is_finite w = true)) c ->
  -1 < u < 1 -> -1 < v < 1 ->
  forall a b, exists a' b',
    fold_left
      (fun '(dzdx, dzdy) '(i, j) =>
         ((dzdx + ChebyshevPolynomialGeometry.T' i (Fin u)
                  * ChebyshevPolynomialGeometry.entry c i j
                  * ChebyshevPolynomialGeometry.T j (Fin v))%fv,
          (dzdy + ChebyshevPolynomialGeometry.T' j (Fin v)
                  * ChebyshevPolynomialGeometry.entry c i j
                  * ChebyshevPolynomialGeometry.T i (Fin u))%fv))
      idx (Fin a, Fin b) = (Fin a', Fin b').
Proof.
  intros Hc Hu Hv.
  induction idx as [|[i j] idx IH]; intros a b; cbn [fold_left].
  - now exists a, b.
  - pose proof (entry_finite c i j Hc) as He.
    destruct (ChebyshevPolynomialGeometry.entry c i j) as [e| | |] eqn:Ee;
      try discriminate.
    rewrite !T'_finite, !T_finite by lra.
    rewrite !fmul_Fin, !fadd_Fin. apply IH.
Qed.

Lemma nonzero_cols_zero row :
  Forall (fun v => v = Fin 0) row ->
  ChebyshevPolynomialGeometry.nonzero_cols row = [].
Proof.
  intros H. unfold ChebyshevPolynomialGeometry.nonzero_cols.
  replace (filter (fun '(_, v) => fneb v 0%fv) (enumerate row)) with
    (@nil (nat * fval)); [reflexivity|].
  symmetry. apply (Forall_enumerate (fun v => v = Fin 0)) in H.
  induction H as [|[j v] l Hv _ IH]; simpl; [reflexivity|].
  simpl in Hv; subst v. unfold fneb; simpl.
  rewrite (proj2 (Reqb_true 0 0) eq_refl). exact IH.
Qed.

Lemma argwhere_all_zero c :
  Forall (Forall (fun v => v = Fin 0)) c ->
  ChebyshevPolynomialGeometry.argwhere_ne0 c = [].
Proof.
  intros H. unfold ChebyshevPolynomialGeometry.argwhere_ne0.
  apply (Forall_enumerate (Forall (fun v => v = Fin 0))) in H.
  induction H as [|[i row] l Hrow _ IH]; simpl; [reflexivity|].
  simpl in Hrow. rewrite (nonzero_cols_zero row Hrow). exact IH.
Qed.

Lemma Cheb_gradient_regular g x y :
  regular (ChebyshevPolynomialGeometry.radius g)
          (ChebyshevPolynomialGeometry.k g) x y = true ->
  ChebyshevPolynomialGeometry.strictly_inside g x y = true ->
  Forall (Forall (fun w => is_finite w = true)) (ChebyshevPolynomialGeometry.c g) ->
  exists a b, ChebyshevPolynomialGeometry.gradient1 g x y = (Fin a, Fin b).
Proof.
  intros Hreg Hin Hc.
  destruct (regular_inv _ _ _ _ Hreg) as (x0 & y0 & a & b & -> & -> & Ha & Hb & _).
  unfold ChebyshevPolynomialGeometry.strictly_inside in Hin.
  apply andb_prop in Hin as [Hu Hv].
  apply fabs_lt_1 in Hu as (u & Eu & Hu). apply fabs_lt_1 in Hv as (v & Ev & Hv).
  unfold ChebyshevPolynomialGeometry.gradient1; cbv zeta.
  fold (conic_denom (ChebyshevPolynomialGeometry.radius g)
          (ChebyshevPolynomialGeometry.k g) (Fin x0) (Fin y0)).
  rewrite Ha, Hb, Eu, Ev.
  now apply Cheb_step_finite.
Qed.

Lemma Cheb_gradient_zero g x y :
  Forall (Forall (fun w => w = Fin 0)) (ChebyshevPolynomialGeometry.c g) ->
  ChebyshevPolynomialGeometry.gradient1 g x y
  = ((x / conic_denom (ChebyshevPolynomialGeometry.radius g)
                      (ChebyshevPolynomialGeometry.k g) x y)%fv,
     (y / conic_denom (ChebyshevPolynomialGeometry.radius g)
                      (ChebyshevPolynomialGeometry.k g) x y)%fv).
Proof.
  intros Hc.
  unfold ChebyshevPolynomialGeometry.gradient1; cbv zeta.
  now rewrite (argwhere_all_zero _ Hc).
Qed.

Lemma Cheb_normal_of_gradient g x y a b :
  ChebyshevPolynomialGeometry.gradient1 g x y = (Fin a, Fin b) ->
  ChebyshevPolynomialGeometry._surface_normal1 g x y
  = (Fin (- a / mag_of a b), Fin (- b / mag_of a b), Fin (1 / mag_of a b)).
Proof.
  intros Hg. unfold ChebyshevPolynomialGeometry._surface_normal1. rewrite Hg.
  rewrite fmag_finite. cbn [fneg]. rewrite !fdiv_mag. reflexivity.
Qed.

(* ================================================================= *)
(** * The array functions at one index *)

Lemma existsb_seq_false (p : nat -> bool) n :
  (forall i, (i < n)%nat -> p i = false) -> existsb p (seq 0 n) = false.
Proof.
  intros H. destruct (existsb p (seq 0 n)) eqn:E; [|reflexivity].
  apply existsb_exists in E as (i & Hin & Hp).
  apply in_seq in Hin. rewrite H in Hp by lia. discriminate.
Qed.

Lemma map_seq_ext {A : Type} (f g : nat -> A) n :
  (forall i, (i < n)%nat -> f i = g i) -> map f (seq 0 n) = map g (seq 0 n).
Proof.
  intros H. apply map_ext_in. intros i Hin. apply in_seq in Hin. apply H. lia.
Qed.

Lemma Standard_sag_seq g x y n :
  length x = n -> length y = n ->
  StandardGeometry.sag g x y
  = map (fun i => StandardGeometry.sag1 g (nth i x NaN) (nth i y NaN)) (seq 0 n).
Proof.
  intros Hx Hy.
  pose proof (Standard_sag_map g (seq 0 n)
                (fun j => nth j x NaN) (fun j => nth j y NaN)) as H.
  now rewrite <- (as_map_seq_len x NaN n Hx), <- (as_map_seq_len y NaN n Hy) in H.
Qed.

Lemma Even_sag_seq g x y n :
  length x = n -> length y = n ->
  EvenAsphere.sag g x y
  = map (fun i => EvenAsphere.sag1 g (nth i x NaN) (nth i y NaN)) (seq 0 n).
Proof.
  intros Hx Hy.
  pose proof (Even_sag_map g (seq 0 n)
                (fun j => nth j x NaN) (fun j => nth j y NaN)) as H.
  now rewrite <- (as_map_seq_len x NaN n Hx), <- (as_map_seq_len y NaN n Hy) in H.
Qed.

Lemma Cheb_sag_seq g x y n :
  length x = n -> length y = n ->
  ChebyshevPolynomialGeometry.sag g x y
  = if existsb (fun i => ChebyshevPolynomialGeometry.out_of_domain1 g
                           (nth i x NaN) (nth i y NaN)) (seq 0 n)
    then Raise ValueError
    else Return (map (fun i => ChebyshevPolynomialGeometry.sag1 g
                                 (nth i x NaN) (nth i y NaN)) (seq 0 n)).
Proof.
  intros Hx Hy.
  pose proof (Cheb_sag_map g (seq 0 n)
                (fun j => nth j x NaN) (fun j => nth j y NaN)) as H.
  now rewrite <- (as_map_seq_len x NaN n Hx), <- (as_map_seq_len y NaN n Hy) in H.
Qed.

Lemma Cheb_normal_seq g x y n :
  length x = n -> length y = n ->
  ChebyshevPolynomialGeometry._surface_normal g x y
  = if existsb (fun i => ChebyshevPolynomialGeometry.out_of_domain1 g
                           (nth i x NaN) (nth i y NaN)) (seq 0 n)
    then Raise ValueError
    else Return
           (map (fun i => fst (fst (ChebyshevPolynomialGeometry._surface_normal1 g
                                      (nth i x NaN) (nth i y NaN)))) (seq 0 n),
            map (fun i => snd (fst (ChebyshevPolynomialGeometry._surface_normal1 g
                                      (nth i x NaN) (nth i y NaN)))) (seq 0 n),
            map (fun i => snd (ChebyshevPolynomialGeometry._surface_normal1 g
                                 (nth i x NaN) (nth i y NaN))) (seq 0 n)).
Proof.
  intros Hx Hy.
  pose proof (Cheb_normal_map g (seq 0 n)
                (fun j => nth j x NaN) (fun j => nth j y NaN)) as H.
  now rewrite <- (as_map_seq_len x NaN n Hx), <- (as_map_seq_len y NaN n Hy) in H.
Qed.

Lemma Standard_normal_seq g rays n :
  length (RealRays.x rays) = n -> length (RealRays.y rays) = n ->
  StandardGeometry.surface_normal g rays
  = (map (fun i => fst (fst (StandardGeometry.surface_normal1 g
                               (nth i (RealRays.x rays) NaN)
                               (nth i (RealRays.y rays) NaN)))) (seq 0 n),
     map (fun i => snd (fst (StandardGeometry.surface_normal1 g
                               (nth i (RealRays.x rays) NaN)
                               (nth i (RealRays.y rays) NaN)))) (seq 0 n),
     map (fun i => snd (StandardGeometry.surface_normal1 g
                          (nth i (RealRays.x rays) NaN)
                          (nth i (RealRays.y rays) NaN))) (seq 0 n)).
Proof.
  intros Hx Hy.
  apply (Standard_normal_map g (seq 0 n)
           (fun j => nth j (RealRays.x rays) NaN)
           (fun j => nth j (RealRays.y rays) NaN));
    now apply as_map_seq_len.
Qed.

(** In-domain batch: the Chebyshev normal at index [i]. *)
Lemma Cheb_normal_nth g x y n v i :
  length x = n -> length y = n -> (i < n)%nat ->
  ChebyshevPolynomialGeometry._surface_normal g x y = Return v ->
  vec_at v i
  = ChebyshevPolynomialGeometry._surface_normal1 g (nth i x NaN) (nth i y NaN).
Proof.
  intros Hx Hy Hi. rewrite (Cheb_normal_seq g x y n Hx Hy).
  destruct (existsb _ _); [discriminate|].
  intros [= <-].
  exact (vec_at_map
           (fun j => ChebyshevPolynomialGeometry._surface_normal1 g
                       (nth j x NaN) (nth j y NaN)) n i Hi).
Qed.

Lemma Cheb_sag_nth g x y n z i :
  length x = n -> length y = n -> (i < n)%nat ->
  ChebyshevPolynomialGeometry.sag g x y = Return z ->
  nth i z NaN
  = ChebyshevPolynomialGeometry.sag1 g (nth i x NaN) (nth i y NaN).
Proof.
  intros Hx Hy Hi. rewrite (Cheb_sag_seq g x y n Hx Hy).
  destruct (existsb _ _); [discriminate|].
  intros [= <-].
  exact (nth_map_seq
           (fun j => ChebyshevPolynomialGeometry.sag1 g (nth j x NaN) (nth j y NaN))
           n i NaN Hi).
Qed.

(* ================================================================= *)
(** * All-zero coefficients: the conic alone *)

Lemma Even_sag_step_zero r (idx : list (nat * fval)) :
  Forall (fun p => snd p = Fin 0) idx ->
  forall z,
    fold_left (fun z '(i, Ci) => (z + Ci * fpow (Fin r) (i + 1))%fv) idx z = z.
Proof.
  induction 1 as [|[i Ci] idx HCi _ IH]; intros z; cbn [fold_left].
  - reflexivity.
  - simpl in HCi. subst Ci. rewrite fpow_Fin, fmul_Fin.
    rewrite fadd_zero by ring. apply IH.
Qed.

Lemma Even_zero_sag1 ea st x y :
  EvenAsphere.radius ea = StandardGeometry.radius st ->
  EvenAsphere.k ea = StandardGeometry.k st ->
  Forall (fun v => v = Fin 0) (EvenAsphere.c ea) ->
  is_finite x = true -> is_finite y = true ->
  EvenAsphere.sag1 ea x y = StandardGeometry.sag1 st x y.
Proof.
  intros HR HK Hc Hx Hy.
  destruct x as [x0| | |]; try discriminate.
  destruct y as [y0| | |]; try discriminate.
  unfold EvenAsphere.sag1, EvenAsphere.conic1, StandardGeometry.sag1; cbv zeta.
  rewrite HR, HK. unfold fsq at 1 2. rewrite !fmul_Fin, fadd_Fin.
  apply Even_sag_step_zero.
  now apply (Forall_enumerate (fun v => v = Fin 0)).
Qed.

Lemma Cheb_zero_sag1 ch st x y :
  ChebyshevPolynomialGeometry.radius ch = StandardGeometry.radius st ->
  ChebyshevPolynomialGeometry.k ch = StandardGeometry.k st ->
  Forall (Forall (fun v => v = Fin 0)) (ChebyshevPolynomialGeometry.c ch) ->
  ChebyshevPolynomialGeometry.sag1 ch x y = StandardGeometry.sag1 st x y.
Proof.
  intros HR HK Hc.
  unfold ChebyshevPolynomialGeometry.sag1, ChebyshevPolynomialGeometry.conic1,
    StandardGeometry.sag1; cbv zeta.
  rewrite (argwhere_all_zero _ Hc), HR, HK. reflexivity.
Qed.

Lemma Cheb_zero_normal1 ch st x y :
  ChebyshevPolynomialGeometry.radius ch = StandardGeometry.radius st ->
  ChebyshevPolynomialGeometry.k ch = StandardGeometry.k st ->
  Forall (Forall (fun v => v = Fin 0)) (ChebyshevPolynomialGeometry.c ch) ->
  ChebyshevPolynomialGeometry._surface_normal1 ch x y
  = StandardGeometry.surface_normal1 st x y.
Proof.
  intros HR HK Hc.
  unfold ChebyshevPolynomialGeometry._surface_normal1.
  rewrite (Cheb_gradient_zero ch x y Hc), HR, HK.
  unfold StandardGeometry.surface_normal1; cbv zeta.
  rewrite fneg_fmul_l. symmetry.
  exact (normal_std_cheb x y
           (conic_denom (StandardGeometry.radius st) (StandardGeometry.k st) x y)).
Qed.

Lemma Even_zero_normal1 ea st x y :
  EvenAsphere.radius ea = StandardGeometry.radius st ->
  EvenAsphere.k ea = StandardGeometry.k st ->
  Forall (fun v => v = Fin 0) (EvenAsphere.c ea) ->
  is_finite x = true -> is_finite y = true ->
  EvenAsphere._surface_normal1 ea x y
  = vneg (StandardGeometry.surface_normal1 st x y).
Proof.
  intros HR HK Hc Hx Hy.
  unfold EvenAsphere._surface_normal1.
  rewrite (Even_gradient_zero ea x y Hx Hy Hc), HR, HK.
  unfold StandardGeometry.surface_normal1; cbv zeta.
  rewrite fneg_fmul_l.
  exact (normal_even_std x y
           (conic_denom (StandardGeometry.radius st) (StandardGeometry.k st) x y)).
Qed.

(** Helpers to establish the hypotheses of the theorems at given numbers. *)
Lemma in_domain_Fin g x0 y0 nx ny :
  ChebyshevPolynomialGeometry.norm_x g = Fin nx ->
  ChebyshevPolynomialGeometry.norm_y g = Fin ny ->
  nx <> 0 -> ny <> 0 ->
  -1 <= x0 / nx <= 1 -> -1 <= y0 / ny <= 1 ->
  ChebyshevPolynomialGeometry.out_of_domain1 g (Fin x0) (Fin y0) = false.
Proof.
  intros Enx Eny Hnx Hny Hx Hy.
  unfold ChebyshevPolynomialGeometry.out_of_domain1, fgtb.
  rewrite Enx, Eny, !fdiv_Fin by assumption. cbn [fabs fltb].
  apply orb_false_iff; split; apply Rltb_false;
    apply Rabs_le; lra.
Qed.

Lemma strictly_inside_Fin g x0 y0 nx ny :
  ChebyshevPolynomialGeometry.norm_x g = Fin nx ->
  ChebyshevPolynomialGeometry.norm_y g = Fin ny ->
  nx <> 0 -> ny <> 0 ->
  -1 < x0 / nx < 1 -> -1 < y0 / ny < 1 ->
  ChebyshevPolynomialGeometry.strictly_inside g (Fin x0) (Fin y0) = true.
Proof.
  intros Enx Eny Hnx Hny Hx Hy.
  unfold ChebyshevPolynomialGeometry.strictly_inside.
  rewrite Enx, Eny, !fdiv_Fin by assumption. cbn [fabs fltb].
  apply andb_true_iff; split; apply Rltb_true;
    apply Rabs_def1; lra.
Qed.

(* ================================================================= *)
(** * Unit length of the surface normal *)

(** C5, as stated, fails on the rim of the conic: at [(1, 0)] on the
    sphere of radius 1 the square root is real (it is zero), the slope
    denominator is zero, and [surface_normal] returns [nan] components. *)
Lemma C5_rim_counterexample :
  fsqrt (1 - (1 + Fin 0) * (fsq (Fin 1) + fsq (Fin 0)) / fsq (Fin 1))%fv = Fin 0
  /\ vec_at (StandardGeometry.surface_normal unit_sphere (one_ray 1 0 0 0 0 1)) 0
     = (NaN, NaN, NaN)
  /\ norm2 (vec_at (StandardGeometry.surface_normal unit_sphere
                      (one_ray 1 0 0 0 0 1)) 0) <> Fin 1.
Proof.
  assert (Hs : fsqrt (1 - (1 + Fin 0) * (fsq (Fin 1) + fsq (Fin 0)) / fsq (Fin 1))%fv
               = Fin 0).
  { unfold fsq, fsub. cbn [fadd fmul fneg]. rewrite fdiv_Fin by lra.
    cbn [fadd fneg].
    replace (1 + - ((1 + 0) * (1 * 1 + 0 * 0) / (1 * 1))) with 0 by field.
    rewrite fsqrt_Fin by lra. now rewrite sqrt_0. }
  assert (Hv : vec_at (StandardGeometry.surface_normal unit_sphere
                         (one_ray 1 0 0 0 0 1)) 0 = (NaN, NaN, NaN)).
  { rewrite (Standard_normal_nth unit_sphere (one_ray 1 0 0 0 0 1) 1 0)
      by (simpl; auto).
    unfold StandardGeometry.surface_normal1, unit_sphere, one_ray; cbv zeta.
    cbn [nth RealRays.x RealRays.y StandardGeometry.radius StandardGeometry.k].
    rewrite Hs. cbn [fneg fmul].
    rewrite (fdiv_0_0 0 (- (1) * 0)) by lra.
    change (fsq NaN) with NaN. rewrite !fadd_NaN_r.
    cbn [fadd fsqrt]. now rewrite !fdiv_NaN_r. }
  split; [exact Hs|]. split; [exact Hv|].
  rewrite Hv. discriminate.
Qed.

(** C5 (amended): for each of the three surface variants, at every ray of
    a batch where the slope of the conic is defined ([regular]: finite
    coordinates, real square root, nonzero denominator), with finite
    polynomial coefficients and, for Chebyshev, with the normalised
    coordinates of that ray strictly inside of [-1, 1] and the whole batch
    in the domain, the returned normal satisfies
    [nx^2 + ny^2 + nz^2 = 1]. *)
Theorem C5_unit_normal
  (st : StandardGeometry.t) (ea : EvenAsphere.t)
  (ch : ChebyshevPolynomialGeometry.t) (rays : RealRays.t) (n i : nat) :
  length (RealRays.x rays) = n -> length (RealRays.y rays) = n -> (i < n)%nat ->
  regular (StandardGeometry.radius st) (StandardGeometry.k st)
    (nth i (RealRays.x rays) NaN) (nth i (RealRays.y rays) NaN) = true ->
  regular (EvenAsphere.radius ea) (EvenAsphere.k ea)
    (nth i (RealRays.x rays) NaN) (nth i (RealRays.y rays) NaN) = true ->
  Forall (fun v => is_finite v = true) (EvenAsphere.c ea) ->
  regular (ChebyshevPolynomialGeometry.radius ch) (ChebyshevPolynomialGeometry.k ch)
    (nth i (RealRays.x rays) NaN) (nth i (RealRays.y rays) NaN) = true ->
  Forall (Forall (fun v => is_finite v = true)) (ChebyshevPolynomialGeometry.c ch) ->
  ChebyshevPolynomialGeometry.strictly_inside ch
    (nth i (RealRays.x rays) NaN) (nth i (RealRays.y rays) NaN) = true ->
  (forall j, (j < n)%nat ->
     ChebyshevPolynomialGeometry.out_of_domain1 ch
       (nth j (RealRays.x rays) NaN) (nth j (RealRays.y rays) NaN) = false) ->
  norm2 (vec_at (StandardGeometry.surface_normal st rays) i) = Fin 1
  /\ norm2 (vec_at (EvenAsphere._surface_normal ea (RealRays.x rays) (RealRays.y rays)) i)
     = Fin 1
  /\ exists v,
       ChebyshevPolynomialGeometry._surface_normal ch (RealRays.x rays) (RealRays.y rays)
       = Return v
       /\ norm2 (vec_at v i) = Fin 1.
Proof.
  intros Hx Hy Hi Hst Hea Hcea Hch Hcch Hin Hdom.
  split; [|split].
  - rewrite (Standard_normal_nth st rays n i Hx Hy Hi).
    destruct (Standard_normal_regular st _ _ Hst) as (a & b & _ & _ & ->).
    apply norm2_unit; ring.
  - rewrite (Even_normal_nth ea _ _ n i Hx Hy Hi).
    destruct (Even_gradient_regular ea _ _ Hea Hcea) as (a & b & Hg).
    rewrite (Even_normal_of_gradient ea _ _ a b Hg).
    apply norm2_unit; ring.
  - pose proof (Cheb_normal_seq ch _ _ n Hx Hy) as Hn.
    rewrite (existsb_seq_false _ n Hdom) in Hn.
    eexists. split; [exact Hn|].
    rewrite (Cheb_normal_nth ch _ _ n _ i Hx Hy Hi Hn).
    destruct (Cheb_gradient_regular ch _ _ Hch Hin Hcch) as (a & b & Hg).
    rewrite (Cheb_normal_of_gradient ch _ _ a b Hg).
    apply norm2_unit; ring.
Qed.

(** The example of the specification: [EvenAsphere(radius=50, conic=-1,
    coefficients=[1e-5])] off axis at [x = 5, y = 0], together with a
    sphere and a Chebyshev surface with two coefficients. *)
Lemma C5_unit_normal_witness :
  norm2 (vec_at (StandardGeometry.surface_normal sphere100 (one_ray 5 0 0 0 0 1)) 0)
  = Fin 1
  /\ norm2 (vec_at (EvenAsphere._surface_normal asphere50 [Fin 5] [Fin 0]) 0) = Fin 1
  /\ exists v,
       ChebyshevPolynomialGeometry._surface_normal
         (chebyshev100 (ChebyshevPolynomialGeometry.Coef2
                          [[Fin 0; Fin (/ 1000)]; [Fin (/ 2000); Fin 0]]))
         [Fin 5] [Fin 0] = Return v
       /\ norm2 (vec_at v 0) = Fin 1.
Proof.
  apply (C5_unit_normal sphere100 asphere50
           (chebyshev100 (ChebyshevPolynomialGeometry.Coef2
                            [[Fin 0; Fin (/ 1000)]; [Fin (/ 2000); Fin 0]]))
           (one_ray 5 0 0 0 0 1) 1 0).
  - reflexivity.
  - reflexivity.
  - lia.
  - apply regular_conic; lra.
  - apply regular_conic; lra.
  - repeat constructor.
  - apply regular_conic; lra.
  - repeat constructor.
  - apply (strictly_inside_Fin _ 5 0 10 10); try reflexivity; lra.
  - intros j Hj. assert (j = 0%nat) by lia. subst j.
    apply (in_domain_Fin _ 5 0 10 10); try reflexivity; lra.
Defined.

(** A flat surface ([radius = inf]) is regular everywhere: its normal has
    length one as well. *)
Example flat_normal_unit :
  norm2 (StandardGeometry.surface_normal1
           {| StandardGeometry.radius := PInf; StandardGeometry.k := Fin 0 |}
           (Fin 5) (Fin 3)) = Fin 1.
Proof.
  destruct (Standard_normal_regular
              {| StandardGeometry.radius := PInf; StandardGeometry.k := Fin 0 |}
              (Fin 5) (Fin 3) (regular_flat 0 5 3)) as (a & b & _ & _ & ->).
  apply norm2_unit; ring.
Qed.

(* ================================================================= *)
(** * Sign of the z component of the normal *)

Lemma inv_mag_pos a b : 0 < 1 / mag_of a b.
Proof.
  pose proof (mag_of_pos a b). apply Rdiv_lt_0_compat; lra.
Qed.

Lemma opp_inv_mag_neg a b : - 1 / mag_of a b < 0.
Proof.
  pose proof (inv_mag_pos a b). unfold Rdiv in *. lra.
Qed.

(** C6, as stated, fails for [StandardGeometry]: its [nz] is [dfdz / mag]
    with [dfdz = 1], a positive number, not [-1 / mag].  On the axis of the
    sphere of radius 100: *)
Lemma C6_standard_nz_counterexample :
  (exists r,
      snd (vec_at (StandardGeometry.surface_normal sphere100
                     (one_ray 0 0 (-50) 0 0 1)) 0) = Fin r /\ 0 < r)
  /\ ~ (exists mag,
          0 < mag /\
          snd (vec_at (StandardGeometry.surface_normal sphere100
                         (one_ray 0 0 (-50) 0 0 1)) 0) = Fin (- 1 / mag)).
Proof.
  assert (Hreg : regular (Fin 100) (Fin 0) (Fin 0) (Fin 0) = true)
    by (apply regular_conic; lra).
  rewrite (Standard_normal_nth sphere100 (one_ray 0 0 (-50) 0 0 1) 1 0)
    by (simpl; auto).
  cbn [nth one_ray RealRays.x RealRays.y].
  destruct (Standard_normal_regular sphere100 _ _ Hreg) as (a & b & _ & _ & ->).
  cbn [snd]. split.
  - exists (1 / mag_of a b). split; [reflexivity | apply inv_mag_pos].
  - intros (mag & Hmag & [= E]).
    pose proof (inv_mag_pos a b) as Hp. rewrite E in Hp.
    assert (0 < / mag) by now apply Rinv_0_lt_compat.
    unfold Rdiv in Hp. lra.
Qed.

(** C6 (amended): at every ray of a batch where the slope of the conic is
    defined (with finite coefficients and, for Chebyshev, normalised
    coordinates strictly inside of [-1, 1] in an in-domain batch), each
    method divides the slopes it has computed by
    [mag = sqrt(a^2 + b^2 + 1)]:
    - [StandardGeometry.surface_normal] returns
      [(-a / mag, -b / mag, +1 / mag)], where [a] and [b] are the conic
      slopes [x / (R sqrt(1 - (1 + k) r2 / R^2))] and
      [y / (R sqrt(1 - (1 + k) r2 / R^2))] (its [dfdx], [dfdy] are [-a]
      and [-b], the minus sign being in [denom]);
    - [ChebyshevPolynomialGeometry._surface_normal] returns
      [(-a / mag, -b / mag, +1 / mag)], where [a] and [b] are its
      [dzdx], [dzdy] after the loop over the coefficients;
    - [EvenAsphere._surface_normal] returns
      [(a / mag, b / mag, -1 / mag)], where [a] and [b] are its [dfdx],
      [dfdy] after the loop over the coefficients.
    The z component is positive for Standard and Chebyshev and negative
    for EvenAsphere: Standard and Chebyshev share one sign convention,
    EvenAsphere has the opposite one. *)
Theorem C6_normal_sign
  (st : StandardGeometry.t) (ea : EvenAsphere.t)
  (ch : ChebyshevPolynomialGeometry.t) (rays : RealRays.t) (n i : nat) :
  length (RealRays.x rays) = n -> length (RealRays.y rays) = n -> (i < n)%nat ->
  regular (StandardGeometry.radius st) (StandardGeometry.k st)
    (nth i (RealRays.x rays) NaN) (nth i (RealRays.y rays) NaN) = true ->
  regular (EvenAsphere.radius ea) (EvenAsphere.k ea)
    (nth i (RealRays.x rays) NaN) (nth i (RealRays.y rays) NaN) = true ->
  Forall (fun v => is_finite v = true) (EvenAsphere.c ea) ->
  regular (ChebyshevPolynomialGeometry.radius ch) (ChebyshevPolynomialGeometry.k ch)
    (nth i (RealRays.x rays) NaN) (nth i (RealRays.y rays) NaN) = true ->
  Forall (Forall (fun v => is_finite v = true)) (ChebyshevPolynomialGeometry.c ch) ->
  ChebyshevPolynomialGeometry.strictly_inside ch
    (nth i (RealRays.x rays) NaN) (nth i (RealRays.y rays) NaN) = true ->
  (forall j, (j < n)%nat ->
     ChebyshevPolynomialGeometry.out_of_domain1 ch
       (nth j (RealRays.x rays) NaN) (nth j (RealRays.y rays) NaN) = false) ->
  (exists a b,
      (nth i (RealRays.x rays) NaN
       / conic_denom (StandardGeometry.radius st) (StandardGeometry.k st)
           (nth i (RealRays.x rays) NaN) (nth i (RealRays.y rays) NaN))%fv = Fin a
      /\ (nth i (RealRays.y rays) NaN
          / conic_denom (StandardGeometry.radius st) (StandardGeometry.k st)
              (nth i (RealRays.x rays) NaN) (nth i (RealRays.y rays) NaN))%fv = Fin b
      /\ vec_at (StandardGeometry.surface_normal st rays) i
         = (Fin (- a / mag_of a b), Fin (- b / mag_of a b), Fin (1 / mag_of a b))
      /\ 0 < 1 / mag_of a b)
  /\ (exists a b,
        EvenAsphere.gradient1 ea
          (nth i (RealRays.x rays) NaN) (nth i (RealRays.y rays) NaN)
        = (Fin a, Fin b)
        /\ vec_at (EvenAsphere._surface_normal ea (RealRays.x rays) (RealRays.y rays)) i
           = (Fin (a / mag_of a b), Fin (b / mag_of a b), Fin (- 1 / mag_of a b))
        /\ - 1 / mag_of a b < 0)
  /\ (exists v a b,
        ChebyshevPolynomialGeometry._surface_normal ch (RealRays.x rays) (RealRays.y rays)
        = Return v
        /\ ChebyshevPolynomialGeometry.gradient1 ch
             (nth i (RealRays.x rays) NaN) (nth i (RealRays.y rays) NaN)
           = (Fin a, Fin b)
        /\ vec_at v i
           = (Fin (- a / mag_of a b), Fin (- b / mag_of a b), Fin (1 / mag_of a b))
        /\ 0 < 1 / mag_of a b).
Proof.
  intros Hx Hy Hi Hst Hea Hcea Hch Hcch Hin Hdom.
  split; [|split].
  - rewrite (Standard_normal_nth st rays n i Hx Hy Hi).
    destruct (Standard_normal_regular st _ _ Hst) as (a & b & Ha & Hb & ->).
    exists a, b. split; [exact Ha|]. split; [exact Hb|].
    split; [reflexivity | apply inv_mag_pos].
  - rewrite (Even_normal_nth ea _ _ n i Hx Hy Hi).
    destruct (Even_gradient_regular ea _ _ Hea Hcea) as (a & b & Hg).
    rewrite (Even_normal_of_gradient ea _ _ a b Hg).
    exists a, b. split; [exact Hg|].
    split; [reflexivity | apply opp_inv_mag_neg].
  - pose proof (Cheb_normal_seq ch _ _ n Hx Hy) as Hn.
    rewrite (existsb_seq_false _ n Hdom) in Hn.
    destruct (Cheb_gradient_regular ch _ _ Hch Hin Hcch) as (a & b & Hg).
    eexists; exists a, b. split; [exact Hn|]. split; [exact Hg|].
    rewrite (Cheb_normal_nth ch _ _ n _ i Hx Hy Hi Hn).
    rewrite (Cheb_normal_of_gradient ch _ _ a b Hg).
    split; [reflexivity | apply inv_mag_pos].
Qed.

(** The sphere of radius 100, [EvenAsphere(radius=50, conic=-1,
    coefficients=[1e-5])] and a Chebyshev surface with two coefficients,
    off axis at [x = 5, y = 0]. *)
Lemma C6_normal_sign_witness :
  (exists a b,
      (Fin 5 / conic_denom (Fin 100) (Fin 0) (Fin 5) (Fin 0))%fv = Fin a
      /\ (Fin 0 / conic_denom (Fin 100) (Fin 0) (Fin 5) (Fin 0))%fv = Fin b
      /\ vec_at (StandardGeometry.surface_normal sphere100 (one_ray 5 0 0 0 0 1)) 0
         = (Fin (- a / mag_of a b), Fin (- b / mag_of a b), Fin (1 / mag_of a b))
      /\ 0 < 1 / mag_of a b)
  /\ (exists a b,
        EvenAsphere.gradient1 asphere50 (Fin 5) (Fin 0) = (Fin a, Fin b)
        /\ vec_at (EvenAsphere._surface_normal asphere50 [Fin 5] [Fin 0]) 0
           = (Fin (a / mag_of a b), Fin (b / mag_of a b), Fin (- 1 / mag_of a b))
        /\ - 1 / mag_of a b < 0)
  /\ (exists v a b,
        ChebyshevPolynomialGeometry._surface_normal
          (chebyshev100 (ChebyshevPolynomialGeometry.Coef2
                           [[Fin 0; Fin (/ 1000)]; [Fin (/ 2000); Fin 0]]))
          [Fin 5] [Fin 0] = Return v
        /\ ChebyshevPolynomialGeometry.gradient1
             (chebyshev100 (ChebyshevPolynomialGeometry.Coef2
                              [[Fin 0; Fin (/ 1000)]; [Fin (/ 2000); Fin 0]]))
             (Fin 5) (Fin 0) = (Fin a, Fin b)
        /\ vec_at v 0
           = (Fin (- a / mag_of a b), Fin (- b / mag_of a b), Fin (1 / mag_of a b))
        /\ 0 < 1 / mag_of a b).
Proof.
  apply (C6_normal_sign sphere100 asphere50
           (chebyshev100 (ChebyshevPolynomialGeometry.Coef2
                            [[Fin 0; Fin (/ 1000)]; [Fin (/ 2000); Fin 0]]))
           (one_ray 5 0 0 0 0 1) 1 0).
  - reflexivity.
  - reflexivity.
  - lia.
  - apply regular_conic; lra.
  - apply regular_conic; lra.
  - repeat constructor.
  - apply regular_conic; lra.
  - repeat constructor.
  - apply (strictly_inside_Fin _ 5 0 10 10); try reflexivity; lra.
  - intros j Hj. assert (j = 0%nat) by lia. subst j.
    apply (in_domain_Fin _ 5 0 10 10); try reflexivity; lra.
Defined.

(* ================================================================= *)
(** * All-zero coefficients against [StandardGeometry] *)

(** C1, as stated, fails for the normal of [EvenAsphere]: without
    coefficients it is the opposite of the normal of [StandardGeometry]
    ([nz = -1 / mag] against [nz = dfdz / mag = 1 / mag]).  On the axis of
    the sphere of radius 100 the two calls return different vectors. *)
Lemma C1_even_normal_counterexample :
  regular (Fin 100) (Fin 0) (Fin 0) (Fin 0) = true
  /\ EvenAsphere._surface_normal (asphere100 []) [Fin 0] [Fin 0]
     <> StandardGeometry.surface_normal sphere100 (one_ray 0 0 (-50) 0 0 1).
Proof.
  assert (Hreg : regular (Fin 100) (Fin 0) (Fin 0) (Fin 0) = true)
    by (apply regular_conic; lra).
  split; [exact Hreg|]. intros E.
  assert (E0 : vec_at (EvenAsphere._surface_normal (asphere100 []) [Fin 0] [Fin 0]) 0
               = vec_at (StandardGeometry.surface_normal sphere100
                           (one_ray 0 0 (-50) 0 0 1)) 0) by now rewrite E.
  rewrite (Even_normal_nth (asphere100 []) [Fin 0] [Fin 0] 1 0) in E0
    by (simpl; auto).
  rewrite (Standard_normal_nth sphere100 (one_ray 0 0 (-50) 0 0 1) 1 0) in E0
    by (simpl; auto).
  cbn [nth one_ray RealRays.x RealRays.y] in E0.
  destruct (Standard_normal_regular sphere100 _ _ Hreg) as (a & b & _ & _ & Hs).
  destruct (Even_gradient_regular (asphere100 []) _ _ Hreg (Forall_nil _))
    as (a' & b' & Hg).
  rewrite Hs, (Even_normal_of_gradient _ _ _ a' b' Hg) in E0.
  injection E0 as _ _ Ez.
  pose proof (inv_mag_pos a b). pose proof (opp_inv_mag_neg a' b'). lra.
Qed.

(** C1 (amended): on a batch of finite coordinates, an [EvenAsphere]
    whose coefficients are all zero (or absent) and a
    [ChebyshevPolynomialGeometry] whose coefficient array is all zero (the
    batch being in its domain) return the sag of the [StandardGeometry] of
    the same radius and conic; the Chebyshev normal is the Standard
    normal, and the EvenAsphere normal is its opposite
    [(-nx, -ny, -nz)]. *)
Theorem C1_zero_coefficients
  (radius conic tol tol' nx ny : fval) (max_iter max_iter' : nat)
  (cs : list fval) (coefs : ChebyshevPolynomialGeometry.coefficients)
  (rays : RealRays.t) (n : nat) :
  let st := StandardGeometry.mk radius conic in
  let ea := EvenAsphere.mk radius conic tol max_iter cs in
  let ch := ChebyshevPolynomialGeometry.init radius conic tol' max_iter' coefs nx ny in
  let x := RealRays.x rays in
  let y := RealRays.y rays in
  length x = n -> length y = n ->
  Forall (fun v => is_finite v = true) x ->
  Forall (fun v => is_finite v = true) y ->
  Forall (fun v => v = Fin 0) cs ->
  Forall (Forall (fun v => v = Fin 0)) (ChebyshevPolynomialGeometry.atleast_2d coefs) ->
  (forall i, (i < n)%nat ->
     ChebyshevPolynomialGeometry.out_of_domain1 ch (nth i x NaN) (nth i y NaN) = false) ->
  EvenAsphere.sag ea x y = StandardGeometry.sag st x y
  /\ ChebyshevPolynomialGeometry.sag ch x y = Return (StandardGeometry.sag st x y)
  /\ ChebyshevPolynomialGeometry._surface_normal ch x y
     = Return (StandardGeometry.surface_normal st rays)
  /\ (forall i, (i < n)%nat ->
        vec_at (EvenAsphere._surface_normal ea x y) i
        = vneg (vec_at (StandardGeometry.surface_normal st rays) i)).
Proof.
  intros st ea ch x y Hx Hy Hfx Hfy Hcs Hcoefs Hdom.
  assert (Hfin : forall i, (i < n)%nat ->
            is_finite (nth i x NaN) = true /\ is_finite (nth i y NaN) = true).
  { intros i Hi. split.
    - apply (proj1 (Forall_nth _ x) Hfx). lia.
    - apply (proj1 (Forall_nth _ y) Hfy). lia. }
  split; [|split; [|split]].
  - rewrite (Even_sag_seq ea x y n Hx Hy), (Standard_sag_seq st x y n Hx Hy).
    apply map_seq_ext. intros i Hi.
    destruct (Hfin i Hi).
    now apply Even_zero_sag1.
  - rewrite (Cheb_sag_seq ch x y n Hx Hy), (Standard_sag_seq st x y n Hx Hy).
    rewrite (existsb_seq_false _ n Hdom). apply f_equal.
    apply map_seq_ext. intros i Hi.
    now apply Cheb_zero_sag1.
  - rewrite (Cheb_normal_seq ch x y n Hx Hy), (Standard_normal_seq st rays n Hx Hy).
    rewrite (existsb_seq_false _ n Hdom). apply f_equal.
    f_equal; [f_equal|]; apply map_seq_ext; intros i Hi;
      now rewrite (Cheb_zero_normal1 ch st).
  - intros i Hi.
    rewrite (Even_normal_nth ea x y n i Hx Hy Hi).
    rewrite (Standard_normal_nth st rays n i Hx Hy Hi).
    destruct (Hfin i Hi).
    now apply Even_zero_normal1.
Qed.

(** On the sphere of radius 100, at [(5, 3)] and on the rim of the conic
    at [(100, 0)], where every normal is [nan]. *)
Lemma C1_zero_coefficients_witness :
  let st := sphere100 in
  let ea := asphere100 [Fin 0; Fin 0] in
  let ch := ChebyshevPolynomialGeometry.init (Fin 100) (Fin 0) (Fin (/ 10000000000))
              100 (ChebyshevPolynomialGeometry.Coef1 []) (Fin 100) (Fin 100) in
  let rays := Ray.cols [Ray.mk (Fin 5) (Fin 3) (Fin 0) (Fin 0) (Fin 0) (Fin 1);
                        Ray.mk (Fin 100) (Fin 0) (Fin 0) (Fin 0) (Fin 0) (Fin 1)] in
  let x := [Fin 5; Fin 100] in
  let y := [Fin 3; Fin 0] in
  EvenAsphere.sag ea x y = StandardGeometry.sag st x y
  /\ ChebyshevPolynomialGeometry.sag ch x y = Return (StandardGeometry.sag st x y)
  /\ ChebyshevPolynomialGeometry._surface_normal ch x y
     = Return (StandardGeometry.surface_normal st rays)
  /\ (forall i, (i < 2)%nat ->
        vec_at (EvenAsphere._surface_normal ea x y) i
        = vneg (vec_at (StandardGeometry.surface_normal st rays) i)).
Proof.
  apply (C1_zero_coefficients (Fin 100) (Fin 0) (Fin (/ 10000000000))
           (Fin (/ 10000000000)) (Fin 100) (Fin 100) 100 100 [Fin 0; Fin 0]
           (ChebyshevPolynomialGeometry.Coef1 [])
           (Ray.cols [Ray.mk (Fin 5) (Fin 3) (Fin 0) (Fin 0) (Fin 0) (Fin 1);
                      Ray.mk (Fin 100) (Fin 0) (Fin 0) (Fin 0) (Fin 0) (Fin 1)]) 2).
  - reflexivity.
  - reflexivity.
  - repeat constructor.
  - repeat constructor.
  - repeat constructor.
  - repeat constructor.
  - intros i Hi.
    destruct i as [|[|i]]; [| |lia]; cbn [nth Ray.cols RealRays.x RealRays.y map Ray.x Ray.y].
    + apply (in_domain_Fin _ 5 3 100 100); try reflexivity; lra.
    + apply (in_domain_Fin _ 100 0 100 100); try reflexivity; lra.
Defined.

(* ================================================================= *)
(** * [StandardGeometry.distance] *)

Lemma forward_NaN : StandardGeometry.forward NaN = NaN.
Proof. reflexivity. Qed.

(** When [a == 0] holds the discriminant is [b**2], never negative. *)
Lemma discriminant_linear a b c :
  feqb a 0%fv = true -> fltb (fsq b - 4 * a * c)%fv 0%fv = false.
Proof.
  destruct a as [a0| | |]; simpl; try discriminate.
  intros Ha. apply Reqb_true in Ha. subst a0.
  unfold fsq, fsub.
  destruct b as [b0| | |], c as [c0| | |]; simpl; try reflexivity;
    try (apply Rltb_false; nra);
    rewrite ?(proj2 (Rltb_false 0 (4 * 0))), ?(proj2 (Rltb_false (4 * 0) 0)) by lra;
    reflexivity.
Qed.

(** A negative discriminant gives [nan]. *)
Lemma distance1_negative_discriminant g r :
  fltb (StandardGeometry.discriminant g r) 0%fv = true ->
  StandardGeometry.distance1 g r = NaN.
Proof.
  intros Hd. unfold StandardGeometry.distance1.
  assert (Ha : feqb (StandardGeometry.coef_a g r) 0%fv = false).
  { destruct (feqb (StandardGeometry.coef_a g r) 0%fv) eqn:E; [|reflexivity].
    unfold StandardGeometry.discriminant in Hd.
    rewrite (discriminant_linear _ _ _ E) in Hd. discriminate. }
  rewrite Ha.
  unfold StandardGeometry.root1, StandardGeometry.root2.
  rewrite (fsqrt_neg _ Hd). unfold fsub. cbn [fneg].
  rewrite !fadd_NaN_r. cbn [fdiv]. rewrite !forward_NaN.
  unfold StandardGeometry.z_after. cbn [fmul].
  rewrite fadd_NaN_r. reflexivity.
Qed.

(** The result at index [i] is a function of ray [i] alone. *)
Lemma distance_local g n rays rays' i :
  RealRays.wf n rays -> RealRays.wf n rays' -> (i < n)%nat ->
  Ray.at_ rays' i = Ray.at_ rays i ->
  nth i (StandardGeometry.distance g rays') NaN
  = nth i (StandardGeometry.distance g rays) NaN.
Proof.
  intros Hwf Hwf' Hi E.
  now rewrite (distance_nth g n rays i Hwf Hi), (distance_nth g n rays' i Hwf' Hi), E.
Qed.

Lemma distance_length g n rays :
  RealRays.wf n rays -> length (StandardGeometry.distance g rays) = n.
Proof.
  intros Hwf. rewrite (distance_rows g n rays Hwf).
  unfold Ray.rows. rewrite !length_map, length_seq. now destruct Hwf.
Qed.

Lemma forward_Fin t :
  StandardGeometry.forward (Fin t) = if Rltb t 0 then PInf else Fin t.
Proof. reflexivity. Qed.

(** The two roots of a ray with finite coefficients, [a <> 0] and a
    discriminant [s * s >= 0]. *)
Lemma roots_eval g r a b c s :
  StandardGeometry.coef_a g r = Fin a ->
  StandardGeometry.coef_b g r = Fin b ->
  StandardGeometry.coef_c g r = Fin c ->
  a <> 0 -> 0 <= s -> s * s = b * b - 4 * a * c ->
  StandardGeometry.root1 g r = StandardGeometry.forward (Fin ((- b + s) / (2 * a)))
  /\ StandardGeometry.root2 g r = StandardGeometry.forward (Fin ((- b - s) / (2 * a))).
Proof.
  intros Ha Hb Hc Ha0 Hs Hss.
  unfold StandardGeometry.root1, StandardGeometry.root2,
    StandardGeometry.discriminant.
  rewrite Ha, Hb, Hc. unfold fsq, fsub. cbn [fmul fadd fneg].
  replace (b * b + - (4 * a * c)) with (s * s) by lra.
  rewrite fsqrt_Fin by nra. rewrite sqrt_square by assumption.
  cbn [fadd fneg]. rewrite !fdiv_Fin by lra.
  split; reflexivity.
Qed.

(** The linear branch. *)
Lemma distance1_linear g r b c :
  StandardGeometry.coef_a g r = Fin 0 ->
  StandardGeometry.coef_b g r = Fin b ->
  StandardGeometry.coef_c g r = Fin c ->
  b <> 0 ->
  StandardGeometry.distance1 g r = Fin (- c / b).
Proof.
  intros Ha Hb Hc Hb0. unfold StandardGeometry.distance1.
  rewrite Ha, Hb, Hc. cbn [feqb fneg].
  rewrite (proj2 (Reqb_true 0 0) eq_refl).
  now apply fdiv_Fin.
Qed.

(** On the quadratic branch a finite result is never negative. *)
Lemma distance1_quadratic_nonneg g r t :
  feqb (StandardGeometry.coef_a g r) 0%fv = false ->
  StandardGeometry.distance1 g r = Fin t -> 0 <= t.
Proof.
  intros Ha. unfold StandardGeometry.distance1. rewrite Ha.
  assert (Hf : forall v, StandardGeometry.forward v = Fin t -> 0 <= t).
  { intros v. unfold StandardGeometry.forward.
    destruct (fltb v 0%fv) eqn:E; [discriminate|].
    intros ->. now apply fltb_0_finite. }
  destruct (fleb _ _); apply Hf.
Qed.

Lemma distance_one_ray g x y z L M N :
  StandardGeometry.distance g (one_ray x y z L M N)
  = [StandardGeometry.distance1 g
       (Ray.mk (Fin x) (Fin y) (Fin z) (Fin L) (Fin M) (Fin N))].
Proof.
  exact (distance_cols g [Ray.mk (Fin x) (Fin y) (Fin z) (Fin L) (Fin M) (Fin N)]).
Qed.


(** ** C2: the linear branch returns negative distances *)

(** C2 (code): on the paraboloid [radius = 1, conic = -1], a ray along the
    axis ([L = M = 0, N = 1]) has [a = 0]; from [z = 1], beyond the vertex,
    [distance] returns [-c / b = -1]: a finite negative value.  The line
    [t[a == 0] = -c[a == 0] / b[a == 0]] runs after the negative roots
    have been replaced by [inf] and is not filtered itself. *)
Theorem C2_linear_branch_negative :
  StandardGeometry.coef_a paraboloid
    (Ray.mk (Fin 0) (Fin 0) (Fin 1) (Fin 0) (Fin 0) (Fin 1)) = Fin 0
  /\ StandardGeometry.distance paraboloid (one_ray 0 0 1 0 0 1) = [Fin (-1)]
  /\ exists t,
       nth 0 (StandardGeometry.distance paraboloid (one_ray 0 0 1 0 0 1)) NaN = Fin t
       /\ t < 0.
Proof.
  set (r := Ray.mk (Fin 0) (Fin 0) (Fin 1) (Fin 0) (Fin 0) (Fin 1)).
  assert (Ha : StandardGeometry.coef_a paraboloid r = Fin 0)
    by (cbv [StandardGeometry.coef_a]; simpl; f_equal; lra).
  assert (Hb : StandardGeometry.coef_b paraboloid r = Fin (-2))
    by (cbv [StandardGeometry.coef_b]; simpl; f_equal; lra).
  assert (Hc : StandardGeometry.coef_c paraboloid r = Fin (-2))
    by (cbv [StandardGeometry.coef_c]; simpl; f_equal; lra).
  assert (Hd : StandardGeometry.distance paraboloid (one_ray 0 0 1 0 0 1) = [Fin (-1)]).
  { rewrite distance_one_ray. fold r.
    rewrite (distance1_linear paraboloid r (-2) (-2) Ha Hb Hc) by lra.
    do 2 f_equal. field. }
  split; [exact Ha|]. split; [exact Hd|].
  exists (-1). rewrite Hd. split; [reflexivity | lra].
Qed.

(** Where the linear branch is not taken, C2 holds: every finite entry of
    the result is non-negative. *)
Lemma distance_quadratic_nonneg g n rays i t :
  RealRays.wf n rays -> (i < n)%nat ->
  feqb (StandardGeometry.coef_a g (Ray.at_ rays i)) 0%fv = false ->
  nth i (StandardGeometry.distance g rays) NaN = Fin t -> 0 <= t.
Proof.
  intros Hwf Hi Ha. rewrite (distance_nth g n rays i Hwf Hi).
  now apply distance1_quadratic_nonneg.
Qed.

(** ** C3: the nearer of the two roots *)

(** C3 (code): on the sphere [radius = 1], a ray from the centre
    [(0, 0, 1)] at a right angle to the axis ([L = 1, N = 0]) has [a = 1]
    and discriminant 4; its roots are 1 and -1, the second replaced by
    [inf].  Then [z2 = z + inf * 0] is [nan], the test
    [abs(z1) <= abs(z2)] is false and [distance] returns [inf], not the
    root 1 whose point has [|z| = 1]. *)
Theorem C3_right_angle_ray :
  let r := Ray.mk (Fin 0) (Fin 0) (Fin 1) (Fin 1) (Fin 0) (Fin 0) in
  StandardGeometry.coef_a unit_sphere r = Fin 1
  /\ StandardGeometry.discriminant unit_sphere r = Fin 4
  /\ StandardGeometry.root1 unit_sphere r = Fin 1
  /\ StandardGeometry.root2 unit_sphere r = PInf
  /\ fabs (StandardGeometry.z_after r (StandardGeometry.root1 unit_sphere r)) = Fin 1
  /\ fabs (StandardGeometry.z_after r (StandardGeometry.root2 unit_sphere r)) = NaN
  /\ StandardGeometry.distance unit_sphere (one_ray 0 0 1 1 0 0) = [PInf].
Proof.
  intros r.
  assert (Ha : StandardGeometry.coef_a unit_sphere r = Fin 1)
    by (cbv [StandardGeometry.coef_a]; simpl; f_equal; lra).
  assert (Hb : StandardGeometry.coef_b unit_sphere r = Fin 0)
    by (cbv [StandardGeometry.coef_b]; simpl; f_equal; lra).
  assert (Hc : StandardGeometry.coef_c unit_sphere r = Fin (-1))
    by (cbv [StandardGeometry.coef_c]; simpl; f_equal; lra).
  assert (Hd : StandardGeometry.discriminant unit_sphere r = Fin 4).
  { unfold StandardGeometry.discriminant. rewrite Ha, Hb, Hc.
    unfold fsq, fsub; simpl. f_equal. lra. }
  destruct (roots_eval unit_sphere r 1 0 (-1) 2 Ha Hb Hc) as [H1 H2]; try lra.
  assert (H1' : StandardGeometry.root1 unit_sphere r = Fin 1).
  { rewrite H1. replace ((- 0 + 2) / (2 * 1)) with 1 by field.
    rewrite forward_Fin. now rewrite (proj2 (Rltb_false _ _)) by lra. }
  assert (H2' : StandardGeometry.root2 unit_sphere r = PInf).
  { rewrite H2. replace ((- 0 - 2) / (2 * 1)) with (-1) by field.
    rewrite forward_Fin. now rewrite (proj2 (Rltb_true _ _)) by lra. }
  assert (Hz1 : fabs (StandardGeometry.z_after r (StandardGeometry.root1 unit_sphere r))
                = Fin 1).
  { rewrite H1'. unfold StandardGeometry.z_after. simpl. f_equal.
    replace (1 + 1 * 0) with 1 by lra. apply Rabs_R1. }
  assert (Hz2 : fabs (StandardGeometry.z_after r (StandardGeometry.root2 unit_sphere r))
                = NaN).
  { rewrite H2'. unfold StandardGeometry.z_after. simpl.
    rewrite (proj2 (Rltb_false 0 0)) by lra. reflexivity. }
  repeat (split; [assumption|]).
  rewrite distance_one_ray. fold r. f_equal.
  unfold StandardGeometry.distance1. rewrite Ha, Hz1, Hz2, H2'.
  cbn [fleb fltb feqb orb].
  now rewrite (proj2 (Reqb_false 1 0)) by lra.
Qed.

Lemma fleb_refl v : v <> NaN -> fleb v v = true.
Proof.
  destruct v as [x| | |]; intros H; try reflexivity; [|congruence].
  unfold fleb; simpl. rewrite (proj2 (Reqb_true x x) eq_refl).
  apply orb_true_r.
Qed.

Lemma fleb_total a b :
  a <> NaN -> b <> NaN -> fleb a b = false -> fleb b a = true.
Proof.
  destruct a as [x| | |], b as [y| | |]; unfold fleb; simpl;
    intros Ha Hb H; try reflexivity; try discriminate; try congruence.
  apply orb_false_iff in H as [H1 H2].
  apply Rltb_false in H1. apply Reqb_false in H2.
  apply orb_true_iff; left. apply Rltb_true. lra.
Qed.

(** A forward root of a finite value is that value or [inf]; with
    [N <> 0] the point it reaches has a z coordinate that is not [nan]. *)
Lemma z_after_forward r z N t :
  Ray.z r = Fin z -> Ray.N r = Fin N -> N <> 0 ->
  fabs (StandardGeometry.z_after r (StandardGeometry.forward (Fin t))) <> NaN.
Proof.
  intros Hz HN HN0. unfold StandardGeometry.z_after. rewrite Hz, HN, forward_Fin.
  destruct (Rltb t 0); simpl; [|discriminate].
  destruct (Rlt_dec 0 N), (Rlt_dec N 0); unfold Rltb; simpl; try lra;
    repeat match goal with
      | |- context [Rlt_dec ?a ?b] => destruct (Rlt_dec a b)
      end; simpl; try discriminate; lra.
Qed.

(** Where no [inf * 0] arises ([N <> 0]) C3 holds: the result is one of
    the two forward roots, and no root reaches a point with a smaller
    [|z + t * N|]. *)
Lemma distance1_nearest_root g r a b c z N :
  StandardGeometry.coef_a g r = Fin a ->
  StandardGeometry.coef_b g r = Fin b ->
  StandardGeometry.coef_c g r = Fin c ->
  Ray.z r = Fin z -> Ray.N r = Fin N ->
  a <> 0 -> 0 <= b * b - 4 * a * c -> N <> 0 ->
  let t := StandardGeometry.distance1 g r in
  (t = StandardGeometry.root1 g r \/ t = StandardGeometry.root2 g r)
  /\ fleb (fabs (StandardGeometry.z_after r t))
          (fabs (StandardGeometry.z_after r (StandardGeometry.root1 g r))) = true
  /\ fleb (fabs (StandardGeometry.z_after r t))
          (fabs (StandardGeometry.z_after r (StandardGeometry.root2 g r))) = true.
Proof.
  intros Ha Hb Hc Hz HN Ha0 Hd HN0 t.
  destruct (roots_eval g r a b c (sqrt (b * b - 4 * a * c)) Ha Hb Hc Ha0) as [H1 H2].
  { apply sqrt_pos. }
  { now apply sqrt_sqrt. }
  pose proof (z_after_forward r z N ((- b + sqrt (b * b - 4 * a * c)) / (2 * a))
                Hz HN HN0) as Hn1.
  pose proof (z_after_forward r z N ((- b - sqrt (b * b - 4 * a * c)) / (2 * a))
                Hz HN HN0) as Hn2.
  rewrite <- H1 in Hn1. rewrite <- H2 in Hn2.
  subst t. unfold StandardGeometry.distance1.
  rewrite Ha. cbn [feqb]. rewrite (proj2 (Reqb_false a 0) Ha0).
  destruct (fleb (fabs (StandardGeometry.z_after r (StandardGeometry.root1 g r)))
                 (fabs (StandardGeometry.z_after r (StandardGeometry.root2 g r))))
    eqn:E.
  - split; [now left|]. split; [now apply fleb_refl | exact E].
  - split; [now right|]. split; [now apply fleb_total | now apply fleb_refl].
Qed.

(** ** C7: negative discriminants *)

(** C7: on a batch of [n] rays [distance] returns an array of [n] values
    (the model of the call is a total function: nothing is raised); a ray
    whose discriminant is negative gets [nan]; and the value of a ray
    depends on that ray alone, so it is the same in every batch that holds
    the same ray at the same index, whatever the other rays do. *)
Theorem C7_negative_discriminant g n rays :
  RealRays.wf n rays ->
  length (StandardGeometry.distance g rays) = n
  /\ (forall i, (i < n)%nat ->
        fltb (StandardGeometry.discriminant g (Ray.at_ rays i)) 0%fv = true ->
        nth i (StandardGeometry.distance g rays) NaN = NaN)
  /\ (forall i, (i < n)%nat ->
        nth i (StandardGeometry.distance g rays) NaN
        = StandardGeometry.distance1 g (Ray.at_ rays i))
  /\ (forall rays' i, RealRays.wf n rays' -> (i < n)%nat ->
        Ray.at_ rays' i = Ray.at_ rays i ->
        nth i (StandardGeometry.distance g rays') NaN
        = nth i (StandardGeometry.distance g rays) NaN).
Proof.
  intros Hwf. split; [|split; [|split]].
  - now apply distance_length.
  - intros i Hi Hd. rewrite (distance_nth g n rays i Hwf Hi).
    now apply distance1_negative_discriminant.
  - intros i Hi. now apply (distance_nth g n).
  - intros rays' i Hwf' Hi E. now apply (distance_local g n).
Qed.

Lemma C7_negative_discriminant_witness :
  RealRays.wf 2 two_rays
  /\ length (StandardGeometry.distance sphere100 two_rays) = 2%nat
  /\ (forall i, (i < 2)%nat ->
        fltb (StandardGeometry.discriminant sphere100 (Ray.at_ two_rays i)) 0%fv = true ->
        nth i (StandardGeometry.distance sphere100 two_rays) NaN = NaN)
  /\ (forall i, (i < 2)%nat ->
        nth i (StandardGeometry.distance sphere100 two_rays) NaN
        = StandardGeometry.distance1 sphere100 (Ray.at_ two_rays i))
  /\ (forall rays' i, RealRays.wf 2 rays' -> (i < 2)%nat ->
        Ray.at_ rays' i = Ray.at_ two_rays i ->
        nth i (StandardGeometry.distance sphere100 rays') NaN
        = nth i (StandardGeometry.distance sphere100 two_rays) NaN).
Proof.
  assert (Hwf : RealRays.wf 2 two_rays) by (repeat split; reflexivity).
  split; [exact Hwf|].
  exact (C7_negative_discriminant sphere100 2 two_rays Hwf).
Defined.


(* ================================================================= *)
(** * The domain error of [ChebyshevPolynomialGeometry] *)

Lemma any_gts_abs_divs (x : np.ndarray) (s : fval) :
  np.any (np.gts (np.abs (np.divs x s)) 1%fv) = true
  <-> Exists (fun v => fgtb (fabs (v / s)%fv) 1%fv = true) x.
Proof.
  unfold np.gts, np.abs, np.divs. rewrite !map_map, any_map.
  rewrite existsb_exists, Exists_exists. reflexivity.
Qed.

Lemma out_of_domain_iff g (x y : np.ndarray) :
  ChebyshevPolynomialGeometry.out_of_domain
    (np.divs x (ChebyshevPolynomialGeometry.norm_x g))
    (np.divs y (ChebyshevPolynomialGeometry.norm_y g)) = true
  <-> Exists (fun v => fgtb (fabs (v / ChebyshevPolynomialGeometry.norm_x g)%fv) 1%fv = true) x
      \/ Exists (fun v => fgtb (fabs (v / ChebyshevPolynomialGeometry.norm_y g)%fv) 1%fv = true) y.
Proof.
  unfold ChebyshevPolynomialGeometry.out_of_domain.
  rewrite orb_true_iff, !any_gts_abs_divs. reflexivity.
Qed.

Lemma fleb_not_gt a b : fleb a b = true -> fgtb a b = false.
Proof.
  unfold fleb, fgtb.
  destruct a as [x| | |], b as [y| | |]; simpl; intros H;
    try reflexivity; try discriminate.
  apply orb_true_iff in H. apply Rltb_false.
  destruct H as [H | H]; [apply Rltb_true in H | apply Reqb_true in H]; lra.
Qed.

(** C4: [sag] and [_surface_normal] raise [ValueError] exactly when some
    entry of [x] has [|x / norm_x| > 1] or some entry of [y] has
    [|y / norm_y| > 1]; the raised call returns no array at all; a batch
    whose coordinates all satisfy [|u| <= 1], the boundary included, is
    accepted, and then both calls return one value per ray. *)
Theorem C4_domain_error (g : ChebyshevPolynomialGeometry.t) (x y : np.ndarray) :
  length x = length y ->
  let bad :=
    Exists (fun v => fgtb (fabs (v / ChebyshevPolynomialGeometry.norm_x g)%fv) 1%fv = true) x
    \/ Exists (fun v => fgtb (fabs (v / ChebyshevPolynomialGeometry.norm_y g)%fv) 1%fv = true) y in
  (ChebyshevPolynomialGeometry.sag g x y = Raise ValueError <-> bad)
  /\ (ChebyshevPolynomialGeometry._surface_normal g x y = Raise ValueError <-> bad)
  /\ (bad -> (forall z, ChebyshevPolynomialGeometry.sag g x y <> Return z)
             /\ (forall v, ChebyshevPolynomialGeometry._surface_normal g x y <> Return v))
  /\ (~ bad ->
      exists z nx ny nz,
        ChebyshevPolynomialGeometry.sag g x y = Return z
        /\ ChebyshevPolynomialGeometry._surface_normal g x y = Return (nx, ny, nz)
        /\ length z = length x /\ length nx = length x
        /\ length ny = length x /\ length nz = length x)
  /\ (Forall (fun v => fleb (fabs (v / ChebyshevPolynomialGeometry.norm_x g)%fv) 1%fv = true) x ->
      Forall (fun v => fleb (fabs (v / ChebyshevPolynomialGeometry.norm_y g)%fv) 1%fv = true) y ->
      ~ bad).
Proof.
  intros Hlen bad.
  pose proof (out_of_domain_iff g x y) as Hood. fold bad in Hood.
  assert (Hsag : ChebyshevPolynomialGeometry.sag g x y = Raise ValueError <-> bad).
  { rewrite <- Hood. unfold ChebyshevPolynomialGeometry.sag; cbv zeta.
    destruct (ChebyshevPolynomialGeometry.out_of_domain _ _);
      split; intros H; try reflexivity; discriminate. }
  assert (Hnor : ChebyshevPolynomialGeometry._surface_normal g x y = Raise ValueError
                 <-> bad).
  { rewrite <- Hood. unfold ChebyshevPolynomialGeometry._surface_normal; cbv zeta.
    destruct (ChebyshevPolynomialGeometry.out_of_domain _ _).
    - split; reflexivity.
    - destruct (fold_left _ _ _). split; intros H; discriminate. }
  split; [exact Hsag|]. split; [exact Hnor|]. split; [|split].
  - intros Hbad. apply Hsag in Hbad as Hs. apply Hnor in Hbad as Hn.
    split; intros v; [rewrite Hs | rewrite Hn]; discriminate.
  - intros Hok.
    pose proof (Cheb_sag_seq g x y (length x) eq_refl (eq_sym Hlen)) as Hs.
    pose proof (Cheb_normal_seq g x y (length x) eq_refl (eq_sym Hlen)) as Hn.
    destruct (existsb _ _).
    + exfalso. apply Hok, Hsag, Hs.
    + do 4 eexists. split; [exact Hs|]. split; [exact Hn|].
      now rewrite !length_map, length_seq.
  - intros Hx Hy [Hbad | Hbad]; apply Exists_exists in Hbad as (v & Hin & Hv).
    + rewrite Forall_forall in Hx. apply Hx, fleb_not_gt in Hin. congruence.
    + rewrite Forall_forall in Hy. apply Hy, fleb_not_gt in Hin. congruence.
Qed.

Lemma fleb_abs_div x0 nx :
  nx <> 0 -> -1 <= x0 / nx <= 1 -> fleb (fabs (Fin x0 / Fin nx)%fv) 1%fv = true.
Proof.
  intros Hnx H. rewrite fdiv_Fin by assumption. unfold fleb; simpl.
  assert (Rabs (x0 / nx) <= 1) by (apply Rabs_le; lra).
  destruct (Rlt_dec (Rabs (x0 / nx)) 1) as [Hlt | Hge].
  - now rewrite (proj2 (Rltb_true _ _) Hlt).
  - rewrite (proj2 (Reqb_true (Rabs (x0 / nx)) 1)) by lra. apply orb_true_r.
Qed.

Lemma fgtb_abs_div x0 nx :
  nx <> 0 -> 1 < x0 / nx -> fgtb (fabs (Fin x0 / Fin nx)%fv) 1%fv = true.
Proof.
  intros Hnx H. rewrite fdiv_Fin by assumption. unfold fgtb; simpl.
  apply Rltb_true. rewrite Rabs_pos_eq; lra.
Qed.

(** With [norm_x = norm_y = 10]: a batch on the boundary [x = 10, -10] is
    accepted and gets two values; a batch with [x = 11] raises. *)
Lemma C4_domain_error_witness :
  let g := chebyshev100 (ChebyshevPolynomialGeometry.Coef2 [[Fin 0; Fin (/ 1000)]]) in
  (exists z, ChebyshevPolynomialGeometry.sag g [Fin 10; Fin (-10)] [Fin 0; Fin 5]
             = Return z /\ length z = 2%nat)
  /\ ChebyshevPolynomialGeometry.sag g [Fin 5; Fin 11] [Fin 0; Fin 0] = Raise ValueError
  /\ ChebyshevPolynomialGeometry._surface_normal g [Fin 5; Fin 11] [Fin 0; Fin 0]
     = Raise ValueError.
Proof.
  intros g. split; [|split].
  - destruct (C4_domain_error g [Fin 10; Fin (-10)] [Fin 0; Fin 5] eq_refl)
      as (_ & _ & _ & Hok & Hb).
    destruct Hok as (z & nx & ny & nz & Hz & _ & Hl & _).
    + apply Hb; repeat constructor; apply fleb_abs_div; lra.
    + exists z. split; [exact Hz | exact Hl].
  - destruct (C4_domain_error g [Fin 5; Fin 11] [Fin 0; Fin 0] eq_refl)
      as (Hs & _).
    apply Hs. left. apply Exists_cons_tl, Exists_cons_hd.
    apply fgtb_abs_div; lra.
  - destruct (C4_domain_error g [Fin 5; Fin 11] [Fin 0; Fin 0] eq_refl)
      as (_ & Hn & _).
    apply Hn. left. apply Exists_cons_tl, Exists_cons_hd.
    apply fgtb_abs_div; lra.
Defined.

(* ================================================================= *)
(** * [np.argwhere(c != 0)] and the entries different from zero *)

Lemma enumerate_nth {A : Type} (l : list A) (d : A) :
  enumerate l = map (fun i => (i, nth i l d)) (seq 0 (length l)).
Proof.
  unfold enumerate. rewrite (as_map_seq l d) at 2.
  generalize (seq 0 (length l)) as idx. intros idx.
  induction idx as [|i idx IH]; simpl; [reflexivity | now rewrite IH].
Qed.

Lemma filter_none {A : Type} (p : A -> bool) (l : list A) :
  (forall a, In a l -> p a = false) -> filter p l = [].
Proof.
  induction l as [|a l IH]; intros H; simpl; [reflexivity|].
  rewrite (H a) by now left. apply IH. intros b Hb. apply H. now right.
Qed.

Lemma flat_map_none {A B : Type} (f : A -> list B) (l : list A) :
  (forall a, In a l -> f a = []) -> flat_map f l = [].
Proof.
  induction l as [|a l IH]; intros H; simpl; [reflexivity|].
  rewrite (H a) by now left. apply IH. intros b Hb. apply H. now right.
Qed.

Lemma seq_split n m : (n <= m)%nat -> seq 0 m = seq 0 n ++ seq n (m - n).
Proof.
  intros H. replace m with (n + (m - n))%nat at 1 by lia. apply seq_app.
Qed.

(** The columns of a row that differ from zero, over any range of columns
    that covers the row. *)
Lemma nonzero_cols_box row m :
  (length row <= m)%nat ->
  ChebyshevPolynomialGeometry.nonzero_cols row
  = filter (fun j => fneb (nth j row 0%fv) 0%fv) (seq 0 m).
Proof.
  intros Hm. unfold ChebyshevPolynomialGeometry.nonzero_cols.
  rewrite (enumerate_nth row 0%fv), filter_map_swap, map_map. cbn [fst].
  rewrite map_id, (seq_split (length row) m Hm), filter_app.
  rewrite (filter_none _ (seq (length row) (m - length row))).
  - now rewrite app_nil_r.
  - intros j Hj. apply in_seq in Hj.
    rewrite nth_overflow by lia. unfold fneb; simpl.
    now rewrite (proj2 (Reqb_true 0 0) eq_refl).
Qed.

(** [argwhere] over any box of indices that covers the array. *)
Lemma argwhere_box c n m :
  (length c <= n)%nat -> Forall (fun row => (length row <= m)%nat) c ->
  ChebyshevPolynomialGeometry.argwhere_ne0 c
  = flat_map
      (fun i => map (fun j => (i, j))
                  (filter (fun j => fneb (ChebyshevPolynomialGeometry.entry c i j) 0%fv)
                          (seq 0 m)))
      (seq 0 n).
Proof.
  intros Hn Hm. unfold ChebyshevPolynomialGeometry.argwhere_ne0.
  assert (Hrow : forall i, (length (nth i c []) <= m)%nat).
  { intros i. destruct (nth_in_or_default i c []) as [Hin | ->]; [|simpl; lia].
    rewrite Forall_forall in Hm. now apply Hm. }
  rewrite (enumerate_nth c []), flat_map_concat_map, map_map,
    <- flat_map_concat_map.
  rewrite (seq_split (length c) n Hn), flat_map_app.
  rewrite (flat_map_none _ (seq (length c) (n - length c))).
  - rewrite app_nil_r. apply flat_map_ext. intros i.
    now rewrite (nonzero_cols_box _ m (Hrow i)).
  - intros i Hi. apply in_seq in Hi.
    rewrite filter_none; [reflexivity|].
    intros j _. unfold ChebyshevPolynomialGeometry.entry.
    rewrite (nth_overflow c) by lia.
    destruct j; unfold fneb; simpl; now rewrite (proj2 (Reqb_true 0 0) eq_refl).
Qed.

Lemma length_le_width (c : list (list fval)) :
  Forall (fun row => (length row <= fold_right Nat.max 0%nat (map (@length fval) c))%nat) c.
Proof.
  induction c as [|row c IH]; constructor; simpl.
  - lia.
  - eapply Forall_impl; [|exact IH]. simpl. intros r Hr. lia.
Qed.

Lemma argwhere_same_nonzero c1 c2 :
  ChebyshevPolynomialGeometry.same_nonzero c1 c2 ->
  ChebyshevPolynomialGeometry.argwhere_ne0 c1
  = ChebyshevPolynomialGeometry.argwhere_ne0 c2.
Proof.
  intros Hsame.
  set (n := Nat.max (length c1) (length c2)).
  set (w1 := fold_right Nat.max 0%nat (map (@length fval) c1)).
  set (w2 := fold_right Nat.max 0%nat (map (@length fval) c2)).
  rewrite (argwhere_box c1 n (Nat.max w1 w2)), (argwhere_box c2 n (Nat.max w1 w2)).
  - apply flat_map_ext. intros i. f_equal. apply filter_ext. intros j.
    specialize (Hsame i j).
    destruct (fneb (ChebyshevPolynomialGeometry.entry c1 i j) 0%fv) eqn:E1.
    + now rewrite <- Hsame, E1 by now left.
    + destruct (fneb (ChebyshevPolynomialGeometry.entry c2 i j) 0%fv) eqn:E2;
        [|reflexivity].
      rewrite Hsame in E1 by now right. congruence.
  - subst n; lia.
  - eapply Forall_impl; [|apply length_le_width]. simpl. intros r Hr. fold w2 in Hr. lia.
  - subst n; lia.
  - eapply Forall_impl; [|apply length_le_width]. simpl. intros r Hr. fold w1 in Hr. lia.
Qed.

Lemma argwhere_nonzero c i j :
  In (i, j) (ChebyshevPolynomialGeometry.argwhere_ne0 c) ->
  fneb (ChebyshevPolynomialGeometry.entry c i j) 0%fv = true.
Proof.
  rewrite (argwhere_box c (length c) (fold_right Nat.max 0%nat (map (@length fval) c)))
    by (auto; apply length_le_width).
  intros H. apply in_flat_map in H as (i' & _ & H).
  apply in_map_iff in H as (j' & [= -> ->] & H).
  now apply filter_In in H.
Qed.

Lemma fold_left_ext_in {A B : Type} (f g : A -> B -> A) (l : list B) :
  (forall a b, In b l -> f a b = g a b) ->
  forall a, fold_left f l a = fold_left g l a.
Proof.
  induction l as [|b l IH]; intros H a; simpl; [reflexivity|].
  rewrite (H a b) by now left. apply IH. intros a' b' Hb'. apply H. now right.
Qed.

(** C9: [sag] and [_surface_normal] depend on the coefficient array only
    through its entries different from zero.  Replacing the array by one
    with the same such entries (for instance the array with more rows or
    columns of zeros) changes neither result: the same arrays of values
    for every batch, and the same error outside of the domain. *)
Theorem C9_nonzero_entries
  (g : ChebyshevPolynomialGeometry.t) (c' : list (list fval)) (x y : np.ndarray) :
  ChebyshevPolynomialGeometry.same_nonzero (ChebyshevPolynomialGeometry.c g) c' ->
  ChebyshevPolynomialGeometry.sag (ChebyshevPolynomialGeometry.with_c g c') x y
  = ChebyshevPolynomialGeometry.sag g x y
  /\ ChebyshevPolynomialGeometry._surface_normal
       (ChebyshevPolynomialGeometry.with_c g c') x y
     = ChebyshevPolynomialGeometry._surface_normal g x y.
Proof.
  intros Hsame.
  pose proof (argwhere_same_nonzero _ _ Hsame) as Harg.
  assert (Hentry : forall i j,
             In (i, j) (ChebyshevPolynomialGeometry.argwhere_ne0 c') ->
             ChebyshevPolynomialGeometry.entry c' i j
             = ChebyshevPolynomialGeometry.entry (ChebyshevPolynomialGeometry.c g) i j).
  { intros i j Hin. symmetry. apply Hsame. right. now apply argwhere_nonzero. }
  unfold ChebyshevPolynomialGeometry.sag, ChebyshevPolynomialGeometry._surface_normal,
    ChebyshevPolynomialGeometry.with_c; cbv zeta.
  cbn [ChebyshevPolynomialGeometry.radius ChebyshevPolynomialGeometry.k
       ChebyshevPolynomialGeometry.c ChebyshevPolynomialGeometry.norm_x
       ChebyshevPolynomialGeometry.norm_y].
  rewrite Harg.
  destruct (ChebyshevPolynomialGeometry.out_of_domain _ _); [split; reflexivity|].
  split.
  - f_equal. apply fold_left_ext_in. intros z [i j] Hin.
    now rewrite (Hentry i j Hin).
  - match goal with
    | |- (let '(_, _) := fold_left ?f ?l ?a in _) = (let '(_, _) := fold_left ?h _ _ in _) =>
        rewrite (fold_left_ext_in f h l)
    end; [reflexivity|].
    intros [dzdx dzdy] [i j] Hin. now rewrite (Hentry i j Hin).
Qed.

(** The array [[0, 1e-3]] and the same array with a column and a row of
    zeros added. *)
Lemma C9_nonzero_entries_witness :
  let g := chebyshev100 (ChebyshevPolynomialGeometry.Coef2 [[Fin 0; Fin (/ 1000)]]) in
  let g' := chebyshev100 (ChebyshevPolynomialGeometry.Coef2
                            [[Fin 0; Fin (/ 1000); Fin 0]; [Fin 0; Fin 0; Fin 0]]) in
  ChebyshevPolynomialGeometry.sag g' [Fin 5; Fin 1] [Fin 0; Fin 2]
  = ChebyshevPolynomialGeometry.sag g [Fin 5; Fin 1] [Fin 0; Fin 2]
  /\ ChebyshevPolynomialGeometry._surface_normal g' [Fin 5; Fin 1] [Fin 0; Fin 2]
     = ChebyshevPolynomialGeometry._surface_normal g [Fin 5; Fin 1] [Fin 0; Fin 2].
Proof.
  intros g g'.
  apply (C9_nonzero_entries g [[Fin 0; Fin (/ 1000); Fin 0]; [Fin 0; Fin 0; Fin 0]]).
  intros i j _.
  destruct i as [|[|[|i]]]; destruct j as [|[|[|[|j]]]]; reflexivity.
Defined.

(* ================================================================= *)
(** * [ParaxialRays] *)

Lemma length_update h l a : length (Store.update h l a) = length h.
Proof.
  revert l. induction h as [|v h IH]; intros [|l]; simpl; auto.
Qed.

Lemma lookup_update_same h l a :
  (l < length h)%nat -> Store.lookup (Store.update h l a) l = a.
Proof.
  unfold Store.lookup. revert l.
  induction h as [|v h IH]; intros [|l] Hl; simpl in *; try lia; auto.
  apply IH. lia.
Qed.

Lemma lookup_update_other h l l' a :
  l <> l' -> Store.lookup (Store.update h l a) l' = Store.lookup h l'.
Proof.
  unfold Store.lookup. revert l l'.
  induction h as [|v h IH]; intros [|l] [|l'] Hne; simpl; auto; try congruence.
Qed.



Lemma length_zipWith {A B C : Type} (f : A -> B -> C) (l1 : list A) (l2 : list B) :
  length l1 = length l2 -> length (np.zipWith f l1 l2) = length l1.
Proof.
  revert l2. induction l1 as [|a l1 IH]; intros [|b l2] H; simpl in *;
    try discriminate; auto.
Qed.

Lemma iadd_length a b a' : np.iadd a b = Return a' -> length a' = length a.
Proof.
  unfold np.iadd. destruct (Nat.eqb (length b) (length a)) eqn:E.
  - intros [= <-]. apply Nat.eqb_eq in E. unfold np.add.
    now apply length_zipWith.
  - destruct b as [|s [|? ?]]; try discriminate.
    intros [= <-]. unfold np.adds. apply length_map.
Qed.

Lemma zeros_like_repeat a : np.zeros_like a = repeat (Fin 0) (length a).
Proof. unfold np.zeros_like. induction a; simpl; [reflexivity | now f_equal]. Qed.

Lemma ones_like_repeat a : np.ones_like a = repeat (Fin 1) (length a).
Proof. unfold np.ones_like. induction a; simpl; [reflexivity | now f_equal]. Qed.

(** [propagate] written out on the store. *)
Lemma propagate_unfold self t h :
  ParaxialRays.propagate self t h
  = let h1 := Store.update h (ParaxialRays.z self)
                (np.adds (Store.lookup h (ParaxialRays.z self)) t) in
    match np.iadd (Store.lookup h1 (ParaxialRays.y self))
                  (np.smul t (Store.lookup h1 (ParaxialRays.u self))) with
    | Return a => Return (tt, Store.update h1 (ParaxialRays.y self) a)
    | Raise e => Raise e
    end.
Proof.
  unfold ParaxialRays.propagate, Store.bind, Store.read, Store.write, Store.lift.
  cbv zeta.
  destruct (np.iadd _ _); reflexivity.
Qed.

Lemma wf_distinct self h :
  ParaxialRays.wf self h ->
  let y := ParaxialRays.y self in let z := ParaxialRays.z self in
  let u := ParaxialRays.u self in let x := ParaxialRays.x self in
  let i := ParaxialRays.i self in let w := ParaxialRays.w self in
  (y <> z /\ y <> u /\ y <> x /\ y <> i /\ y <> w /\
   z <> u /\ z <> x /\ z <> i /\ z <> w)
  /\ ((y < length h)%nat /\ (z < length h)%nat).
Proof.
  intros [Hnd Hin]. cbv zeta.
  repeat match goal with
    | H : NoDup (_ :: _) |- _ => inversion H; clear H; subst
    end.
  inversion Hin as [|? ? Hy Hin']; subst. inversion Hin' as [|? ? Hz _]; subst.
  simpl in *. repeat split; auto; intros E; rewrite E in *; tauto.
Qed.

(** C8: on a ray object whose fields are different arrays, [y] and [u] of
    one length, [propagate(t)] returns, and in the store it leaves [z]
    holds [z + t], [y] holds [y + t * u], and every other array, [x], [u],
    [w] and [i] among them, is what it was. *)
Theorem C8_propagate (self : ParaxialRays.t) (t : fval) (h : Store.t) :
  ParaxialRays.wf self h ->
  length (Store.lookup h (ParaxialRays.u self))
  = length (Store.lookup h (ParaxialRays.y self)) ->
  exists h',
    ParaxialRays.propagate self t h = Return (tt, h')
    /\ Store.lookup h' (ParaxialRays.z self)
       = np.adds (Store.lookup h (ParaxialRays.z self)) t
    /\ Store.lookup h' (ParaxialRays.y self)
       = np.add (Store.lookup h (ParaxialRays.y self))
                (np.smul t (Store.lookup h (ParaxialRays.u self)))
    /\ Store.lookup h' (ParaxialRays.x self) = Store.lookup h (ParaxialRays.x self)
    /\ Store.lookup h' (ParaxialRays.u self) = Store.lookup h (ParaxialRays.u self)
    /\ Store.lookup h' (ParaxialRays.w self) = Store.lookup h (ParaxialRays.w self)
    /\ Store.lookup h' (ParaxialRays.i self) = Store.lookup h (ParaxialRays.i self)
    /\ (forall l, l <> ParaxialRays.y self -> l <> ParaxialRays.z self ->
          Store.lookup h' l = Store.lookup h l)
    /\ length h' = length h.
Proof.
  intros Hwf Hlen.
  destruct (wf_distinct self h Hwf)
    as ((Hyz & Hyu & Hyx & Hyi & Hyw & Hzu & Hzx & Hzi & Hzw) & Hy & Hz).
  rewrite propagate_unfold; cbv zeta.
  rewrite !(lookup_update_other h (ParaxialRays.z self)) by auto.
  unfold np.iadd at 1. unfold np.smul at 1. rewrite length_map, Hlen, Nat.eqb_refl.
  eexists. split; [reflexivity|].
  assert (Hother : forall l, l <> ParaxialRays.y self -> l <> ParaxialRays.z self ->
            Store.lookup
              (Store.update
                 (Store.update h (ParaxialRays.z self)
                    (np.adds (Store.lookup h (ParaxialRays.z self)) t))
                 (ParaxialRays.y self)
                 (np.add (Store.lookup h (ParaxialRays.y self))
                    (map (fmul t) (Store.lookup h (ParaxialRays.u self))))) l
            = Store.lookup h l).
  { intros l Hly Hlz. now rewrite !lookup_update_other by auto. }
  repeat split.
  - rewrite lookup_update_other by auto. now apply lookup_update_same.
  - apply lookup_update_same. now rewrite length_update.
  - apply Hother; auto.
  - apply Hother; auto.
  - apply Hother; auto.
  - apply Hother; auto.
  - exact Hother.
  - now rewrite !length_update.
Qed.

Lemma lookup_app_offset h l k :
  Store.lookup (h ++ l) (length h + k)%nat = nth k l [].
Proof. unfold Store.lookup. apply app_nth2_plus. Qed.

Lemma lookup_app_first h a l : Store.lookup (h ++ a :: l) (length h) = a.
Proof.
  unfold Store.lookup. rewrite app_nth2 by lia. now rewrite Nat.sub_diag.
Qed.

(** [__init__] written out on the store: six new arrays. *)
Lemma init_unfold (input : Type) (pi : input -> np.ndarray)
      (y u z wavelength : input) (h0 : Store.t) :
  ParaxialRays.__init__ input pi y u z wavelength h0
  = Return
      ({| ParaxialRays.y := (length h0 + 0)%nat;
          ParaxialRays.z := (length h0 + 1)%nat;
          ParaxialRays.u := (length h0 + 2)%nat;
          ParaxialRays.x := (length h0 + 3)%nat;
          ParaxialRays.i := (length h0 + 4)%nat;
          ParaxialRays.w := (length h0 + 5)%nat |},
       h0 ++ [pi y; pi z; pi u; np.zeros_like (pi y); np.ones_like (pi y);
              pi wavelength]).
Proof.
  unfold ParaxialRays.__init__, Store.bind, Store.alloc, Store.read, Store.ret.
  rewrite !length_app. cbn [length].
  rewrite <- !app_assoc. cbn [app].
  rewrite !lookup_app_first.
  apply f_equal. apply f_equal2; [|reflexivity].
  f_equal; lia.
Qed.

Lemma init_wf_inv (input : Type) (pi : input -> np.ndarray)
      (y u z wavelength : input) (h0 h : Store.t) (self : ParaxialRays.t) :
  ParaxialRays.__init__ input pi y u z wavelength h0 = Return (self, h) ->
  ParaxialRays.wf self h /\ ParaxialRays.inv self h
  /\ Store.lookup h (ParaxialRays.y self) = pi y.
Proof.
  rewrite init_unfold. intros [= <- <-].
  unfold ParaxialRays.wf, ParaxialRays.inv.
  cbn [ParaxialRays.y ParaxialRays.z ParaxialRays.u ParaxialRays.x
       ParaxialRays.i ParaxialRays.w].
  rewrite !lookup_app_offset. cbn [nth].
  rewrite zeros_like_repeat, ones_like_repeat.
  repeat split.
  - repeat constructor; simpl; lia.
  - rewrite length_app. cbn [length]. repeat constructor; lia.
Qed.

Lemma propagate_wf_inv self t h h' :
  ParaxialRays.wf self h -> ParaxialRays.inv self h ->
  ParaxialRays.propagate self t h = Return (tt, h') ->
  ParaxialRays.wf self h' /\ ParaxialRays.inv self h'
  /\ length (Store.lookup h' (ParaxialRays.y self))
     = length (Store.lookup h (ParaxialRays.y self)).
Proof.
  intros Hwf [Hx Hi].
  destruct (wf_distinct self h Hwf)
    as ((Hyz & Hyu & Hyx & Hyi & Hyw & Hzu & Hzx & Hzi & Hzw) & Hy & Hz).
  rewrite propagate_unfold; cbv zeta.
  destruct (np.iadd _ _) as [a|e] eqn:E; [|discriminate].
  intros [= <-].
  apply iadd_length in E.
  rewrite lookup_update_other in E by auto.
  assert (Hly : length (Store.lookup
                          (Store.update
                             (Store.update h (ParaxialRays.z self)
                                (np.adds (Store.lookup h (ParaxialRays.z self)) t))
                             (ParaxialRays.y self) a) (ParaxialRays.y self))
                = length (Store.lookup h (ParaxialRays.y self))).
  { rewrite lookup_update_same by now rewrite length_update. exact E. }
  split; [|split].
  - destruct Hwf as [Hnd Hin]. split; [exact Hnd|].
    now rewrite !length_update.
  - unfold ParaxialRays.inv. rewrite Hly.
    rewrite !(lookup_update_other _ (ParaxialRays.y self)) by auto.
    rewrite !(lookup_update_other _ (ParaxialRays.z self)) by auto.
    now split.
  - exact Hly.
Qed.

(** C10: in every store a ray object can be in (after its construction,
    after any calls of [propagate]), its fields are different arrays, [x]
    is all zeros and [i] is all ones, both of the length of [y]. *)
Theorem C10_x_zero_i_one
  (input : Type) (_process_input : input -> np.ndarray)
  (self : ParaxialRays.t) (h : Store.t) :
  ParaxialRays.reachable input _process_input self h ->
  ParaxialRays.wf self h
  /\ Store.lookup h (ParaxialRays.x self)
     = repeat (Fin 0) (length (Store.lookup h (ParaxialRays.y self)))
  /\ Store.lookup h (ParaxialRays.i self)
     = repeat (Fin 1) (length (Store.lookup h (ParaxialRays.y self))).
Proof.
  induction 1 as [yin uin zin win h0 h Hinit | t h h' Hreach IH Hprop].
  - destruct (init_wf_inv _ _ _ _ _ _ _ _ _ Hinit) as (Hwf & [Hx Hi] & _).
    split; [exact Hwf | split; assumption].
  - destruct IH as (Hwf & Hx & Hi).
    destruct (propagate_wf_inv self t h h' Hwf (conj Hx Hi) Hprop)
      as (Hwf' & [Hx' Hi'] & _).
    split; [exact Hwf' | split; assumption].
Qed.

Lemma paraxial_init :
  ParaxialRays.__init__ np.ndarray (fun a => a)
    [Fin 1; Fin 2] [Fin (/ 10); Fin 0] [Fin 0; Fin 0] [Fin (11 / 20)] []
  = Return (paraxial_obj, paraxial_store).
Proof. reflexivity. Qed.

Lemma paraxial_propagate_3 :
  ParaxialRays.propagate paraxial_obj (Fin 3) paraxial_store
  = Return (tt, paraxial_store_3).
Proof. reflexivity. Qed.

Lemma paraxial_wf : ParaxialRays.wf paraxial_obj paraxial_store.
Proof.
  split.
  - repeat constructor; simpl; intuition discriminate.
  - repeat constructor; simpl; lia.
Qed.

Lemma C8_propagate_witness :
  exists h',
    ParaxialRays.propagate paraxial_obj (Fin 3) paraxial_store = Return (tt, h')
    /\ Store.lookup h' (ParaxialRays.z paraxial_obj) = np.adds [Fin 0; Fin 0] (Fin 3)
    /\ Store.lookup h' (ParaxialRays.y paraxial_obj) = np.add [Fin 1; Fin 2] (np.smul (Fin 3) [Fin (/ 10); Fin 0])
    /\ Store.lookup h' (ParaxialRays.x paraxial_obj) = [Fin 0; Fin 0]
    /\ Store.lookup h' (ParaxialRays.u paraxial_obj) = [Fin (/ 10); Fin 0]
    /\ Store.lookup h' (ParaxialRays.w paraxial_obj) = [Fin (11 / 20)]
    /\ Store.lookup h' (ParaxialRays.i paraxial_obj) = [Fin 1; Fin 1]
    /\ (forall l, l <> ParaxialRays.y paraxial_obj -> l <> ParaxialRays.z paraxial_obj ->
          Store.lookup h' l = Store.lookup paraxial_store l)
    /\ length h' = 6%nat.
Proof.
  exact (C8_propagate paraxial_obj (Fin 3) paraxial_store paraxial_wf eq_refl).
Defined.

Lemma C10_x_zero_i_one_witness :
  ParaxialRays.reachable np.ndarray (fun a => a) paraxial_obj paraxial_store_3
  /\ ParaxialRays.wf paraxial_obj paraxial_store_3
  /\ Store.lookup paraxial_store_3 (ParaxialRays.x paraxial_obj) = [Fin 0; Fin 0]
  /\ Store.lookup paraxial_store_3 (ParaxialRays.i paraxial_obj) = [Fin 1; Fin 1].
Proof.
  assert (Hreach : ParaxialRays.reachable np.ndarray (fun a => a)
                     paraxial_obj paraxial_store_3).
  { apply (ParaxialRays.reach_propagate _ _ _ (Fin 3) paraxial_store).
    - exact (ParaxialRays.reach_init _ _ _ _ _ _ _ _ _ paraxial_init).
    - exact paraxial_propagate_3. }
  split; [exact Hreach|].
  exact (C10_x_zero_i_one np.ndarray (fun a => a) paraxial_obj paraxial_store_3 Hreach).
Defined.

(* ================================================================= *)
(** * More on [StandardGeometry.distance] *)







(* ================================================================= *)
(** * The sag and the normal on the conic *)

(** The sag and the slope denominator of the conic as real numbers. *)
Lemma conic_values (R0 K x y : R) :
  R0 <> 0 -> 0 <= 1 - (1 + K) * (x * x + y * y) / (R0 * R0) ->
  let s := sqrt (1 + - ((1 + K) * (x * x + y * y) / (R0 * R0))) in
  0 <= s
  /\ s * s = 1 - (1 + K) * (x * x + y * y) / (R0 * R0)
  /\ StandardGeometry.sag1 (StandardGeometry.mk (Fin R0) (Fin K)) (Fin x) (Fin y)
     = Fin ((x * x + y * y) / (R0 * (1 + s)))
  /\ conic_denom (Fin R0) (Fin K) (Fin x) (Fin y) = Fin (R0 * s).
Proof.
  intros HR Harg s.
  assert (HRR : R0 * R0 <> 0) by (apply Rmult_integral_contrapositive; tauto).
  assert (Hs0 : 0 <= s) by apply sqrt_pos.
  assert (Hss : s * s = 1 - (1 + K) * (x * x + y * y) / (R0 * R0)).
  { unfold s. rewrite sqrt_sqrt by lra. lra. }
  split; [exact Hs0|]. split; [exact Hss|]. split.
  - unfold StandardGeometry.sag1; cbv zeta.
    cbn [StandardGeometry.radius StandardGeometry.k].
    unfold fsq, fsub. cbn [fadd fmul fneg].
    rewrite fdiv_Fin by assumption. cbn [fadd fneg].
    rewrite fsqrt_Fin by lra. fold s. cbn [fadd fmul].
    apply fdiv_Fin. apply Rmult_integral_contrapositive; split; lra.
  - unfold conic_denom, fsq, fsub. cbn [fadd fmul fneg].
    rewrite fdiv_Fin by assumption. cbn [fadd fneg].
    rewrite fsqrt_Fin by lra. reflexivity.
Qed.

(** With [s] the conic square root: [(1 + k) * r2 = R**2 * (1 - s**2)]. *)
Lemma conic_root_identity (R0 K r2 s : R) :
  R0 <> 0 -> s * s = 1 - (1 + K) * r2 / (R0 * R0) ->
  (1 + K) * r2 = R0 * R0 * (1 - s * s).
Proof. intros HR Hs. rewrite Hs. field. assumption. Qed.

Lemma sag_value_on_quadric (R0 K x y s : R) :
  R0 <> 0 -> 0 <= s -> s * s = 1 - (1 + K) * (x * x + y * y) / (R0 * R0) ->
  quadric K R0 x y ((x * x + y * y) / (R0 * (1 + s))) = 0.
Proof.
  intros HR Hs0 Hss.
  pose proof (conic_root_identity R0 K (x * x + y * y) s HR Hss) as Hk.
  unfold quadric. set (r2 := x * x + y * y) in *.
  replace (K * (r2 / (R0 * (1 + s)) * (r2 / (R0 * (1 + s)))) + x * x + y * y
           - 2 * R0 * (r2 / (R0 * (1 + s)))
           + r2 / (R0 * (1 + s)) * (r2 / (R0 * (1 + s))))
    with (((1 + K) * r2 * r2 - 2 * (R0 * R0) * (1 + s) * r2
           + r2 * (R0 * R0) * ((1 + s) * (1 + s)))
          / (R0 * R0 * ((1 + s) * (1 + s))))
    by (unfold r2; field; split; lra).
  rewrite Hk. field. split; lra.
Qed.

(** X2 ([StandardGeometry.sag]): on a surface of finite radius [R <> 0]
    and finite conic, at finite coordinates where the square root is
    real, the sag is a finite number [z] and the point [(x, y, z)] lies
    on the conic surface [k z**2 + x**2 + y**2 - 2 R z + z**2 = 0], the
    one whose intersections [distance] computes. *)
Theorem X2_sag_on_quadric
  (R0 K : R) (xs ys : np.ndarray) (n i : nat) (x y : R) :
  length xs = n -> length ys = n -> (i < n)%nat ->
  nth i xs NaN = Fin x -> nth i ys NaN = Fin y ->
  R0 <> 0 -> 0 <= 1 - (1 + K) * (x * x + y * y) / (R0 * R0) ->
  exists z,
    nth i (StandardGeometry.sag (StandardGeometry.mk (Fin R0) (Fin K)) xs ys) NaN = Fin z
    /\ quadric K R0 x y z = 0.
Proof.
  intros Hx Hy Hi Ex Ey HR Harg.
  destruct (conic_values R0 K x y HR Harg) as (Hs0 & Hss & Hsag & _).
  eexists. split.
  - rewrite (Standard_sag_nth _ xs ys n i Hx Hy Hi), Ex, Ey. exact Hsag.
  - now apply sag_value_on_quadric.
Qed.

(** X3 ([StandardGeometry.surface_normal] with [sag]): where the square
    root is real and not zero, the vector returned for [(x, y)] is
    parallel to the gradient [(2 x, 2 y, 2 k z - 2 R + 2 z)] of the
    conic surface at the surface point [(x, y, sag(x, y))]: their cross
    product is zero, so the vector is normal to the surface there. *)
Theorem X3_normal_parallel_to_gradient
  (R0 K : R) (rays : RealRays.t) (n i : nat) (x y : R) :
  length (RealRays.x rays) = n -> length (RealRays.y rays) = n -> (i < n)%nat ->
  nth i (RealRays.x rays) NaN = Fin x -> nth i (RealRays.y rays) NaN = Fin y ->
  R0 <> 0 -> 0 < 1 - (1 + K) * (x * x + y * y) / (R0 * R0) ->
  exists z nx ny nz,
    nth i (StandardGeometry.sag (StandardGeometry.mk (Fin R0) (Fin K))
             (RealRays.x rays) (RealRays.y rays)) NaN = Fin z
    /\ vec_at (StandardGeometry.surface_normal
                 (StandardGeometry.mk (Fin R0) (Fin K)) rays) i
       = (Fin nx, Fin ny, Fin nz)
    /\ ny * (2 * K * z - 2 * R0 + 2 * z) - nz * (2 * y) = 0
    /\ nz * (2 * x) - nx * (2 * K * z - 2 * R0 + 2 * z) = 0
    /\ nx * (2 * y) - ny * (2 * x) = 0.
Proof.
  intros Hx Hy Hi Ex Ey HR Harg.
  destruct (conic_values R0 K x y HR (Rlt_le _ _ Harg)) as (Hs0 & Hss & Hsag & HD).
  set (s := sqrt (1 + - ((1 + K) * (x * x + y * y) / (R0 * R0)))) in *.
  assert (Hs : 0 < s).
  { destruct Hs0 as [Hs0 | Hs0]; [exact Hs0|]. rewrite <- Hs0 in Hss. lra. }
  pose proof (regular_conic R0 K x y HR Harg) as Hreg.
  destruct (Standard_normal_regular (StandardGeometry.mk (Fin R0) (Fin K))
              (Fin x) (Fin y) Hreg) as (a & b & Ha & Hb & Hn).
  cbn [StandardGeometry.radius StandardGeometry.k] in Ha, Hb.
  assert (HRs : R0 * s <> 0) by (apply Rmult_integral_contrapositive; split; lra).
  rewrite HD, fdiv_Fin in Ha, Hb by assumption.
  injection Ha as Ha. injection Hb as Hb. subst a b.
  set (a := x / (R0 * s)) in *. set (b := y / (R0 * s)) in *.
  exists ((x * x + y * y) / (R0 * (1 + s))),
    (- a / mag_of a b), (- b / mag_of a b), (1 / mag_of a b).
  split; [|split].
  - rewrite (Standard_sag_nth _ _ _ n i Hx Hy Hi), Ex, Ey. exact Hsag.
  - rewrite (Standard_normal_nth _ rays n i Hx Hy Hi), Ex, Ey. exact Hn.
  - pose proof (conic_root_identity R0 K (x * x + y * y) s HR Hss) as Hk.
    pose proof (mag_of_pos a b) as Hm.
    assert (Hz : 2 * K * ((x * x + y * y) / (R0 * (1 + s))) - 2 * R0
                 + 2 * ((x * x + y * y) / (R0 * (1 + s))) = - (2 * (R0 * s))).
    { replace (2 * K * ((x * x + y * y) / (R0 * (1 + s))) - 2 * R0
               + 2 * ((x * x + y * y) / (R0 * (1 + s))))
        with (2 * ((1 + K) * (x * x + y * y)) / (R0 * (1 + s)) - 2 * R0)
        by (field; split; lra).
      rewrite Hk. field. split; lra. }
    rewrite Hz.
    assert (Ha' : a * (R0 * s) = x) by (unfold a; field; split; lra).
    assert (Hb' : b * (R0 * s) = y) by (unfold b; field; split; lra).
    clearbody a b. set (m := mag_of a b) in *.
    split; [|split].
    + replace (- b / m * - (2 * (R0 * s)) - 1 / m * (2 * y))
        with ((2 * (b * (R0 * s)) - 2 * y) / m) by (field; lra).
      rewrite Hb'. field. lra.
    + replace (1 / m * (2 * x) - - a / m * - (2 * (R0 * s)))
        with ((2 * x - 2 * (a * (R0 * s))) / m) by (field; lra).
      rewrite Ha'. field. lra.
    + rewrite <- Ha', <- Hb'. field. lra.
Qed.

Lemma fleb_Fin a b : fleb (Fin a) (Fin b) = true <-> a <= b.
Proof.
  unfold fleb; cbn [fltb feqb]. rewrite orb_true_iff, Rltb_true, Reqb_true. lra.
Qed.









(* ================================================================= *)
(** * [_chebyshev] and [_chebyshev_derivative] *)

Lemma chebyshev_map n (x : np.ndarray) :
  ChebyshevPolynomialGeometry._chebyshev n x
  = map (ChebyshevPolynomialGeometry.T n) x.
Proof.
  unfold ChebyshevPolynomialGeometry._chebyshev, ChebyshevPolynomialGeometry.T.
  fuse. reflexivity.
Qed.

Lemma chebyshev_derivative_map n (x : np.ndarray) :
  ChebyshevPolynomialGeometry._chebyshev_derivative n x
  = map (ChebyshevPolynomialGeometry.T' n) x.
Proof.
  unfold ChebyshevPolynomialGeometry._chebyshev_derivative,
    ChebyshevPolynomialGeometry.T'.
  fuse. reflexivity.
Qed.

(** In the domain: a number of absolute value at most one. *)
Lemma fleb_abs_1 v :
  fleb (fabs v) 1%fv = true -> exists u, v = Fin u /\ -1 <= u <= 1.
Proof.
  destruct v as [u| | |]; unfold fleb; simpl; try discriminate.
  intros H. apply orb_true_iff in H. exists u. split; [reflexivity|].
  assert (Rabs u <= 1)
    by (destruct H as [H | H]; [apply Rltb_true in H | apply Reqb_true in H]; lra).
  unfold Rabs in *. destruct (Rcase_abs u); lra.
Qed.

Lemma cos_recurrence n t :
  cos (INR (S (S n)) * t) = 2 * cos t * cos (INR (S n) * t) + - cos (INR n * t).
Proof.
  replace (INR (S (S n)) * t) with (INR (S n) * t + t) by (rewrite !S_INR; ring).
  replace (INR n * t) with (INR (S n) * t - t) by (rewrite !S_INR; ring).
  rewrite cos_plus, cos_minus. ring.
Qed.

(** X6 ([_chebyshev]): on an array with all entries in [[-1, 1]] the
    values [cos(n arccos x)] are those of the Chebyshev polynomials:
    [T_0 = 1], [T_1 = x] and [T_(n+2) = 2 x T_(n+1) - T_n], entry by
    entry. *)
Theorem X6_chebyshev_recurrence (x : np.ndarray) (n : nat) :
  Forall (fun v => fleb (fabs v) 1%fv = true) x ->
  ChebyshevPolynomialGeometry._chebyshev 0 x = np.ones_like x
  /\ ChebyshevPolynomialGeometry._chebyshev 1 x = x
  /\ ChebyshevPolynomialGeometry._chebyshev (S (S n)) x
     = np.sub (np.mul (np.smul (Fin 2) x)
                      (ChebyshevPolynomialGeometry._chebyshev (S n) x))
              (ChebyshevPolynomialGeometry._chebyshev n x).
Proof.
  intros Hdom. rewrite !chebyshev_map.
  unfold np.ones_like, np.sub, np.mul, np.smul.
  induction Hdom as [|v x Hv _ IH]; [repeat split|].
  destruct IH as (IH0 & IH1 & IH2).
  apply fleb_abs_1 in Hv as (u & -> & Hu).
  cbn [map np.zipWith]. rewrite IH0, IH1, IH2.
  rewrite !T_finite by assumption.
  repeat split; f_equal.
  - f_equal. rewrite Rmult_0_l. apply cos_0.
  - f_equal. rewrite Rmult_1_l. now apply cos_acos.
  - unfold fsub. cbn [fmul fneg fadd]. f_equal.
    rewrite cos_recurrence, cos_acos by assumption. ring.
Qed.

(** X7 ([_chebyshev]): on an array with all entries in [[-1, 1]] every
    returned value is a finite number in [[-1, 1]]. *)
Theorem X7_chebyshev_bounded (n : nat) (x : np.ndarray) :
  Forall (fun v => fleb (fabs v) 1%fv = true) x ->
  Forall (fun v => fleb (fabs v) 1%fv = true)
         (ChebyshevPolynomialGeometry._chebyshev n x).
Proof.
  intros Hdom. rewrite chebyshev_map.
  apply Forall_map. eapply Forall_impl; [|exact Hdom].
  intros v Hv. apply fleb_abs_1 in Hv as (u & -> & Hu).
  rewrite T_finite by assumption. cbn [fabs].
  apply fleb_Fin. apply Rabs_le. apply COS_bound.
Qed.

(** X8 ([_chebyshev], [_chebyshev_derivative]): at an entry with
    [|x| > 1] both return [nan], for every degree [n], [n = 0]
    included: outside of the domain that [sag] and [_surface_normal]
    check before they call them, the two functions give no value. *)
Theorem X8_chebyshev_outside_domain (n : nat) (x : np.ndarray) (i : nat) :
  fgtb (fabs (nth i x NaN)) 1%fv = true ->
  nth i (ChebyshevPolynomialGeometry._chebyshev n x) NaN = NaN
  /\ nth i (ChebyshevPolynomialGeometry._chebyshev_derivative n x) NaN = NaN.
Proof.
  intros Hout.
  assert (Hacos : farccos (nth i x NaN) = NaN).
  { destruct (nth i x NaN) as [u| | |]; try reflexivity.
    unfold fgtb in Hout. cbn [fabs fltb] in Hout. apply Rltb_true in Hout.
    unfold farccos.
    destruct (Rleb (-1) u) eqn:E1; [|reflexivity].
    destruct (Rleb u 1) eqn:E2; [|reflexivity].
    apply Rleb_true in E1. apply Rleb_true in E2.
    assert (Rabs u <= 1) by (apply Rabs_le; lra). lra. }
  assert (Hi : (i < length x)%nat).
  { destruct (Nat.lt_ge_cases i (length x)) as [H | H]; [exact H|].
    rewrite nth_overflow in Hout by assumption. discriminate. }
  rewrite chebyshev_map, chebyshev_derivative_map.
  rewrite (nth_indep _ NaN (ChebyshevPolynomialGeometry.T n NaN))
    by now rewrite length_map.
  rewrite (nth_indep (map (ChebyshevPolynomialGeometry.T' n) x) NaN
             (ChebyshevPolynomialGeometry.T' n NaN))
    by now rewrite length_map.
  rewrite !map_nth.
  unfold ChebyshevPolynomialGeometry.T, ChebyshevPolynomialGeometry.T'.
  rewrite Hacos. unfold of_nat. cbn [fmul fcos fsin]. split; reflexivity.
Qed.

(** On the boundary [|u| = 1] the derivative formula is [0 / 0]. *)
Lemma T'_at_one n : ChebyshevPolynomialGeometry.T' n (Fin 1) = NaN.
Proof.
  unfold ChebyshevPolynomialGeometry.T', of_nat, farccos, fsq, fsub.
  rewrite (proj2 (Rleb_true (-1) 1)), (proj2 (Rleb_true 1 1)) by lra.
  cbn [andb fmul fsin fneg fadd].
  rewrite acos_1, Rmult_0_r, sin_0.
  rewrite fsqrt_Fin by lra.
  apply fdiv_0_0; [ring|].
  replace (1 + - (1 * 1)) with 0 by ring.
  apply sqrt_0.
Qed.

Lemma fmul_NaN_l a : (NaN * a)%fv = NaN.
Proof. reflexivity. Qed.

Lemma fadd_NaN_l a : (NaN + a)%fv = NaN.
Proof. reflexivity. Qed.

(** Once an accumulated slope is [nan] it stays [nan]. *)
Lemma boundary_gradient_x (c : list (list fval)) (xn yn : fval)
      (idx : list (nat * nat)) :
  xn = Fin 1 -> idx <> [] ->
  forall a b, exists b',
    fold_left
      (fun '(dzdx, dzdy) '(i, j) =>
         ((dzdx + ChebyshevPolynomialGeometry.T' i xn
                  * ChebyshevPolynomialGeometry.entry c i j
                  * ChebyshevPolynomialGeometry.T j yn)%fv,
          (dzdy + ChebyshevPolynomialGeometry.T' j yn
                  * ChebyshevPolynomialGeometry.entry c i j
                  * ChebyshevPolynomialGeometry.T i xn)%fv))
      idx (a, b) = (NaN, b').
Proof.
  intros Hx.
  assert (Hkeep : forall idx' b, exists b',
             fold_left
               (fun '(dzdx, dzdy) '(i, j) =>
         ((dzdx + ChebyshevPolynomialGeometry.T' i xn
                  * ChebyshevPolynomialGeometry.entry c i j
                  * ChebyshevPolynomialGeometry.T j yn)%fv,
          (dzdy + ChebyshevPolynomialGeometry.T' j yn
                  * ChebyshevPolynomialGeometry.entry c i j
                  * ChebyshevPolynomialGeometry.T i xn)%fv))
               idx' (NaN, b) = (NaN, b')).
  { induction idx' as [|[i j] idx' IH]; intros b; cbn [fold_left].
    - now exists b.
    - rewrite fadd_NaN_l. apply IH. }
  destruct idx as [|[i j] idx]; [congruence|]. intros _ a b.
  cbn [fold_left].
  rewrite Hx, (T'_at_one i), !fmul_NaN_l, fadd_NaN_r. rewrite <- Hx. apply Hkeep.
Qed.

Lemma boundary_gradient_y (c : list (list fval)) (xn yn : fval)
      (idx : list (nat * nat)) :
  yn = Fin 1 -> idx <> [] ->
  forall a b, exists a',
    fold_left
      (fun '(dzdx, dzdy) '(i, j) =>
         ((dzdx + ChebyshevPolynomialGeometry.T' i xn
                  * ChebyshevPolynomialGeometry.entry c i j
                  * ChebyshevPolynomialGeometry.T j yn)%fv,
          (dzdy + ChebyshevPolynomialGeometry.T' j yn
                  * ChebyshevPolynomialGeometry.entry c i j
                  * ChebyshevPolynomialGeometry.T i xn)%fv))
      idx (a, b) = (a', NaN).
Proof.
  intros Hy.
  assert (Hkeep : forall idx' a, exists a',
             fold_left
               (fun '(dzdx, dzdy) '(i, j) =>
         ((dzdx + ChebyshevPolynomialGeometry.T' i xn
                  * ChebyshevPolynomialGeometry.entry c i j
                  * ChebyshevPolynomialGeometry.T j yn)%fv,
          (dzdy + ChebyshevPolynomialGeometry.T' j yn
                  * ChebyshevPolynomialGeometry.entry c i j
                  * ChebyshevPolynomialGeometry.T i xn)%fv))
               idx' (a, NaN) = (a', NaN)).
  { induction idx' as [|[i j] idx' IH]; intros a; cbn [fold_left].
    - now exists a.
    - rewrite fadd_NaN_l. apply IH. }
  destruct idx as [|[i j] idx]; [congruence|]. intros _ a b.
  cbn [fold_left].
  rewrite Hy, (T'_at_one j), !fmul_NaN_l, fadd_NaN_r. rewrite <- Hy. apply Hkeep.
Qed.

Lemma boundary_normal1 g x y :
  (x / ChebyshevPolynomialGeometry.norm_x g)%fv = Fin 1
  \/ (y / ChebyshevPolynomialGeometry.norm_y g)%fv = Fin 1 ->
  ChebyshevPolynomialGeometry.argwhere_ne0 (ChebyshevPolynomialGeometry.c g) <> [] ->
  ChebyshevPolynomialGeometry._surface_normal1 g x y = (NaN, NaN, NaN).
Proof.
  intros Hb Hne.
  unfold ChebyshevPolynomialGeometry._surface_normal1,
    ChebyshevPolynomialGeometry.gradient1; cbv zeta.
  destruct Hb as [Hb | Hb].
  - destruct (boundary_gradient_x (ChebyshevPolynomialGeometry.c g) _
                (y / ChebyshevPolynomialGeometry.norm_y g)%fv _ Hb Hne
                (x / (ChebyshevPolynomialGeometry.radius g *
                      fsqrt (1 - (1 + ChebyshevPolynomialGeometry.k g)
                                 * (fsq x + fsq y)
                                 / fsq (ChebyshevPolynomialGeometry.radius g))))%fv
                (y / (ChebyshevPolynomialGeometry.radius g *
                      fsqrt (1 - (1 + ChebyshevPolynomialGeometry.k g)
                                 * (fsq x + fsq y)
                                 / fsq (ChebyshevPolynomialGeometry.radius g))))%fv)
      as (b' & ->).
    change (fsq NaN) with NaN. cbn [fadd fsqrt fneg fdiv].
    now rewrite !fdiv_NaN_r.
  - destruct (boundary_gradient_y (ChebyshevPolynomialGeometry.c g)
                (x / ChebyshevPolynomialGeometry.norm_x g)%fv _ _ Hb Hne
                (x / (ChebyshevPolynomialGeometry.radius g *
                      fsqrt (1 - (1 + ChebyshevPolynomialGeometry.k g)
                                 * (fsq x + fsq y)
                                 / fsq (ChebyshevPolynomialGeometry.radius g))))%fv
                (y / (ChebyshevPolynomialGeometry.radius g *
                      fsqrt (1 - (1 + ChebyshevPolynomialGeometry.k g)
                                 * (fsq x + fsq y)
                                 / fsq (ChebyshevPolynomialGeometry.radius g))))%fv)
      as (a' & ->).
    change (fsq NaN) with NaN. rewrite fadd_NaN_r. cbn [fadd fsqrt fneg fdiv].
    now rewrite !fdiv_NaN_r.
Qed.

(** X9 ([ChebyshevPolynomialGeometry._surface_normal]): on a batch that
    passes the domain check, a ray on the upper rim of the domain,
    [x / norm_x = 1] or [y / norm_y = 1], gets the normal
    [(nan, nan, nan)] as soon as the coefficient array has one entry
    different from zero: there [arccos] is [0] and
    [_chebyshev_derivative] is [n sin(0) / sqrt(1 - 1) = 0 / 0]. *)
Theorem X9_chebyshev_boundary_normal_nan
  (g : ChebyshevPolynomialGeometry.t) (x y : np.ndarray) (n i : nat) :
  length x = n -> length y = n -> (i < n)%nat ->
  (forall j, (j < n)%nat ->
     ChebyshevPolynomialGeometry.out_of_domain1 g (nth j x NaN) (nth j y NaN) = false) ->
  (nth i x NaN / ChebyshevPolynomialGeometry.norm_x g)%fv = Fin 1
  \/ (nth i y NaN / ChebyshevPolynomialGeometry.norm_y g)%fv = Fin 1 ->
  ChebyshevPolynomialGeometry.argwhere_ne0 (ChebyshevPolynomialGeometry.c g) <> [] ->
  exists v,
    ChebyshevPolynomialGeometry._surface_normal g x y = Return v
    /\ vec_at v i = (NaN, NaN, NaN).
Proof.
  intros Hx Hy Hi Hdom Hb Hne.
  pose proof (Cheb_normal_seq g x y n Hx Hy) as Hn.
  rewrite (existsb_seq_false _ n Hdom) in Hn.
  eexists. split; [exact Hn|].
  rewrite (Cheb_normal_nth g x y n _ i Hx Hy Hi Hn).
  now apply boundary_normal1.
Qed.

Lemma T_derivative (n : nat) (u : R) :
  -1 < u < 1 ->
  derivable_pt_lim (fun v => cos (INR n * acos v)) u
    (INR n * sin (INR n * acos u) / sqrt (1 + - (u * u))).
Proof.
  intros Hu.
  assert (Hacos : derivable_pt_lim acos u (-1 / sqrt (1 - u²))).
  { rewrite <- (derive_pt_acos u Hu).
    apply derive_pt_eq_1 with (pr := derivable_pt_acos u Hu).
    reflexivity. }
  pose proof (derivable_pt_lim_scal acos (INR n) u _ Hacos) as Hscal.
  pose proof (derivable_pt_lim_comp (mult_real_fct (INR n) acos) cos u _ _
                Hscal (derivable_pt_lim_cos _)) as Hcomp.
  replace (INR n * sin (INR n * acos u) / sqrt (1 + - (u * u)))
    with (- sin (mult_real_fct (INR n) acos u) * (INR n * (-1 / sqrt (1 - u²)))).
  - exact Hcomp.
  - unfold mult_real_fct, Rsqr. fold (1 - u * u). field.
    apply Rgt_not_eq, sqrt_lt_R0. nra.
Qed.

(** X10 ([_chebyshev_derivative] with [_chebyshev]): on numbers in
    [[-1, 1]], [_chebyshev(n, .)] is the real function
    [f(v) = cos(n acos v)]; on numbers strictly inside,
    [_chebyshev_derivative(n, .)] is [n sin(n acos u) / sqrt(1 - u**2)],
    and this is the derivative of [f] at [u]. *)
Theorem X10_chebyshev_derivative_is_derivative (n : nat) (vs us : list R) :
  let f := fun v => cos (INR n * acos v) in
  let f' := fun u => INR n * sin (INR n * acos u) / sqrt (1 - u * u) in
  Forall (fun v => -1 <= v <= 1) vs ->
  Forall (fun u => -1 < u < 1) us ->
  ChebyshevPolynomialGeometry._chebyshev n (map Fin vs) = map (fun v => Fin (f v)) vs
  /\ ChebyshevPolynomialGeometry._chebyshev_derivative n (map Fin us)
     = map (fun u => Fin (f' u)) us
  /\ Forall (fun u => derivable_pt_lim f u (f' u)) us.
Proof.
  intros f f' Hvs Hus. split; [|split].
  - rewrite chebyshev_map, map_map. apply map_ext_in. intros v Hv.
    rewrite Forall_forall in Hvs. now apply T_finite, Hvs.
  - rewrite chebyshev_derivative_map, map_map. apply map_ext_in. intros u Hu.
    rewrite Forall_forall in Hus. rewrite T'_finite by now apply Hus.
    unfold f'. reflexivity.
  - eapply Forall_impl; [|exact Hus]. intros u Hu.
    exact (T_derivative n u Hu).
Qed.

(* ================================================================= *)
(** * The vertex *)

Lemma Even_sag_step_axis (idx : list (nat * fval)) :
  Forall (fun p => is_finite (snd p) = true) idx ->
  forall a,
    fold_left (fun z '(i, Ci) => (z + Ci * fpow (Fin 0) (i + 1))%fv) idx (Fin a)
    = Fin a.
Proof.
  induction 1 as [|[i Ci] idx HCi _ IH]; intros a; cbn [fold_left].
  - reflexivity.
  - simpl in HCi. destruct Ci as [ci| | |]; try discriminate.
    rewrite fpow_Fin, fmul_Fin, fadd_zero; [apply IH|].
    rewrite Nat.add_1_r. simpl. ring.
Qed.

Lemma Even_step_axis r (idx : list (nat * fval)) :
  Forall (fun p => is_finite (snd p) = true) idx ->
  forall a b,
    fold_left
      (fun '(dfdx, dfdy) '(i, Ci) =>
         ((dfdx + of_nat (2 * (i + 1)) * Fin 0 * Ci * fpow (Fin r) i)%fv,
          (dfdy + of_nat (2 * (i + 1)) * Fin 0 * Ci * fpow (Fin r) i)%fv))
      idx (Fin a, Fin b) = (Fin a, Fin b).
Proof.
  induction 1 as [|[i Ci] idx HCi _ IH]; intros a b; cbn [fold_left].
  - reflexivity.
  - simpl in HCi. destruct Ci as [ci| | |]; try discriminate.
    rewrite fpow_Fin. unfold of_nat.
    rewrite !fmul_Fin, !fadd_zero by ring.
    apply IH.
Qed.

Lemma mag_of_0 : mag_of 0 0 = 1.
Proof.
  unfold mag_of. replace (0 * 0 + 0 * 0 + 1) with 1 by ring. apply sqrt_1.
Qed.

(** X11 ([sag] and the normals at the vertex): at [x = y = 0], for a
    finite radius [R <> 0], a finite conic and finite coefficients, the
    sag of [StandardGeometry] and of [EvenAsphere] is [0], the normal of
    [StandardGeometry] is [(0, 0, 1)] and that of [EvenAsphere] is
    [(0, 0, -1)]. *)
Theorem X11_vertex_sag_and_normal
  (R0 K : R) (tol : fval) (max_iter : nat) (cs : list fval)
  (rays : RealRays.t) (n i : nat) :
  let st := StandardGeometry.mk (Fin R0) (Fin K) in
  let ea := EvenAsphere.mk (Fin R0) (Fin K) tol max_iter cs in
  let x := RealRays.x rays in
  let y := RealRays.y rays in
  length x = n -> length y = n -> (i < n)%nat ->
  nth i x NaN = Fin 0 -> nth i y NaN = Fin 0 ->
  R0 <> 0 -> Forall (fun v => is_finite v = true) cs ->
  nth i (StandardGeometry.sag st x y) NaN = Fin 0
  /\ nth i (EvenAsphere.sag ea x y) NaN = Fin 0
  /\ vec_at (StandardGeometry.surface_normal st rays) i = (Fin 0, Fin 0, Fin 1)
  /\ vec_at (EvenAsphere._surface_normal ea x y) i = (Fin 0, Fin 0, Fin (-1)).
Proof.
  intros st ea x y Hx Hy Hi Ex Ey HR Hcs.
  assert (Harg : 0 < 1 - (1 + K) * (0 * 0 + 0 * 0) / (R0 * R0)).
  { replace ((1 + K) * (0 * 0 + 0 * 0) / (R0 * R0)) with 0; [lra|].
    unfold Rdiv. ring. }
  destruct (conic_values R0 K 0 0 HR (Rlt_le _ _ Harg)) as (Hs0 & Hss & Hsag & HD).
  set (s := sqrt (1 + - ((1 + K) * (0 * 0 + 0 * 0) / (R0 * R0)))) in *.
  assert (Hs : 0 < s).
  { destruct Hs0 as [Hs0 | Hs0]; [exact Hs0|]. rewrite <- Hs0 in Hss. lra. }
  assert (HRs : R0 * s <> 0) by (apply Rmult_integral_contrapositive; split; lra).
  assert (Hsag0 : StandardGeometry.sag1 st (Fin 0) (Fin 0) = Fin 0).
  { unfold st. rewrite Hsag. f_equal. unfold Rdiv. ring. }
  pose proof (regular_conic R0 K 0 0 HR Harg) as Hreg.
  assert (Hslope : (Fin 0 / conic_denom (Fin R0) (Fin K) (Fin 0) (Fin 0))%fv = Fin 0).
  { rewrite HD, fdiv_Fin by assumption. f_equal. unfold Rdiv. ring. }
  split; [|split; [|split]].
  - rewrite (Standard_sag_nth st x y n i Hx Hy Hi), Ex, Ey. exact Hsag0.
  - rewrite (Even_sag_nth ea x y n i Hx Hy Hi), Ex, Ey.
    unfold EvenAsphere.sag1; cbv zeta.
    change (EvenAsphere.conic1 ea (Fin 0) (Fin 0))
      with (StandardGeometry.sag1 st (Fin 0) (Fin 0)).
    rewrite Hsag0. unfold fsq. rewrite !fmul_Fin, fadd_Fin.
    replace (0 * 0 + 0 * 0) with 0 by ring.
    apply Even_sag_step_axis.
    now apply (Forall_enumerate (fun v => is_finite v = true)).
  - rewrite (Standard_normal_nth st rays n i Hx Hy Hi).
    fold x y. rewrite Ex, Ey.
    destruct (Standard_normal_regular st (Fin 0) (Fin 0) Hreg) as (a & b & Ha & Hb & ->).
    cbn [st StandardGeometry.radius StandardGeometry.k] in Ha, Hb.
    rewrite Hslope in Ha, Hb. injection Ha as <-. injection Hb as <-.
    rewrite mag_of_0. repeat f_equal; field.
  - rewrite (Even_normal_nth ea x y n i Hx Hy Hi), Ex, Ey.
    assert (Hg : EvenAsphere.gradient1 ea (Fin 0) (Fin 0) = (Fin 0, Fin 0)).
    { unfold EvenAsphere.gradient1; cbv zeta.
      fold (conic_denom (EvenAsphere.radius ea) (EvenAsphere.k ea) (Fin 0) (Fin 0)).
      cbn [ea EvenAsphere.radius EvenAsphere.k EvenAsphere.c].
      rewrite Hslope. unfold fsq at 1 2. rewrite !fmul_Fin, fadd_Fin.
      apply Even_step_axis.
      now apply (Forall_enumerate (fun v => is_finite v = true)). }
    rewrite (Even_normal_of_gradient ea _ _ 0 0 Hg), mag_of_0.
    repeat f_equal; field.
Qed.

(* ================================================================= *)
(** * The slopes of [_surface_normal] are the derivatives of [sag] *)

Lemma derivable_pt_lim_eq (f : R -> R) (x l l' : R) :
  l = l' -> derivable_pt_lim f x l -> derivable_pt_lim f x l'.
Proof. now intros ->. Qed.

(** The conic term along a line on which [r2] is [q], with [q' = 2 t]. *)
Lemma conic_derivative (R0 K : R) (q : R -> R) (t : R) :
  R0 <> 0 ->
  derivable_pt_lim q t (2 * t) ->
  0 < 1 - (1 + K) * q t / (R0 * R0) ->
  derivable_pt_lim
    (fun v => q v / (R0 * (1 + sqrt (1 + - ((1 + K) * q v / (R0 * R0))))))
    t
    (t / (R0 * sqrt (1 + - ((1 + K) * q t / (R0 * R0))))).
Proof.
  intros HR Hq Harg.
  set (A := fun v => 1 + - ((1 + K) * q v / (R0 * R0))).
  assert (HA : derivable_pt_lim A t (- ((1 + K) / (R0 * R0) * (2 * t)))).
  { apply (derivable_pt_lim_ext
             (plus_fct (fct_cte 1)
                (opp_fct (mult_real_fct ((1 + K) / (R0 * R0)) q)))).
    - intros v. unfold A, plus_fct, fct_cte, opp_fct, mult_real_fct.
      field. assumption.
    - apply (derivable_pt_lim_eq _ _ (0 + - ((1 + K) / (R0 * R0) * (2 * t))));
        [ring|].
      apply derivable_pt_lim_plus; [apply derivable_pt_lim_const|].
      apply derivable_pt_lim_opp. apply derivable_pt_lim_scal. exact Hq. }
  assert (HAt : 0 < A t) by (unfold A; lra).
  set (s := sqrt (A t)).
  assert (Hs : 0 < s) by (apply sqrt_lt_R0; exact HAt).
  assert (Hss : s * s = A t) by (apply sqrt_sqrt; lra).
  assert (HS : derivable_pt_lim (fun v => sqrt (A v)) t
                 (/ (2 * s) * - ((1 + K) / (R0 * R0) * (2 * t)))).
  { apply (derivable_pt_lim_comp A sqrt); [exact HA|].
    apply derivable_pt_lim_sqrt. exact HAt. }
  assert (HD : derivable_pt_lim (fun v => R0 * (1 + sqrt (A v))) t
                 (R0 * (/ (2 * s) * - ((1 + K) / (R0 * R0) * (2 * t))))).
  { apply (derivable_pt_lim_ext
             (mult_real_fct R0 (plus_fct (fct_cte 1) (fun v => sqrt (A v))))).
    - intros v. reflexivity.
    - apply derivable_pt_lim_scal.
      apply (derivable_pt_lim_eq _ _
               (0 + / (2 * s) * - ((1 + K) / (R0 * R0) * (2 * t)))); [ring|].
      apply derivable_pt_lim_plus; [apply derivable_pt_lim_const | exact HS]. }
  assert (HDt : R0 * (1 + sqrt (A t)) <> 0).
  { fold s. apply Rmult_integral_contrapositive; split; lra. }
  pose proof (derivable_pt_lim_div q (fun v => R0 * (1 + sqrt (A v))) t _ _
                Hq HD HDt) as H.
  change (derivable_pt_lim (fun v => q v / (R0 * (1 + sqrt (A v)))) t
            (t / (R0 * sqrt (A t)))).
  refine (derivable_pt_lim_eq _ _ _ _ _ H).
  fold s. unfold Rsqr.
  assert (Hk : (1 + K) * q t = R0 * R0 * (1 - s * s)).
  { rewrite Hss. unfold A. field. assumption. }
  replace ((2 * t * (R0 * (1 + s))
            - R0 * (/ (2 * s) * - ((1 + K) / (R0 * R0) * (2 * t))) * q t)
           / (R0 * (1 + s) * (R0 * (1 + s))))
    with ((2 * t * (R0 * R0) * (1 + s) * s + t * ((1 + K) * q t))
          / (R0 * R0 * R0 * s * ((1 + s) * (1 + s))))
    by (field; repeat split; lra).
  rewrite Hk. field. repeat split; lra.
Qed.

(** The polynomial terms of the sag as a real number. *)
Lemma Even_sag_fold_Fin (r : R) (idx : list (nat * R)) :
  forall a,
    fold_left (fun z '(i, Ci) => (z + Ci * fpow (Fin r) (i + 1))%fv)
              (map (fun p => (fst p, Fin (snd p))) idx) (Fin a)
    = Fin (fold_left (fun z p => z + snd p * r ^ (fst p + 1)) idx a).
Proof.
  induction idx as [|[i c] idx IH]; intros a; cbn [fold_left map fst snd].
  - reflexivity.
  - rewrite fpow_Fin, fmul_Fin, fadd_Fin. apply IH.
Qed.

Lemma Even_gradient_fold_Fin (x0 y0 r : R) (idx : list (nat * R)) :
  forall a b,
    fold_left
      (fun '(dfdx, dfdy) '(i, Ci) =>
         ((dfdx + of_nat (2 * (i + 1)) * Fin x0 * Ci * fpow (Fin r) i)%fv,
          (dfdy + of_nat (2 * (i + 1)) * Fin y0 * Ci * fpow (Fin r) i)%fv))
      (map (fun p => (fst p, Fin (snd p))) idx) (Fin a, Fin b)
    = (Fin (fold_left
              (fun d p => d + INR (2 * (fst p + 1)) * x0 * snd p * r ^ fst p)
              idx a),
       Fin (fold_left
              (fun d p => d + INR (2 * (fst p + 1)) * y0 * snd p * r ^ fst p)
              idx b)).
Proof.
  induction idx as [|[i c] idx IH]; intros a b; cbn [fold_left map fst snd].
  - reflexivity.
  - rewrite fpow_Fin. unfold of_nat. rewrite !fmul_Fin, !fadd_Fin. apply IH.
Qed.

Lemma enumerate_map {A B : Type} (f : A -> B) (l : list A) :
  enumerate (map f l) = map (fun p => (fst p, f (snd p))) (enumerate l).
Proof.
  unfold enumerate. rewrite length_map.
  generalize (seq 0 (length l)) as s.
  induction l as [|a l IH]; intros [|k s]; cbn [combine map fst snd];
    try reflexivity.
  now rewrite IH.
Qed.

(** The polynomial terms along a line on which [r2] is [q], [q' = 2 t]. *)
Lemma Even_fold_derivative (q : R -> R) (t : R) (idx : list (nat * R)) :
  derivable_pt_lim q t (2 * t) ->
  forall (f : R -> R) (l : R),
    derivable_pt_lim f t l ->
    derivable_pt_lim
      (fun v => fold_left (fun z p => z + snd p * q v ^ (fst p + 1)) idx (f v))
      t
      (fold_left
         (fun d p => d + INR (2 * (fst p + 1)) * t * snd p * q t ^ fst p)
         idx l).
Proof.
  intros Hq. induction idx as [|[i c] idx IH]; intros f l Hf; cbn [fold_left fst snd].
  - exact Hf.
  - apply (IH (fun v => f v + c * q v ^ (i + 1))).
    apply (derivable_pt_lim_plus f (fun v => c * q v ^ (i + 1))); [exact Hf|].
    apply (derivable_pt_lim_eq _ _ (c * (INR (i + 1) * q t ^ pred (i + 1) * (2 * t)))).
    { rewrite Nat.add_1_r. cbn [pred]. rewrite mult_INR, S_INR.
      simpl (INR 2). ring. }
    apply (derivable_pt_lim_scal (fun v => q v ^ (i + 1))).
    apply (derivable_pt_lim_comp q (fun u => u ^ (i + 1))); [exact Hq|].
    apply derivable_pt_lim_pow.
Qed.

Lemma square_plus_derivative_l (w t : R) :
  derivable_pt_lim (fun v => v * v + w) t (2 * t).
Proof.
  apply (derivable_pt_lim_eq _ _ ((1 * t + t * 1) + 0)); [ring|].
  apply (derivable_pt_lim_plus (mult_fct id id) (fct_cte w)).
  - apply derivable_pt_lim_mult; apply derivable_pt_lim_id.
  - apply derivable_pt_lim_const.
Qed.

Lemma square_plus_derivative_r (w t : R) :
  derivable_pt_lim (fun v => w + v * v) t (2 * t).
Proof.
  apply (derivable_pt_lim_ext (fun v => v * v + w)); [intros; ring|].
  apply square_plus_derivative_l.
Qed.

(** The sag of an even asphere as a real function. *)
Lemma Even_sag1_real (R0 K : R) tol max_iter (cs : list R) (x y : R) :
  R0 <> 0 -> 0 <= 1 - (1 + K) * (x * x + y * y) / (R0 * R0) ->
  EvenAsphere.sag1 (EvenAsphere.mk (Fin R0) (Fin K) tol max_iter (map Fin cs))
                   (Fin x) (Fin y)
  = Fin (fold_left (fun z p => z + snd p * (x * x + y * y) ^ (fst p + 1))
           (enumerate cs)
           ((x * x + y * y)
            / (R0 * (1 + sqrt (1 + - ((1 + K) * (x * x + y * y) / (R0 * R0))))))).
Proof.
  intros HR Harg.
  destruct (conic_values R0 K x y HR Harg) as (_ & _ & Hsag & _).
  unfold EvenAsphere.sag1; cbv zeta.
  change (EvenAsphere.conic1 _ (Fin x) (Fin y))
    with (StandardGeometry.sag1 (StandardGeometry.mk (Fin R0) (Fin K)) (Fin x) (Fin y)).
  rewrite Hsag. cbn [EvenAsphere.c]. rewrite enumerate_map.
  unfold fsq. rewrite !fmul_Fin, fadd_Fin.
  apply Even_sag_fold_Fin.
Qed.

Lemma Even_gradient1_real (R0 K : R) tol max_iter (cs : list R) (x y : R) :
  R0 <> 0 -> 0 < 1 - (1 + K) * (x * x + y * y) / (R0 * R0) ->
  let s := sqrt (1 + - ((1 + K) * (x * x + y * y) / (R0 * R0))) in
  EvenAsphere.gradient1
    (EvenAsphere.mk (Fin R0) (Fin K) tol max_iter (map Fin cs)) (Fin x) (Fin y)
  = (Fin (fold_left
            (fun d p => d + INR (2 * (fst p + 1)) * x * snd p
                            * (x * x + y * y) ^ fst p)
            (enumerate cs) (x / (R0 * s))),
     Fin (fold_left
            (fun d p => d + INR (2 * (fst p + 1)) * y * snd p
                            * (x * x + y * y) ^ fst p)
            (enumerate cs) (y / (R0 * s)))).
Proof.
  intros HR Harg s.
  destruct (conic_values R0 K x y HR (Rlt_le _ _ Harg)) as (Hs0 & Hss & _ & HD).
  fold s in Hs0, Hss, HD.
  assert (Hs : 0 < s).
  { destruct Hs0 as [Hs0 | Hs0]; [exact Hs0|]. rewrite <- Hs0 in Hss. lra. }
  assert (HRs : R0 * s <> 0) by (apply Rmult_integral_contrapositive; split; lra).
  unfold EvenAsphere.gradient1; cbv zeta.
  fold (conic_denom (EvenAsphere.radius (EvenAsphere.mk (Fin R0) (Fin K) tol max_iter (map Fin cs)))
          (EvenAsphere.k (EvenAsphere.mk (Fin R0) (Fin K) tol max_iter (map Fin cs)))
          (Fin x) (Fin y)).
  cbn [EvenAsphere.radius EvenAsphere.k EvenAsphere.c].
  rewrite HD, !fdiv_Fin by assumption.
  rewrite enumerate_map. unfold fsq. rewrite !fmul_Fin, fadd_Fin.
  apply Even_gradient_fold_Fin.
Qed.

(** X12 ([EvenAsphere._surface_normal] with [EvenAsphere.sag]): for a
    finite radius [R <> 0], a finite conic and finite coefficients
    there is a real function [f] that [sag] computes wherever the
    square root is real; at a point where the square root is not zero,
    [f] has partial derivatives [gx] and [gy], and the vector returned
    by [_surface_normal] is [(gx, gy, -1) / sqrt(gx**2 + gy**2 + 1)]. *)
Theorem X12_even_normal_is_sag_gradient
  (R0 K : R) (tol : fval) (max_iter : nat) (cs : list R)
  (x y : np.ndarray) (n i : nat) (x0 y0 : R) :
  let ea := EvenAsphere.mk (Fin R0) (Fin K) tol max_iter (map Fin cs) in
  length x = n -> length y = n -> (i < n)%nat ->
  nth i x NaN = Fin x0 -> nth i y NaN = Fin y0 ->
  R0 <> 0 -> 0 < 1 - (1 + K) * (x0 * x0 + y0 * y0) / (R0 * R0) ->
  exists (f : R -> R -> R) (gx gy : R),
    (forall u v,
        0 <= 1 - (1 + K) * (u * u + v * v) / (R0 * R0) ->
        EvenAsphere.sag ea [Fin u] [Fin v] = [Fin (f u v)])
    /\ derivable_pt_lim (fun u => f u y0) x0 gx
    /\ derivable_pt_lim (fun v => f x0 v) y0 gy
    /\ vec_at (EvenAsphere._surface_normal ea x y) i
       = (Fin (gx / sqrt (gx * gx + gy * gy + 1)),
          Fin (gy / sqrt (gx * gx + gy * gy + 1)),
          Fin (- 1 / sqrt (gx * gx + gy * gy + 1))).
Proof.
  intros ea Hx Hy Hi Ex Ey HR Harg.
  exists (fun u v =>
            fold_left (fun z p => z + snd p * (u * u + v * v) ^ (fst p + 1))
              (enumerate cs)
              ((u * u + v * v)
               / (R0 * (1 + sqrt (1 + - ((1 + K) * (u * u + v * v) / (R0 * R0))))))).
  pose proof (Even_gradient1_real R0 K tol max_iter cs x0 y0 HR Harg) as Hg.
  cbv zeta in Hg.
  eexists; eexists. split; [|split; [|split]].
  - intros u v Huv.
    change (EvenAsphere.sag ea [Fin u] [Fin v])
      with (EvenAsphere.sag ea (map (fun _ : unit => Fin u) [tt])
                               (map (fun _ : unit => Fin v) [tt])).
    rewrite Even_sag_map.
    cbn [map]. f_equal. apply Even_sag1_real; assumption.
  - apply (Even_fold_derivative (fun u => u * u + y0 * y0) x0 (enumerate cs)
             (square_plus_derivative_l _ _)
             (fun u => (u * u + y0 * y0)
                       / (R0 * (1 + sqrt (1 + - ((1 + K) * (u * u + y0 * y0) / (R0 * R0))))))).
    apply (conic_derivative R0 K (fun u => u * u + y0 * y0) x0 HR
             (square_plus_derivative_l _ _) Harg).
  - apply (Even_fold_derivative (fun v => x0 * x0 + v * v) y0 (enumerate cs)
             (square_plus_derivative_r _ _)
             (fun v => (x0 * x0 + v * v)
                       / (R0 * (1 + sqrt (1 + - ((1 + K) * (x0 * x0 + v * v) / (R0 * R0))))))).
    apply (conic_derivative R0 K (fun v => x0 * x0 + v * v) y0 HR
             (square_plus_derivative_r _ _) Harg).
  - rewrite (Even_normal_nth ea x y n i Hx Hy Hi), Ex, Ey.
    rewrite (Even_normal_of_gradient ea _ _ _ _ Hg). reflexivity.
Qed.

(* ================================================================= *)
(** * Chebyshev: the slopes are the derivatives of the sag for
      [norm_x = norm_y = 1] *)

Lemma fold_sum_derivative {P : Type} (h : P -> R -> R) (h' : P -> R)
      (t : R) (idx : list P) :
  (forall p, derivable_pt_lim (h p) t (h' p)) ->
  forall (f : R -> R) (l : R),
    derivable_pt_lim f t l ->
    derivable_pt_lim (fun u => fold_left (fun z p => z + h p u) idx (f u)) t
                     (fold_left (fun d p => d + h' p) idx l).
Proof.
  intros Hh. induction idx as [|p idx IH]; intros f l Hf; cbn [fold_left].
  - exact Hf.
  - apply (IH (fun u => f u + h p u)).
    apply (derivable_pt_lim_plus f (h p)); [exact Hf | apply Hh].
Qed.

Lemma entry_map_Fin (cr : list (list R)) (i j : nat) :
  ChebyshevPolynomialGeometry.entry (map (map Fin) cr) i j
  = Fin (nth j (nth i cr []) 0).
Proof.
  unfold ChebyshevPolynomialGeometry.entry.
  change (@nil fval) with (map Fin []).
  rewrite (map_nth (map Fin) cr [] i).
  apply (map_nth Fin).
Qed.

Lemma fdiv_1 (u : R) : (Fin u / Fin 1)%fv = Fin u.
Proof. rewrite fdiv_Fin by lra. f_equal. field. Qed.

Lemma Cheb_sag_fold_Fin (cr : list (list R)) (u v : R) (idx : list (nat * nat)) :
  -1 <= u <= 1 -> -1 <= v <= 1 ->
  forall a,
    fold_left
      (fun z '(i, j) =>
         (z + ChebyshevPolynomialGeometry.entry (map (map Fin) cr) i j
              * ChebyshevPolynomialGeometry.T i (Fin u)
              * ChebyshevPolynomialGeometry.T j (Fin v))%fv)
      idx (Fin a)
    = Fin (fold_left
             (fun z p => z + nth (snd p) (nth (fst p) cr []) 0
                             * cos (INR (fst p) * acos u)
                             * cos (INR (snd p) * acos v))
             idx a).
Proof.
  intros Hu Hv. induction idx as [|[i j] idx IH]; intros a; cbn [fold_left fst snd].
  - reflexivity.
  - rewrite entry_map_Fin, !T_finite by assumption.
    rewrite !fmul_Fin, fadd_Fin. apply IH.
Qed.

Lemma Cheb_gradient_fold_Fin (cr : list (list R)) (u v : R)
      (idx : list (nat * nat)) :
  -1 < u < 1 -> -1 < v < 1 ->
  forall a b,
    fold_left
      (fun '(dzdx, dzdy) '(i, j) =>
         ((dzdx + ChebyshevPolynomialGeometry.T' i (Fin u)
                  * ChebyshevPolynomialGeometry.entry (map (map Fin) cr) i j
                  * ChebyshevPolynomialGeometry.T j (Fin v))%fv,
          (dzdy + ChebyshevPolynomialGeometry.T' j (Fin v)
                  * ChebyshevPolynomialGeometry.entry (map (map Fin) cr) i j
                  * ChebyshevPolynomialGeometry.T i (Fin u))%fv))
      idx (Fin a, Fin b)
    = (Fin (fold_left
              (fun d p => d + INR (fst p) * sin (INR (fst p) * acos u)
                              / sqrt (1 + - (u * u))
                              * nth (snd p) (nth (fst p) cr []) 0
                              * cos (INR (snd p) * acos v))
              idx a),
       Fin (fold_left
              (fun d p => d + INR (snd p) * sin (INR (snd p) * acos v)
                              / sqrt (1 + - (v * v))
                              * nth (snd p) (nth (fst p) cr []) 0
                              * cos (INR (fst p) * acos u))
              idx b)).
Proof.
  intros Hu Hv.
  induction idx as [|[i j] idx IH]; intros a b; cbn [fold_left fst snd].
  - reflexivity.
  - rewrite entry_map_Fin, !T_finite, !T'_finite by (assumption || lra).
    rewrite !fmul_Fin, !fadd_Fin. apply IH.
Qed.

(** X13 ([ChebyshevPolynomialGeometry._surface_normal] with [sag], for
    [norm_x = norm_y = 1]): for a finite radius [R <> 0], a finite conic
    and finite coefficients there is a real function [f] that [sag]
    computes on the domain wherever the square root is real; at a point
    strictly inside of the domain where the square root is not zero,
    [f] has partial derivatives [gx] and [gy], and the vector returned
    by [_surface_normal] is [(-gx, -gy, 1) / sqrt(gx**2 + gy**2 + 1)]. *)
Theorem X13_chebyshev_normal_is_sag_gradient
  (R0 K : R) (tol : fval) (max_iter : nat) (cr : list (list R))
  (x y : np.ndarray) (n i : nat) (x0 y0 : R) :
  let g := ChebyshevPolynomialGeometry.mk (Fin R0) (Fin K) tol max_iter
             (map (map Fin) cr) (Fin 1) (Fin 1) in
  length x = n -> length y = n -> (i < n)%nat ->
  (forall j, (j < n)%nat ->
     ChebyshevPolynomialGeometry.out_of_domain1 g (nth j x NaN) (nth j y NaN) = false) ->
  nth i x NaN = Fin x0 -> nth i y NaN = Fin y0 ->
  R0 <> 0 -> 0 < 1 - (1 + K) * (x0 * x0 + y0 * y0) / (R0 * R0) ->
  -1 < x0 < 1 -> -1 < y0 < 1 ->
  exists (f : R -> R -> R) (gx gy : R),
    (forall u v,
        -1 <= u <= 1 -> -1 <= v <= 1 ->
        0 <= 1 - (1 + K) * (u * u + v * v) / (R0 * R0) ->
        ChebyshevPolynomialGeometry.sag g [Fin u] [Fin v] = Return [Fin (f u v)])
    /\ derivable_pt_lim (fun u => f u y0) x0 gx
    /\ derivable_pt_lim (fun v => f x0 v) y0 gy
    /\ exists nv,
         ChebyshevPolynomialGeometry._surface_normal g x y = Return nv
         /\ vec_at nv i
            = (Fin (- gx / sqrt (gx * gx + gy * gy + 1)),
               Fin (- gy / sqrt (gx * gx + gy * gy + 1)),
               Fin (1 / sqrt (gx * gx + gy * gy + 1))).
Proof.
  intros g Hx Hy Hi Hdom Ex Ey HR Harg Hx0 Hy0.
  set (idx := ChebyshevPolynomialGeometry.argwhere_ne0 (map (map Fin) cr)).
  exists (fun u v =>
            fold_left
              (fun z p => z + nth (snd p) (nth (fst p) cr []) 0
                              * cos (INR (fst p) * acos u)
                              * cos (INR (snd p) * acos v))
              idx
              ((u * u + v * v)
               / (R0 * (1 + sqrt (1 + - ((1 + K) * (u * u + v * v) / (R0 * R0))))))).
  destruct (conic_values R0 K x0 y0 HR (Rlt_le _ _ Harg)) as (Hs0 & Hss & _ & HD).
  set (s := sqrt (1 + - ((1 + K) * (x0 * x0 + y0 * y0) / (R0 * R0)))) in *.
  assert (Hs : 0 < s).
  { destruct Hs0 as [Hs0 | Hs0]; [exact Hs0|]. rewrite <- Hs0 in Hss. lra. }
  assert (HRs : R0 * s <> 0) by (apply Rmult_integral_contrapositive; split; lra).
  assert (Hg : ChebyshevPolynomialGeometry.gradient1 g (Fin x0) (Fin y0)
               = (Fin (fold_left
                         (fun d p => d + INR (fst p) * sin (INR (fst p) * acos x0)
                                         / sqrt (1 + - (x0 * x0))
                                         * nth (snd p) (nth (fst p) cr []) 0
                                         * cos (INR (snd p) * acos y0))
                         idx (x0 / (R0 * s))),
                  Fin (fold_left
                         (fun d p => d + INR (snd p) * sin (INR (snd p) * acos y0)
                                         / sqrt (1 + - (y0 * y0))
                                         * nth (snd p) (nth (fst p) cr []) 0
                                         * cos (INR (fst p) * acos x0))
                         idx (y0 / (R0 * s))))).
  { unfold ChebyshevPolynomialGeometry.gradient1; cbv zeta.
    fold (conic_denom (ChebyshevPolynomialGeometry.radius g)
            (ChebyshevPolynomialGeometry.k g) (Fin x0) (Fin y0)).
    cbn [g ChebyshevPolynomialGeometry.radius ChebyshevPolynomialGeometry.k
         ChebyshevPolynomialGeometry.c ChebyshevPolynomialGeometry.norm_x
         ChebyshevPolynomialGeometry.norm_y].
    rewrite HD, !fdiv_1, !fdiv_Fin by assumption.
    fold idx. now apply Cheb_gradient_fold_Fin. }
  eexists; eexists. split; [|split; [|split]].
  - intros u v Hu Hv Huv.
    change (ChebyshevPolynomialGeometry.sag g [Fin u] [Fin v])
      with (ChebyshevPolynomialGeometry.sag g (map (fun _ : unit => Fin u) [tt])
              (map (fun _ : unit => Fin v) [tt])).
    rewrite Cheb_sag_map. cbn [existsb map].
    rewrite (in_domain_Fin g u v 1 1) by (try reflexivity; try lra;
      replace (u / 1) with u by field; replace (v / 1) with v by field; lra).
    cbn [orb]. do 2 f_equal.
    destruct (conic_values R0 K u v HR Huv) as (_ & _ & Hsag & _).
    unfold ChebyshevPolynomialGeometry.sag1; cbv zeta.
    change (ChebyshevPolynomialGeometry.conic1 g (Fin u) (Fin v))
      with (StandardGeometry.sag1 (StandardGeometry.mk (Fin R0) (Fin K)) (Fin u) (Fin v)).
    rewrite Hsag.
    cbn [g ChebyshevPolynomialGeometry.c ChebyshevPolynomialGeometry.norm_x
         ChebyshevPolynomialGeometry.norm_y].
    rewrite !fdiv_1. fold idx. now apply Cheb_sag_fold_Fin.
  - apply (fold_sum_derivative
             (fun p u => nth (snd p) (nth (fst p) cr []) 0
                         * cos (INR (fst p) * acos u)
                         * cos (INR (snd p) * acos y0))
             (fun p => INR (fst p) * sin (INR (fst p) * acos x0)
                       / sqrt (1 + - (x0 * x0))
                       * nth (snd p) (nth (fst p) cr []) 0
                       * cos (INR (snd p) * acos y0))
             x0 idx).
    + intros p.
      apply (derivable_pt_lim_ext
               (mult_real_fct
                  (nth (snd p) (nth (fst p) cr []) 0 * cos (INR (snd p) * acos y0))
                  (fun u => cos (INR (fst p) * acos u)))).
      { intros u. unfold mult_real_fct. ring. }
      eapply derivable_pt_lim_eq;
        [|apply derivable_pt_lim_scal, (T_derivative (fst p) x0 Hx0)].
      ring.
    + apply (conic_derivative R0 K (fun u => u * u + y0 * y0) x0 HR
               (square_plus_derivative_l _ _) Harg).
  - apply (fold_sum_derivative
             (fun p v => nth (snd p) (nth (fst p) cr []) 0
                         * cos (INR (fst p) * acos x0)
                         * cos (INR (snd p) * acos v))
             (fun p => INR (snd p) * sin (INR (snd p) * acos y0)
                       / sqrt (1 + - (y0 * y0))
                       * nth (snd p) (nth (fst p) cr []) 0
                       * cos (INR (fst p) * acos x0))
             y0 idx).
    + intros p.
      apply (derivable_pt_lim_ext
               (mult_real_fct
                  (nth (snd p) (nth (fst p) cr []) 0 * cos (INR (fst p) * acos x0))
                  (fun v => cos (INR (snd p) * acos v)))).
      { intros v. unfold mult_real_fct. ring. }
      eapply derivable_pt_lim_eq;
        [|apply derivable_pt_lim_scal, (T_derivative (snd p) y0 Hy0)].
      ring.
    + apply (conic_derivative R0 K (fun v => x0 * x0 + v * v) y0 HR
               (square_plus_derivative_r _ _) Harg).
  - pose proof (Cheb_normal_seq g x y n Hx Hy) as Hn.
    rewrite (existsb_seq_false _ n Hdom) in Hn.
    eexists. split; [exact Hn|].
    rewrite (Cheb_normal_nth g x y n _ i Hx Hy Hi Hn), Ex, Ey.
    rewrite (Cheb_normal_of_gradient g _ _ _ _ Hg). reflexivity.
Qed.

(* ================================================================= *)
(** * [EvenAsphere]: zero coefficients at the end of the list *)

Lemma enumerate_app {A : Type} (l1 l2 : list A) :
  enumerate (l1 ++ l2)
  = enumerate l1 ++ combine (seq (length l1) (length l2)) l2.
Proof.
  unfold enumerate. rewrite length_app, seq_app. cbn [Nat.add].
  generalize (seq (length l1) (length l2)) as s2.
  generalize 0%nat as k.
  induction l1 as [|a l1 IH]; intros k s2; cbn [length seq app combine].
  - reflexivity.
  - now rewrite IH.
Qed.

Lemma Forall_combine_snd {A B : Type} (P : B -> Prop) (s : list A) (l : list B) :
  Forall P l -> Forall (fun p => P (snd p)) (combine s l).
Proof.
  intros H. revert s. induction H as [|b l Hb _ IH]; intros [|a s];
    cbn [combine]; constructor; auto.
Qed.


Lemma Even_trailing_sag1 ea zs x y :
  is_finite x = true -> is_finite y = true ->
  Forall (fun v => v = Fin 0) zs ->
  EvenAsphere.sag1
    (EvenAsphere.mk (EvenAsphere.radius ea) (EvenAsphere.k ea)
       (EvenAsphere.tol ea) (EvenAsphere.max_iter ea) (EvenAsphere.c ea ++ zs))
    x y
  = EvenAsphere.sag1 ea x y.
Proof.
  intros Hx Hy Hzs.
  destruct x as [x0| | |]; try discriminate.
  destruct y as [y0| | |]; try discriminate.
  unfold EvenAsphere.sag1; cbv zeta. cbn [EvenAsphere.c].
  rewrite enumerate_app, fold_left_app.
  unfold fsq. rewrite !fmul_Fin, fadd_Fin.
  rewrite Even_sag_step_zero by now apply (Forall_combine_snd (fun v => v = Fin 0)).
  reflexivity.
Qed.

Lemma Even_trailing_gradient1 ea zs x y :
  is_finite x = true -> is_finite y = true ->
  Forall (fun v => v = Fin 0) zs ->
  EvenAsphere.gradient1
    (EvenAsphere.mk (EvenAsphere.radius ea) (EvenAsphere.k ea)
       (EvenAsphere.tol ea) (EvenAsphere.max_iter ea) (EvenAsphere.c ea ++ zs))
    x y
  = EvenAsphere.gradient1 ea x y.
Proof.
  intros Hx Hy Hzs.
  destruct x as [x0| | |]; try discriminate.
  destruct y as [y0| | |]; try discriminate.
  unfold EvenAsphere.gradient1; cbv zeta.
  cbn [EvenAsphere.c EvenAsphere.radius EvenAsphere.k].
  rewrite enumerate_app, fold_left_app.
  unfold fsq. rewrite !fmul_Fin, fadd_Fin.
  match goal with
  | |- fold_left _ _ ?acc = _ => destruct acc as [a b] eqn:E
  end.
  rewrite Even_step_zero by now apply (Forall_combine_snd (fun v => v = Fin 0)).
  reflexivity.
Qed.

(** X14 ([EvenAsphere.sag], [EvenAsphere._surface_normal]): zero
    coefficients added at the end of the coefficient list change
    neither the sag nor the normal, on every batch of finite
    coordinates. *)
Theorem X14_even_trailing_zero_coefficients
  (ea : EvenAsphere.t) (zs : list fval) (x y : np.ndarray) :
  let ea' := EvenAsphere.mk (EvenAsphere.radius ea) (EvenAsphere.k ea)
               (EvenAsphere.tol ea) (EvenAsphere.max_iter ea)
               (EvenAsphere.c ea ++ zs) in
  length x = length y ->
  Forall (fun v => is_finite v = true) x ->
  Forall (fun v => is_finite v = true) y ->
  Forall (fun v => v = Fin 0) zs ->
  EvenAsphere.sag ea' x y = EvenAsphere.sag ea x y
  /\ EvenAsphere._surface_normal ea' x y = EvenAsphere._surface_normal ea x y.
Proof.
  intros ea' Hlen Hfx Hfy Hzs.
  assert (Hnx : forall i, (i < length x)%nat -> is_finite (nth i x NaN) = true).
  { intros i Hi. now apply Forall_nth. }
  assert (Hny : forall i, (i < length x)%nat -> is_finite (nth i y NaN) = true).
  { intros i Hi. apply Forall_nth; [exact Hfy | lia]. }
  split.
  - rewrite (Even_sag_seq ea' x y (length x) eq_refl (eq_sym Hlen)).
    rewrite (Even_sag_seq ea x y (length x) eq_refl (eq_sym Hlen)).
    apply map_seq_ext. intros i Hi.
    apply Even_trailing_sag1; auto.
  - assert (H1 : forall i, In i (seq 0 (length x)) ->
              EvenAsphere._surface_normal1 ea' (nth i x NaN) (nth i y NaN)
              = EvenAsphere._surface_normal1 ea (nth i x NaN) (nth i y NaN)).
    { intros i Hi. apply in_seq in Hi. unfold EvenAsphere._surface_normal1.
      unfold ea'. rewrite Even_trailing_gradient1; auto with arith.
      - apply Hnx; lia.
      - apply Hny; lia. }
    pose proof (Even_normal_map ea' (seq 0 (length x))
                  (fun j => nth j x NaN) (fun j => nth j y NaN)) as Ha.
    pose proof (Even_normal_map ea (seq 0 (length x))
                  (fun j => nth j x NaN) (fun j => nth j y NaN)) as Hb.
    rewrite <- (as_map_seq_len x NaN (length x) eq_refl),
            <- (as_map_seq_len y NaN (length x) (eq_sym Hlen)) in Ha, Hb.
    rewrite Ha, Hb.
    f_equal; [f_equal|]; apply map_ext_in; intros i Hi; now rewrite H1.
Qed.

(* ================================================================= *)
(** * [ParaxialRays.propagate]: shapes, and two calls in a row *)

Lemma update_update_same h l a b :
  Store.update (Store.update h l a) l b = Store.update h l b.
Proof.
  revert l. induction h as [|v h IH]; intros [|l]; cbn [Store.update];
    try reflexivity.
  now rewrite IH.
Qed.

Lemma update_update_comm h l l' a b :
  l <> l' ->
  Store.update (Store.update h l a) l' b
  = Store.update (Store.update h l' b) l a.
Proof.
  revert l l'. induction h as [|v h IH]; intros [|l] [|l'] Hne;
    cbn [Store.update]; try reflexivity; try congruence.
  rewrite IH; [reflexivity | congruence].
Qed.

Lemma adds_adds (z : np.ndarray) (t1 t2 : R) :
  Forall (fun v => is_finite v = true) z ->
  np.adds (np.adds z (Fin t1)) (Fin t2) = np.adds z (Fin (t1 + t2)).
Proof.
  intros H. unfold np.adds. rewrite map_map.
  apply map_ext_in. intros v Hv.
  rewrite Forall_forall in H. specialize (H v Hv).
  destruct v as [v0| | |]; try discriminate.
  rewrite !fadd_Fin. f_equal. ring.
Qed.

Lemma add_smul_twice (y u : np.ndarray) (t1 t2 : R) :
  Forall (fun v => is_finite v = true) y ->
  Forall (fun v => is_finite v = true) u ->
  np.add (np.add y (np.smul (Fin t1) u)) (np.smul (Fin t2) u)
  = np.add y (np.smul (Fin (t1 + t2)) u).
Proof.
  intros Hy. revert u. induction Hy as [|a y Ha _ IH]; intros u Hu.
  - reflexivity.
  - destruct Hu as [|b u Hb Hu]; [reflexivity|].
    destruct a as [a0| | |]; try discriminate.
    destruct b as [b0| | |]; try discriminate.
    unfold np.add, np.smul in *. cbn [map np.zipWith].
    rewrite IH by assumption.
    rewrite !fmul_Fin, !fadd_Fin. do 2 f_equal. ring.
Qed.

(** X15 ([ParaxialRays.propagate], shapes): when [u] has neither the
    length of [y] nor one entry, the call raises [ValueError]; when [u]
    has one entry [s] (and [y] another length), the call returns and
    [y] holds [y + t * s] at every place, [z] holds [z + t], and every
    other array is what it was. *)
Theorem X15_propagate_shapes (self : ParaxialRays.t) (t : fval) (h : Store.t) :
  let y := Store.lookup h (ParaxialRays.y self) in
  let u := Store.lookup h (ParaxialRays.u self) in
  ParaxialRays.wf self h ->
  (length u <> length y -> length u <> 1%nat ->
   ParaxialRays.propagate self t h = Raise ValueError)
  /\ (forall s, u = [s] -> length y <> 1%nat ->
      exists h',
        ParaxialRays.propagate self t h = Return (tt, h')
        /\ Store.lookup h' (ParaxialRays.y self) = map (fun v => (v + t * s)%fv) y
        /\ Store.lookup h' (ParaxialRays.z self)
           = np.adds (Store.lookup h (ParaxialRays.z self)) t
        /\ (forall l, l <> ParaxialRays.y self -> l <> ParaxialRays.z self ->
              Store.lookup h' l = Store.lookup h l)).
Proof.
  intros y u Hwf.
  destruct (wf_distinct self h Hwf)
    as ((Hyz & Hyu & Hyx & Hyi & Hyw & Hzu & Hzx & Hzi & Hzw) & Hy & Hz).
  split.
  - intros Hne Hne1.
    rewrite propagate_unfold; cbv zeta.
    rewrite !(lookup_update_other h (ParaxialRays.z self)) by auto.
    fold y u. unfold np.iadd, np.smul. rewrite length_map.
    destruct (Nat.eqb_spec (length u) (length y)) as [E | _]; [contradiction|].
    destruct u as [|s [|s' u']]; cbn [map]; try reflexivity.
    now contradiction Hne1.
  - intros s Hu Hy1.
    rewrite propagate_unfold; cbv zeta.
    rewrite !(lookup_update_other h (ParaxialRays.z self)) by auto.
    fold y u. rewrite Hu. unfold np.iadd, np.smul. cbn [map length].
    destruct (Nat.eqb_spec 1 (length y)) as [E | _]; [now contradiction Hy1|].
    eexists. split; [reflexivity|]. split; [|split].
    + apply lookup_update_same. now rewrite length_update.
    + rewrite lookup_update_other by auto. now apply lookup_update_same.
    + intros l Hly Hlz. now rewrite !lookup_update_other by auto.
Qed.

(** X16 ([ParaxialRays.propagate], two calls): on finite arrays [y],
    [u], [z] of one length, [propagate(t1)] followed by [propagate(t2)]
    returns and leaves the same store as one call [propagate(t1 + t2)]
    (in the arithmetic of the model, which has no rounding). *)
Theorem X16_propagate_twice (self : ParaxialRays.t) (t1 t2 : R) (h : Store.t) :
  ParaxialRays.wf self h ->
  length (Store.lookup h (ParaxialRays.u self))
  = length (Store.lookup h (ParaxialRays.y self)) ->
  Forall (fun v => is_finite v = true) (Store.lookup h (ParaxialRays.y self)) ->
  Forall (fun v => is_finite v = true) (Store.lookup h (ParaxialRays.u self)) ->
  Forall (fun v => is_finite v = true) (Store.lookup h (ParaxialRays.z self)) ->
  exists h1 h2,
    ParaxialRays.propagate self (Fin t1) h = Return (tt, h1)
    /\ ParaxialRays.propagate self (Fin t2) h1 = Return (tt, h2)
    /\ ParaxialRays.propagate self (Fin (t1 + t2)) h = Return (tt, h2).
Proof.
  intros Hwf Hlen Hfy Hfu Hfz.
  destruct (wf_distinct self h Hwf)
    as ((Hyz & Hyu & Hyx & Hyi & Hyw & Hzu & Hzx & Hzi & Hzw) & Hy & Hz).
  set (y := Store.lookup h (ParaxialRays.y self)) in *.
  set (u := Store.lookup h (ParaxialRays.u self)) in *.
  set (z := Store.lookup h (ParaxialRays.z self)) in *.
  assert (Hstep : forall t h0,
            Store.lookup h0 (ParaxialRays.u self) = u ->
            (ParaxialRays.y self < length h0)%nat ->
            (ParaxialRays.z self < length h0)%nat ->
            length (Store.lookup h0 (ParaxialRays.y self)) = length u ->
            ParaxialRays.propagate self t h0
            = Return (tt, Store.update
                            (Store.update h0 (ParaxialRays.z self)
                               (np.adds (Store.lookup h0 (ParaxialRays.z self)) t))
                            (ParaxialRays.y self)
                            (np.add (Store.lookup h0 (ParaxialRays.y self))
                                    (np.smul t u)))).
  { intros t h0 Hu0 Hy0 Hz0 Hl0.
    rewrite propagate_unfold; cbv zeta.
    rewrite !(lookup_update_other h0 (ParaxialRays.z self)) by auto.
    rewrite Hu0. unfold np.iadd. unfold np.smul at 1.
    rewrite length_map, Hl0, Nat.eqb_refl. reflexivity. }
  pose proof (Hstep (Fin t1) h eq_refl Hy Hz (eq_sym Hlen)) as H1.
  fold y z in H1.
  set (h1 := Store.update (Store.update h (ParaxialRays.z self) (np.adds z (Fin t1)))
               (ParaxialRays.y self) (np.add y (np.smul (Fin t1) u))) in *.
  assert (Hy1 : Store.lookup h1 (ParaxialRays.y self) = np.add y (np.smul (Fin t1) u)).
  { unfold h1. apply lookup_update_same. now rewrite length_update. }
  assert (Hz1 : Store.lookup h1 (ParaxialRays.z self) = np.adds z (Fin t1)).
  { unfold h1. rewrite lookup_update_other by auto. now apply lookup_update_same. }
  assert (Hu1 : Store.lookup h1 (ParaxialRays.u self) = u).
  { unfold h1. now rewrite !lookup_update_other by auto. }
  assert (Hl1 : length h1 = length h).
  { unfold h1. now rewrite !length_update. }
  assert (Hly1 : length (Store.lookup h1 (ParaxialRays.y self)) = length u).
  { rewrite Hy1. unfold np.add, np.smul.
    rewrite length_zipWith; rewrite ?length_map; auto. }
  pose proof (Hstep (Fin t2) h1 Hu1 ltac:(lia) ltac:(lia) Hly1) as H2.
  rewrite Hy1, Hz1 in H2.
  exists h1. eexists. split; [exact H1|]. split; [exact H2|].
  rewrite (Hstep (Fin (t1 + t2)) h eq_refl Hy Hz (eq_sym Hlen)).
  fold y z. do 2 f_equal.
  unfold h1.
  rewrite adds_adds, add_smul_twice by assumption.
  rewrite (update_update_comm (Store.update h _ _) (ParaxialRays.y self)
             (ParaxialRays.z self)) by auto.
  now rewrite !update_update_same.
Qed.

(* ================================================================= *)
(** * An infinite radius: the plane *)

Lemma flat_sag1 radius (K x0 y0 : R) :
  radius = PInf \/ radius = NInf ->
  StandardGeometry.sag1 (StandardGeometry.mk radius (Fin K)) (Fin x0) (Fin y0)
  = Fin 0.
Proof.
  assert (Hs : 0 < 1 + sqrt (1 + - 0)).
  { pose proof (sqrt_pos (1 + - 0)). lra. }
  intros [-> | ->];
    unfold StandardGeometry.sag1, fsq, fsub; cbv zeta;
    cbn [StandardGeometry.radius StandardGeometry.k
         fadd fmul fneg fsign fdiv finf xorb];
    rewrite fsqrt_Fin by lra; cbn [fadd fmul fsign finf xorb];
    simpl; rcases; reflexivity.
Qed.

Lemma flat_normal1 radius (K x0 y0 : R) :
  radius = PInf \/ radius = NInf ->
  StandardGeometry.surface_normal1 (StandardGeometry.mk radius (Fin K))
                                   (Fin x0) (Fin y0)
  = (Fin 0, Fin 0, Fin 1).
Proof.
  intros HR.
  assert (Hs : 0 < sqrt (1 + - 0)) by (apply sqrt_lt_R0; lra).
  assert (Hm : sqrt (0 * 0 + 0 * 0 + 1 * 1) = 1).
  { replace (0 * 0 + 0 * 0 + 1 * 1) with 1 by ring. apply sqrt_1. }
  assert (Hden : (- radius
                  * fsqrt (1 - (1 + Fin K) * (fsq (Fin x0) + fsq (Fin y0))
                               / fsq radius))%fv = fneg radius).
  { destruct HR as [-> | ->];
      unfold fsq, fsub; cbn [fadd fmul fneg fsign fdiv finf xorb];
      rewrite fsqrt_Fin by lra; cbn [fmul fsign finf xorb]; rcases; reflexivity. }
  unfold StandardGeometry.surface_normal1; cbv zeta.
  cbn [StandardGeometry.radius StandardGeometry.k].
  rewrite Hden.
  replace (Fin x0 / fneg radius)%fv with (Fin 0)
    by (destruct HR as [-> | ->]; reflexivity).
  replace (Fin y0 / fneg radius)%fv with (Fin 0)
    by (destruct HR as [-> | ->]; reflexivity).
  unfold fsq. rewrite !fmul_Fin, !fadd_Fin.
  rewrite fsqrt_Fin by (rewrite <- (Rmult_1_r 0) at 1; nra).
  rewrite Hm, !fdiv_Fin by lra. repeat f_equal; field.
Qed.

(** X17 ([StandardGeometry.sag], [StandardGeometry.surface_normal]): with
    [radius = inf] or [radius = -inf] and a finite conic the surface is
    the plane [z = 0]: at finite coordinates the sag is [0] and the
    normal is [(0, 0, 1)]. *)
Theorem X17_infinite_radius_is_plane
  (radius : fval) (K : R) (rays : RealRays.t) (n i : nat) (x0 y0 : R) :
  let st := StandardGeometry.mk radius (Fin K) in
  let x := RealRays.x rays in
  let y := RealRays.y rays in
  radius = PInf \/ radius = NInf ->
  length x = n -> length y = n -> (i < n)%nat ->
  nth i x NaN = Fin x0 -> nth i y NaN = Fin y0 ->
  nth i (StandardGeometry.sag st x y) NaN = Fin 0
  /\ vec_at (StandardGeometry.surface_normal st rays) i = (Fin 0, Fin 0, Fin 1).
Proof.
  intros st x y HR Hx Hy Hi Ex Ey. split.
  - rewrite (Standard_sag_nth st x y n i Hx Hy Hi), Ex, Ey.
    now apply flat_sag1.
  - rewrite (Standard_normal_nth st rays n i Hx Hy Hi).
    fold x y. rewrite Ex, Ey. now apply flat_normal1.
Qed.

(* ================================================================= *)
(** * Chebyshev with a single number as [coefficients] *)

Lemma argwhere_scalar (p : R) :
  ChebyshevPolynomialGeometry.argwhere_ne0 [[Fin p]]
  = if Reqb p 0 then [] else [(0%nat, 0%nat)].
Proof.
  unfold ChebyshevPolynomialGeometry.argwhere_ne0,
    ChebyshevPolynomialGeometry.nonzero_cols, enumerate, fneb.
  cbn [length seq combine flat_map filter feqb].
  destruct (Reqb p 0); reflexivity.
Qed.

Lemma T_0 (u : R) : -1 <= u <= 1 -> ChebyshevPolynomialGeometry.T 0 (Fin u) = Fin 1.
Proof.
  intros Hu. rewrite T_finite by assumption. f_equal.
  simpl INR. rewrite Rmult_0_l. apply cos_0.
Qed.

Lemma T'_0 (u : R) : -1 < u < 1 -> ChebyshevPolynomialGeometry.T' 0 (Fin u) = Fin 0.
Proof.
  intros Hu. rewrite T'_finite by assumption. f_equal.
  simpl INR. unfold Rdiv. ring.
Qed.

Lemma in_domain_inv g x0 y0 nx ny :
  ChebyshevPolynomialGeometry.norm_x g = Fin nx ->
  ChebyshevPolynomialGeometry.norm_y g = Fin ny ->
  nx <> 0 -> ny <> 0 ->
  ChebyshevPolynomialGeometry.out_of_domain1 g (Fin x0) (Fin y0) = false ->
  -1 <= x0 / nx <= 1 /\ -1 <= y0 / ny <= 1.
Proof.
  intros Enx Eny Hnx Hny H.
  unfold ChebyshevPolynomialGeometry.out_of_domain1, fgtb in H.
  rewrite Enx, Eny, !fdiv_Fin in H by assumption. cbn [fabs fltb] in H.
  apply orb_false_iff in H as [Hx Hy].
  apply Rltb_false in Hx, Hy.
  split; [revert Hx | revert Hy]; unfold Rabs; destruct (Rcase_abs _); lra.
Qed.

(** X18 ([ChebyshevPolynomialGeometry.__init__], [sag],
    [_surface_normal]): built with a single number [p] as
    [coefficients] (finite [norm_x], [norm_y] different from zero), the
    surface is the conic shifted by [p]: on a batch that passes the
    domain check, the sag at finite coordinates is the sag of
    [StandardGeometry] plus [p], and strictly inside of the domain the
    normal is the normal of [StandardGeometry]. *)
Theorem X18_chebyshev_constant_term
  (radius k tol : fval) (max_iter : nat) (p nx ny : R)
  (rays : RealRays.t) (n i : nat) (x0 y0 : R) :
  let g := ChebyshevPolynomialGeometry.init radius k tol max_iter
             (ChebyshevPolynomialGeometry.Coef0 (Fin p)) (Fin nx) (Fin ny) in
  let st := StandardGeometry.mk radius k in
  let x := RealRays.x rays in
  let y := RealRays.y rays in
  length x = n -> length y = n -> (i < n)%nat ->
  nx <> 0 -> ny <> 0 ->
  (forall j, (j < n)%nat ->
     ChebyshevPolynomialGeometry.out_of_domain1 g (nth j x NaN) (nth j y NaN) = false) ->
  nth i x NaN = Fin x0 -> nth i y NaN = Fin y0 ->
  (exists z,
      ChebyshevPolynomialGeometry.sag g x y = Return z
      /\ nth i z NaN = (nth i (StandardGeometry.sag st x y) NaN + Fin p)%fv)
  /\ (-1 < x0 / nx < 1 -> -1 < y0 / ny < 1 ->
      exists v,
        ChebyshevPolynomialGeometry._surface_normal g x y = Return v
        /\ vec_at v i = vec_at (StandardGeometry.surface_normal st rays) i).
Proof.
  intros g st x y Hx Hy Hi Hnx Hny Hdom Ex Ey.
  pose proof (Hdom i Hi) as Hdi. rewrite Ex, Ey in Hdi.
  destruct (in_domain_inv g x0 y0 nx ny eq_refl eq_refl Hnx Hny Hdi) as [Hu Hv].
  split.
  - pose proof (Cheb_sag_seq g x y n Hx Hy) as Hs.
    rewrite (existsb_seq_false _ n Hdom) in Hs.
    eexists. split; [exact Hs|].
    rewrite (Cheb_sag_nth g x y n _ i Hx Hy Hi Hs), Ex, Ey.
    rewrite (Standard_sag_nth st x y n i Hx Hy Hi), Ex, Ey.
    unfold ChebyshevPolynomialGeometry.sag1; cbv zeta.
    change (ChebyshevPolynomialGeometry.conic1 g (Fin x0) (Fin y0))
      with (StandardGeometry.sag1 st (Fin x0) (Fin y0)).
    cbn [g ChebyshevPolynomialGeometry.init ChebyshevPolynomialGeometry.c
         ChebyshevPolynomialGeometry.atleast_2d
         ChebyshevPolynomialGeometry.norm_x ChebyshevPolynomialGeometry.norm_y].
    rewrite argwhere_scalar.
    destruct (Reqb p 0) eqn:Ep; cbn [fold_left].
    + apply Reqb_true in Ep. subst p. symmetry. now apply fadd_zero.
    + rewrite !fdiv_Fin, !T_0 by assumption.
      unfold ChebyshevPolynomialGeometry.entry. cbn [nth].
      rewrite !fmul_Fin. do 2 f_equal. ring.
  - intros Hu' Hv'.
    pose proof (Cheb_normal_seq g x y n Hx Hy) as Hn.
    rewrite (existsb_seq_false _ n Hdom) in Hn.
    eexists. split; [exact Hn|].
    rewrite (Cheb_normal_nth g x y n _ i Hx Hy Hi Hn), Ex, Ey.
    rewrite (Standard_normal_nth st rays n i Hx Hy Hi).
    fold x y. rewrite Ex, Ey.
    assert (Hg : ChebyshevPolynomialGeometry.gradient1 g (Fin x0) (Fin y0)
                 = ((Fin x0 / conic_denom radius k (Fin x0) (Fin y0))%fv,
                    (Fin y0 / conic_denom radius k (Fin x0) (Fin y0))%fv)).
    { unfold ChebyshevPolynomialGeometry.gradient1; cbv zeta.
      fold (conic_denom (ChebyshevPolynomialGeometry.radius g)
              (ChebyshevPolynomialGeometry.k g) (Fin x0) (Fin y0)).
      cbn [g ChebyshevPolynomialGeometry.init ChebyshevPolynomialGeometry.c
           ChebyshevPolynomialGeometry.atleast_2d
           ChebyshevPolynomialGeometry.radius ChebyshevPolynomialGeometry.k
           ChebyshevPolynomialGeometry.norm_x ChebyshevPolynomialGeometry.norm_y].
      rewrite argwhere_scalar.
      destruct (Reqb p 0) eqn:Ep; cbn [fold_left]; [reflexivity|].
      rewrite !fdiv_Fin, !T_0, !T'_0 by assumption.
      unfold ChebyshevPolynomialGeometry.entry. cbn [nth].
      rewrite !fmul_Fin, !fadd_zero by ring. reflexivity. }
    unfold ChebyshevPolynomialGeometry._surface_normal1. rewrite Hg.
    unfold StandardGeometry.surface_normal1; cbv zeta.
    cbn [st StandardGeometry.radius StandardGeometry.k].
    rewrite fneg_fmul_l. symmetry.
    exact (normal_std_cheb (Fin x0) (Fin y0)
             (conic_denom radius k (Fin x0) (Fin y0))).
Qed.

(* ================================================================= *)
(** * The theorems above at given numbers *)



Lemma X2_sag_on_quadric_witness :
  exists z,
    nth 0 (StandardGeometry.sag (StandardGeometry.mk (Fin 100) (Fin 0))
             [Fin 5] [Fin 0]) NaN = Fin z
    /\ quadric 0 100 5 0 z = 0.
Proof.
  apply (X2_sag_on_quadric 100 0 [Fin 5] [Fin 0] 1 0 5 0);
    try reflexivity; try lia; lra.
Defined.

Lemma X3_normal_parallel_to_gradient_witness :
  exists z nx ny nz,
    nth 0 (StandardGeometry.sag (StandardGeometry.mk (Fin 100) (Fin 0))
             [Fin 5] [Fin 3]) NaN = Fin z
    /\ vec_at (StandardGeometry.surface_normal
                 (StandardGeometry.mk (Fin 100) (Fin 0)) (one_ray 5 3 0 0 0 1)) 0
       = (Fin nx, Fin ny, Fin nz)
    /\ ny * (2 * 0 * z - 2 * 100 + 2 * z) - nz * (2 * 3) = 0
    /\ nz * (2 * 5) - nx * (2 * 0 * z - 2 * 100 + 2 * z) = 0
    /\ nx * (2 * 3) - ny * (2 * 5) = 0.
Proof.
  apply (X3_normal_parallel_to_gradient 100 0 (one_ray 5 3 0 0 0 1) 1 0 5 3);
    try reflexivity; try lia; lra.
Defined.


Lemma fleb_abs_Fin (u : R) : -1 <= u <= 1 -> fleb (fabs (Fin u)) 1%fv = true.
Proof.
  intros Hu. cbn [fabs]. apply fleb_Fin. apply Rabs_le. lra.
Qed.

Lemma X6_chebyshev_recurrence_witness :
  let x := [Fin (/ 2); Fin (-1); Fin 0] in
  ChebyshevPolynomialGeometry._chebyshev 0 x = np.ones_like x
  /\ ChebyshevPolynomialGeometry._chebyshev 1 x = x
  /\ ChebyshevPolynomialGeometry._chebyshev 3 x
     = np.sub (np.mul (np.smul (Fin 2) x)
                      (ChebyshevPolynomialGeometry._chebyshev 2 x))
              (ChebyshevPolynomialGeometry._chebyshev 1 x).
Proof.
  intros x. apply (X6_chebyshev_recurrence x 1).
  repeat constructor; apply fleb_abs_Fin; lra.
Defined.

Lemma X7_chebyshev_bounded_witness :
  Forall (fun v => fleb (fabs v) 1%fv = true)
         (ChebyshevPolynomialGeometry._chebyshev 3 [Fin (/ 2); Fin (-1); Fin 0]).
Proof.
  apply X7_chebyshev_bounded.
  repeat constructor; apply fleb_abs_Fin; lra.
Defined.

Lemma X8_chebyshev_outside_domain_witness :
  nth 0 (ChebyshevPolynomialGeometry._chebyshev 3 [Fin 2]) NaN = NaN
  /\ nth 0 (ChebyshevPolynomialGeometry._chebyshev_derivative 3 [Fin 2]) NaN = NaN.
Proof.
  apply (X8_chebyshev_outside_domain 3 [Fin 2] 0).
  unfold fgtb. cbn [nth fabs fltb]. apply Rltb_true.
  rewrite Rabs_pos_eq; lra.
Defined.

(** On the rim [x = norm_x] of a surface with one coefficient. *)
Lemma X9_chebyshev_boundary_normal_nan_witness :
  exists v,
    ChebyshevPolynomialGeometry._surface_normal
      (chebyshev100 (ChebyshevPolynomialGeometry.Coef0 (Fin (/ 1000))))
      [Fin 10] [Fin 0] = Return v
    /\ vec_at v 0 = (NaN, NaN, NaN).
Proof.
  apply (X9_chebyshev_boundary_normal_nan
           (chebyshev100 (ChebyshevPolynomialGeometry.Coef0 (Fin (/ 1000))))
           [Fin 10] [Fin 0] 1 0).
  - reflexivity.
  - reflexivity.
  - lia.
  - intros j Hj. assert (j = 0%nat) by lia. subst j.
    apply (in_domain_Fin _ 10 0 10 10); try reflexivity; lra.
  - left. cbn [nth chebyshev100 ChebyshevPolynomialGeometry.init
               ChebyshevPolynomialGeometry.norm_x].
    rewrite fdiv_Fin by lra. f_equal. field.
  - cbn [chebyshev100 ChebyshevPolynomialGeometry.init
         ChebyshevPolynomialGeometry.c ChebyshevPolynomialGeometry.atleast_2d].
    rewrite argwhere_scalar, (proj2 (Reqb_false (/ 1000) 0)) by lra.
    discriminate.
Defined.

Lemma X10_chebyshev_derivative_is_derivative_witness :
  let f := fun v => cos (INR 3 * acos v) in
  let f' := fun u => INR 3 * sin (INR 3 * acos u) / sqrt (1 - u * u) in
  ChebyshevPolynomialGeometry._chebyshev 3 (map Fin [/ 2; -1])
  = map (fun v => Fin (f v)) [/ 2; -1]
  /\ ChebyshevPolynomialGeometry._chebyshev_derivative 3 (map Fin [/ 2; 0])
     = map (fun u => Fin (f' u)) [/ 2; 0]
  /\ Forall (fun u => derivable_pt_lim f u (f' u)) [/ 2; 0].
Proof.
  apply (X10_chebyshev_derivative_is_derivative 3 [/ 2; -1] [/ 2; 0]);
    repeat constructor; lra.
Defined.

Lemma X11_vertex_sag_and_normal_witness :
  nth 1 (StandardGeometry.sag (StandardGeometry.mk (Fin 50) (Fin (-1)))
           [Fin 5; Fin 0] [Fin 0; Fin 0]) NaN = Fin 0
  /\ nth 1 (EvenAsphere.sag asphere50 [Fin 5; Fin 0] [Fin 0; Fin 0]) NaN = Fin 0
  /\ vec_at (StandardGeometry.surface_normal
               (StandardGeometry.mk (Fin 50) (Fin (-1)))
               (Ray.cols [Ray.mk (Fin 5) (Fin 0) (Fin 0) (Fin 0) (Fin 0) (Fin 1);
                          Ray.mk (Fin 0) (Fin 0) (Fin 0) (Fin 0) (Fin 0) (Fin 1)])) 1
     = (Fin 0, Fin 0, Fin 1)
  /\ vec_at (EvenAsphere._surface_normal asphere50 [Fin 5; Fin 0] [Fin 0; Fin 0]) 1
     = (Fin 0, Fin 0, Fin (-1)).
Proof.
  apply (X11_vertex_sag_and_normal 50 (-1) (Fin (/ 10000000000)) 100 [Fin (/ 100000)]
           (Ray.cols [Ray.mk (Fin 5) (Fin 0) (Fin 0) (Fin 0) (Fin 0) (Fin 1);
                      Ray.mk (Fin 0) (Fin 0) (Fin 0) (Fin 0) (Fin 0) (Fin 1)]) 2 1);
    try reflexivity; try lia; try lra.
  repeat constructor.
Defined.

(** [EvenAsphere(radius=50, conic=-1, coefficients=[1e-5])] at [x = 5]. *)
Lemma X12_even_normal_is_sag_gradient_witness :
  exists (f : R -> R -> R) (gx gy : R),
    (forall u v,
        0 <= 1 - (1 + -1) * (u * u + v * v) / (50 * 50) ->
        EvenAsphere.sag asphere50 [Fin u] [Fin v] = [Fin (f u v)])
    /\ derivable_pt_lim (fun u => f u 0) 5 gx
    /\ derivable_pt_lim (fun v => f 5 v) 0 gy
    /\ vec_at (EvenAsphere._surface_normal asphere50 [Fin 5] [Fin 0]) 0
       = (Fin (gx / sqrt (gx * gx + gy * gy + 1)),
          Fin (gy / sqrt (gx * gx + gy * gy + 1)),
          Fin (- 1 / sqrt (gx * gx + gy * gy + 1))).
Proof.
  apply (X12_even_normal_is_sag_gradient 50 (-1) (Fin (/ 10000000000)) 100
           [/ 100000] [Fin 5] [Fin 0] 1 0 5 0);
    try reflexivity; try lia; lra.
Defined.

Lemma X13_chebyshev_normal_is_sag_gradient_witness :
  let g := ChebyshevPolynomialGeometry.mk (Fin 100) (Fin 0) (Fin (/ 10000000000))
             100 (map (map Fin) [[0; / 1000]; [/ 2000; 0]]) (Fin 1) (Fin 1) in
  exists (f : R -> R -> R) (gx gy : R),
    (forall u v,
        -1 <= u <= 1 -> -1 <= v <= 1 ->
        0 <= 1 - (1 + 0) * (u * u + v * v) / (100 * 100) ->
        ChebyshevPolynomialGeometry.sag g [Fin u] [Fin v] = Return [Fin (f u v)])
    /\ derivable_pt_lim (fun u => f u 0) (/ 2) gx
    /\ derivable_pt_lim (fun v => f (/ 2) v) 0 gy
    /\ exists nv,
         ChebyshevPolynomialGeometry._surface_normal g [Fin (/ 2)] [Fin 0] = Return nv
         /\ vec_at nv 0
            = (Fin (- gx / sqrt (gx * gx + gy * gy + 1)),
               Fin (- gy / sqrt (gx * gx + gy * gy + 1)),
               Fin (1 / sqrt (gx * gx + gy * gy + 1))).
Proof.
  intros g.
  apply (X13_chebyshev_normal_is_sag_gradient 100 0 (Fin (/ 10000000000)) 100
           [[0; / 1000]; [/ 2000; 0]] [Fin (/ 2)] [Fin 0] 1 0 (/ 2) 0);
    try reflexivity; try lia; try lra.
  intros j Hj. assert (j = 0%nat) by lia. subst j.
  apply (in_domain_Fin _ (/ 2) 0 1 1); try reflexivity; lra.
Defined.

Lemma X14_even_trailing_zero_coefficients_witness :
  let ea' := EvenAsphere.mk (Fin 50) (Fin (-1)) (Fin (/ 10000000000)) 100
               ([Fin (/ 100000)] ++ [Fin 0; Fin 0]) in
  EvenAsphere.sag ea' [Fin 5; Fin 1] [Fin 0; Fin 2]
  = EvenAsphere.sag asphere50 [Fin 5; Fin 1] [Fin 0; Fin 2]
  /\ EvenAsphere._surface_normal ea' [Fin 5; Fin 1] [Fin 0; Fin 2]
     = EvenAsphere._surface_normal asphere50 [Fin 5; Fin 1] [Fin 0; Fin 2].
Proof.
  apply (X14_even_trailing_zero_coefficients asphere50 [Fin 0; Fin 0]
           [Fin 5; Fin 1] [Fin 0; Fin 2]);
    try reflexivity; repeat constructor.
Defined.

(** [y = (1, 2)] with one slope [u = (0.1)] for both rays; and with three
    slopes, which raises. *)
Lemma X15_propagate_shapes_witness :
  let h1 := [[Fin 1; Fin 2]; [Fin 0; Fin 0]; [Fin (/ 10)];
             [Fin 0; Fin 0]; [Fin 1; Fin 1]; [Fin (11 / 20)]] in
  let h3 := [[Fin 1; Fin 2]; [Fin 0; Fin 0]; [Fin (/ 10); Fin 0; Fin 0];
             [Fin 0; Fin 0]; [Fin 1; Fin 1]; [Fin (11 / 20)]] in
  ParaxialRays.propagate paraxial_obj (Fin 3) h3 = Raise ValueError
  /\ exists h',
       ParaxialRays.propagate paraxial_obj (Fin 3) h1 = Return (tt, h')
       /\ Store.lookup h' (ParaxialRays.y paraxial_obj)
          = map (fun v => (v + Fin 3 * Fin (/ 10))%fv) [Fin 1; Fin 2]
       /\ Store.lookup h' (ParaxialRays.z paraxial_obj)
          = np.adds [Fin 0; Fin 0] (Fin 3)
       /\ (forall l, l <> ParaxialRays.y paraxial_obj ->
                     l <> ParaxialRays.z paraxial_obj ->
                     Store.lookup h' l = Store.lookup h1 l).
Proof.
  intros h1 h3.
  assert (Hwf : forall h, length h = 6%nat -> ParaxialRays.wf paraxial_obj h).
  { intros h Hh. split.
    - repeat constructor; simpl; intuition lia.
    - rewrite Hh. repeat constructor. }
  split.
  - apply (proj1 (X15_propagate_shapes paraxial_obj (Fin 3) h3 (Hwf h3 eq_refl)));
      simpl; lia.
  - apply (proj2 (X15_propagate_shapes paraxial_obj (Fin 3) h1 (Hwf h1 eq_refl))
             (Fin (/ 10)) eq_refl).
    simpl; lia.
Defined.

Lemma X16_propagate_twice_witness :
  exists h1 h2,
    ParaxialRays.propagate paraxial_obj (Fin 3) paraxial_store = Return (tt, h1)
    /\ ParaxialRays.propagate paraxial_obj (Fin 2) h1 = Return (tt, h2)
    /\ ParaxialRays.propagate paraxial_obj (Fin (3 + 2)) paraxial_store
       = Return (tt, h2).
Proof.
  apply (X16_propagate_twice paraxial_obj 3 2 paraxial_store paraxial_wf eq_refl);
    repeat constructor.
Defined.

Lemma X17_infinite_radius_is_plane_witness :
  nth 0 (StandardGeometry.sag (StandardGeometry.mk PInf (Fin 0)) [Fin 5] [Fin 3]) NaN
  = Fin 0
  /\ vec_at (StandardGeometry.surface_normal (StandardGeometry.mk PInf (Fin 0))
               (one_ray 5 3 0 0 0 1)) 0
     = (Fin 0, Fin 0, Fin 1).
Proof.
  apply (X17_infinite_radius_is_plane PInf 0 (one_ray 5 3 0 0 0 1) 1 0 5 3);
    try reflexivity; try lia.
  now left.
Defined.

(** [ChebyshevPolynomialGeometry(radius=100, coefficients=0.001,
    norm_x=10, norm_y=10)] at [x = 5]. *)
Lemma X18_chebyshev_constant_term_witness :
  let g := chebyshev100 (ChebyshevPolynomialGeometry.Coef0 (Fin (/ 1000))) in
  (exists z,
      ChebyshevPolynomialGeometry.sag g [Fin 5] [Fin 0] = Return z
      /\ nth 0 z NaN
         = (nth 0 (StandardGeometry.sag sphere100 [Fin 5] [Fin 0]) NaN
            + Fin (/ 1000))%fv)
  /\ exists v,
       ChebyshevPolynomialGeometry._surface_normal g [Fin 5] [Fin 0] = Return v
       /\ vec_at v 0
          = vec_at (StandardGeometry.surface_normal sphere100 (one_ray 5 0 0 0 0 1)) 0.
Proof.
  intros g.
  assert (Hdom : forall j, (j < 1)%nat ->
            ChebyshevPolynomialGeometry.out_of_domain1 g
              (nth j [Fin 5] NaN) (nth j [Fin 0] NaN) = false).
  { intros j Hj. assert (j = 0%nat) by lia. subst j.
    apply (in_domain_Fin _ 5 0 10 10); try reflexivity; lra. }
  destruct (X18_chebyshev_constant_term (Fin 100) (Fin 0) (Fin (/ 10000000000)) 100
              (/ 1000) 10 10 (one_ray 5 0 0 0 0 1) 1 0 5 0
              eq_refl eq_refl ltac:(lia) ltac:(lra) ltac:(lra) Hdom eq_refl eq_refl)
    as [Hs Hn].
  split; [exact Hs|]. apply Hn; lra.
Defined.
